(** * Chord inference post-processing (basic-pitch-server/chord_inference.py)

    A shallow embedding of the chord inference pipeline and the proofs of
    its specified properties.

    Numbers.  Python floats are modelled as exact rationals ([Q]); every
    comparison of the source is the corresponding boolean comparison on
    [Q].  The only operation of the pipeline that leaves the rationals is
    the Pearson correlation of the key detector ([numpy.corrcoef], which
    takes a square root): it is a parameter of the development, with
    [None] standing for a NaN result.  Where a property depends on
    rounding (the time grid of the window smoother) the code is repeated
    on binary64 floats ([ChordWindowSmoother64]).

    Containers.  Python dicts whose iteration order is observable
    ([defaultdict], [Counter]) are association lists in insertion order;
    Python sets of pitch classes are [gset nat]. *)

From Stdlib Require Import QArith Qround Lqa Lia List ZArith Bool.
From Stdlib Require Import Sorting.Permutation Sorting.Sorted.
From Stdlib Require Floats.
From stdpp Require Import base decidable strings gmap sets.
Import ListNotations.

Open Scope string_scope.
Open Scope list_scope.
Open Scope Q_scope.

(** ** Numeric helpers: the comparison operators of the source *)

(** [a <= b] *)
Definition Qleb (a b : Q) : bool := Qle_bool a b.
(** [a < b] *)
Definition Qltb (a b : Q) : bool := negb (Qle_bool b a).
(** [max(a, b)] and [min(a, b)] of Python: the first argument wins ties. *)
Definition Qmax (a b : Q) : Q := if Qltb a b then b else a.
Definition Qmin (a b : Q) : Q := if Qltb b a then b else a.

(** ** Data structures *)

Module Note.
Record NoteEvent := mk
  { onset : Q; offset : Q; pitch : Z; confidence : Q }.
Definition duration (n : NoteEvent) : Q := offset n - onset n.
Definition pitch_class (n : NoteEvent) : nat := Z.to_nat (pitch n mod 12).
End Note.

Module Chord.
Record ChordEvent := mk
  { onset : Q; offset : Q; chord_symbol : string; confidence : Q;
    pitch_classes : gset nat; root_pc : nat; chord_type : string }.
End Chord.

Module Key.
Record KeyEstimate := mk
  { key_pc : nat; mode : string; confidence : Q }.
End Key.

(** [chord.offset - chord.onset] *)
Definition chord_duration (c : Chord.ChordEvent) : Q :=
  Chord.offset c - Chord.onset c.

Abbreviation NoteEvent := Note.NoteEvent.
Abbreviation ChordEvent := Chord.ChordEvent.
Abbreviation KeyEstimate := Key.KeyEstimate.

(** ** Configuration ([ChordInferenceConfig]) *)

Module ChordInferenceConfig.
Definition MEDIAN_FILTER_SIZE : nat := 3.
Definition MIN_NOTE_DURATION : Q := 6 # 100.
Definition WINDOW_SIZE : Q := 2.
Definition WINDOW_OVERLAP : Q := 2 # 10.
Definition MIN_NOTES_PER_CHORD : nat := 2.
Definition KEY_FILTER_CONFIDENCE_THRESHOLD : Q := 15 # 100.
Definition MIN_CHORD_DURATION : Q := 3 # 10.
Definition MERGE_THRESHOLD : Q := 4 # 10.
Definition FUNCTIONAL_CHORDS : list string :=
  ["major"; "minor"; "sus2"; "sus4"; "7"; "m7"; "maj7"; "m11";
   "dim"; "aug"; "add9"; "6"].
End ChordInferenceConfig.
Import ChordInferenceConfig.

(** ** Key detection ([KeyDetector]) *)

Definition key_names : list string :=
  ["C"; "C#"; "D"; "D#"; "E"; "F"; "F#"; "G"; "G#"; "A"; "A#"; "B"].

(** [sum(...)] / [np.sum] over a list of numbers. *)
Definition Qsum (l : list Q) : Q := fold_left Qplus l 0.

(** [np.roll(profile, k)]: element [i] of the result is element
    [(i - k) mod n] of [profile]. *)
Definition roll (profile : list Q) (k : nat) : list Q :=
  let n := length profile in
  let cut := (n - k mod n)%nat in
  skipn cut profile ++ firstn cut profile.

(** [pc_weights[pc] += weight] on a 12-bin array. *)
Fixpoint add_at (pc : nat) (weight : Q) (bins : list Q) : list Q :=
  match bins, pc with
  | [], _ => []
  | w :: bins', O => (w + weight) :: bins'
  | w :: bins', S pc' => w :: add_at pc' weight bins'
  end.

Module KeyDetector.

Definition MAJOR_PROFILE : list Q :=
  [635 # 100; 223 # 100; 348 # 100; 233 # 100; 438 # 100; 409 # 100;
   252 # 100; 519 # 100; 239 # 100; 366 # 100; 229 # 100; 288 # 100].
Definition MINOR_PROFILE : list Q :=
  [633 # 100; 268 # 100; 352 # 100; 538 # 100; 260 # 100; 353 # 100;
   254 # 100; 475 # 100; 398 # 100; 269 # 100; 334 # 100; 317 # 100].

(** [__init__]: the profiles normalised to sum 1. *)
Definition major_profile : list Q :=
  map (fun x => x / Qsum MAJOR_PROFILE) MAJOR_PROFILE.
Definition minor_profile : list Q :=
  map (fun x => x / Qsum MINOR_PROFILE) MINOR_PROFILE.

(** The weighted pitch-class histogram built by [estimate_key]. *)
Definition histogram (events : list NoteEvent) : list Q :=
  fold_left
    (fun pc_weights note =>
       add_at (Note.pitch_class note)
              (Note.duration note * Note.confidence note) pc_weights)
    events (repeat 0 12).

(** The [filtered_events] of [estimate_key]: the notes of at least
    [MIN_NOTE_DURATION] when short notes are excluded and some note is
    that long, all notes otherwise. *)
Definition key_events (note_events : list NoteEvent)
  (exclude_short_notes : bool) : list NoteEvent :=
  if exclude_short_notes then
    let long_events :=
      List.filter
        (fun note => Qleb MIN_NOTE_DURATION (Note.duration note))
        note_events in
    match long_events with
    | [] => note_events
    | _ => long_events
    end
  else note_events.

(** The loop state [(best_correlation, best_key_pc, best_mode)]. *)
Definition best_state : Type := Q * nat * string.

Definition default_estimate : KeyEstimate := Key.mk 0 "major" 0.

Section WithCorrcoef.
(** [np.corrcoef(x, y)[0, 1]]; [None] is NaN. *)
Variable corrcoef : list Q -> list Q -> option Q.

Definition _correlate_with_profile
  (pc_weights : list Q) (root_pc : nat) (profile : list Q) : Q :=
  let rotated_profile := roll profile root_pc in
  match corrcoef pc_weights rotated_profile with
  | Some correlation => correlation
  | None => 0
  end.

(** One iteration of [for root_pc in range(12)]. *)
Definition key_step (pc_weights : list Q) (st : best_state)
  (root_pc : nat) : best_state :=
  let major_correlation :=
    _correlate_with_profile pc_weights root_pc major_profile in
  let st1 :=
    if Qltb (fst (fst st)) major_correlation
    then (major_correlation, root_pc, "major") else st in
  let minor_correlation :=
    _correlate_with_profile pc_weights root_pc minor_profile in
  if Qltb (fst (fst st1)) minor_correlation
  then (minor_correlation, root_pc, "minor") else st1.

Definition best_key (pc_weights : list Q) : best_state :=
  fold_left (key_step pc_weights) (seq 0 12) (-(1), 0%nat, "major").

Definition estimate_key_with (note_events : list NoteEvent)
  (exclude_short_notes : bool) : KeyEstimate :=
  match note_events with
  | [] => default_estimate
  | _ =>
      let filtered_events :=
        key_events note_events exclude_short_notes in
      let pc_weights := histogram filtered_events in
      if Qeq_bool (Qsum pc_weights) 0 then default_estimate
      else
        let pc_weights :=
          map (fun w => w / Qsum pc_weights) pc_weights in
        let '(best_correlation, best_key_pc, best_mode) :=
          best_key pc_weights in
        let confidence := Qmax 0 (Qmin 1 best_correlation) in
        Key.mk best_key_pc best_mode confidence
  end.

(** [estimate_key(note_events)] with the default
    [exclude_short_notes=True]. *)
Definition estimate_key (note_events : list NoteEvent) : KeyEstimate :=
  estimate_key_with note_events true.

End WithCorrcoef.
End KeyDetector.
(** ** Pitch smoothing ([PitchSmoother]) *)

(** [list.sort(key=...)] / [sorted(..., key=...)]: a stable sort that
    orders by [<] on the keys.  Insertion from the right keeps elements
    with equal keys in their original order. *)
Section StableSort.
Context {A : Type} (key : A -> Q).

Fixpoint insert_by (x : A) (l : list A) : list A :=
  match l with
  | [] => [x]
  | y :: l' =>
      if Qleb (key x) (key y) then x :: y :: l'
      else y :: insert_by x l'
  end.

Definition sort_by (l : list A) : list A := fold_right insert_by [] l.
End StableSort.

(** [scipy.signal.medfilt(volume, kernel_size)] on a one-dimensional
    input, as SciPy documents it: the input is zero-padded by
    [kernel_size // 2] on both sides, and output element [i] is the median
    (the middle element of the sorted window) of the [kernel_size] padded
    elements centred on [i].  This is [medfilt] for an odd [kernel_size],
    such as the engine's 3; SciPy refuses any other size with
    [ValueError] (see [medfilt_checked]). *)
Definition medfilt (volume : list Q) (kernel_size : nat) : list Q :=
  let half := (kernel_size / 2)%nat in
  let padded := repeat 0 half ++ volume ++ repeat 0 half in
  map (fun i =>
         nth half (sort_by (fun x => x) (firstn kernel_size (skipn i padded)))
             0)
      (seq 0 (length volume)).

(** [pc_events[pc].append(note)] on a [defaultdict(list)]: keys stay in
    the order of their first insertion. *)
Fixpoint group_append (pc : nat) (note : NoteEvent)
  (pc_events : list (nat * list NoteEvent)) : list (nat * list NoteEvent) :=
  match pc_events with
  | [] => [(pc, [note])]
  | (k, events) :: rest =>
      if Nat.eqb k pc then (k, events ++ [note]) :: rest
      else (k, events) :: group_append pc note rest
  end.

Definition group_by_pitch_class (note_events : list NoteEvent)
  : list (nat * list NoteEvent) :=
  fold_left (fun pc_events note =>
               group_append (Note.pitch_class note) note pc_events)
            note_events [].

(** [NoteEvent(onset=event.onset, offset=event.offset, pitch=event.pitch,
    confidence=float(c))] *)
Definition with_confidence (event : NoteEvent) (c : Q) : NoteEvent :=
  Note.mk (Note.onset event) (Note.offset event) (Note.pitch event) c.

(** [for i, event in enumerate(events): smoothed_events.append(NoteEvent(
    ..., confidence=float(smoothed_confidences[i])))] *)
Definition update_confidences (events : list NoteEvent)
  (smoothed_confidences : list Q) : list NoteEvent :=
  map (fun '(i, event) =>
         with_confidence event (nth i smoothed_confidences 0))
      (combine (seq 0 (length events)) events).

Module PitchSmoother.

(** The body of [for pc, events in pc_events.items()]: the notes the
    iteration appends to [smoothed_events]. *)
Definition smooth_group (filter_size : nat) (events : list NoteEvent)
  : list NoteEvent :=
  if (length events <=? 1)%nat then events
  else
    let events := sort_by Note.onset events in
    let confidences := map Note.confidence events in
    if (filter_size <=? length confidences)%nat then
      let smoothed_confidences := medfilt confidences filter_size in
      update_confidences events smoothed_confidences
    else events.

Definition smooth_pitch_activity_with (filter_size : nat)
  (note_events : list NoteEvent) : list NoteEvent :=
  match note_events with
  | [] => []
  | _ =>
      let pc_events := group_by_pitch_class note_events in
      flat_map (fun '(pc, events) => smooth_group filter_size events)
               pc_events
  end.

(** The smoother as the engine constructs it: [PitchSmoother()] with
    [filter_size = MEDIAN_FILTER_SIZE]. *)
Definition smooth_pitch_activity (note_events : list NoteEvent)
  : list NoteEvent :=
  smooth_pitch_activity_with MEDIAN_FILTER_SIZE note_events.

End PitchSmoother.

(** *** The centred median filter the specification describes

    Follows the specification's words: a centred median filter whose
    window is completed at the boundaries by replicating the edge
    element. *)
Definition medfilt_edge_replicated (volume : list Q) (kernel_size : nat)
  : list Q :=
  let half := (kernel_size / 2)%nat in
  let first := hd 0 volume in
  let final := List.last volume 0 in
  let padded := repeat first half ++ volume ++ repeat final half in
  map (fun i =>
         nth half (sort_by (fun x => x) (firstn kernel_size (skipn i padded)))
             0)
      (seq 0 (length volume)).
(** ** Chord window smoothing ([ChordWindowSmoother]) *)

(** [min(...)] and [max(...)] over a non-empty sequence: the first
    smallest (largest) element.  On an empty sequence Python raises; no
    call of the source reaches that case and the model returns [0]. *)
Definition list_min (l : list Q) : Q :=
  match l with
  | [] => 0
  | x :: l' => fold_left (fun m y => if Qltb y m then y else m) l' x
  end.

Definition list_max (l : list Q) : Q :=
  match l with
  | [] => 0
  | x :: l' => fold_left (fun m y => if Qltb m y then y else m) l' x
  end.

(** [Counter(...)]: counts in insertion order. *)
Fixpoint counter_add (s : string) (counts : list (string * nat))
  : list (string * nat) :=
  match counts with
  | [] => [(s, 1%nat)]
  | (k, n) :: rest =>
      if String.eqb k s then (k, S n) :: rest
      else (k, n) :: counter_add s rest
  end.

Definition Counter (l : list string) : list (string * nat) :=
  fold_left (fun counts s => counter_add s counts) l [].

(** [counts.most_common(1)[0][0]]: the first key with the largest count
    ([None] when the counter is empty). *)
Definition most_common (counts : list (string * nat)) : option string :=
  match counts with
  | [] => None
  | kv :: rest =>
      Some (fst (fold_left
                   (fun best kv' =>
                      if (snd best <? snd kv')%nat then kv' else best)
                   rest kv))
  end.

(** [l[a:b]] for [0 <= a]. *)
Definition slice {A : Type} (l : list A) (a b : nat) : list A :=
  firstn (b - a) (skipn a l).

Module ChordWindowSmoother.

Definition timeline_resolution : Q := 1 # 2.

(** [while current_time <= end_time: timeline_points.append(current_time);
    current_time += timeline_resolution].  Each appended point uses one
    unit of [fuel]. *)
Fixpoint timeline_loop (fuel : nat) (current_time end_time : Q) : list Q :=
  match fuel with
  | O => []
  | S fuel' =>
      if Qleb current_time end_time
      then current_time
           :: timeline_loop fuel' (current_time + timeline_resolution)
                            end_time
      else []
  end.

(** More iterations than the loop can make between [start_time] and
    [end_time]. *)
Definition timeline_fuel (start_time end_time : Q) : nat :=
  S (S (Z.to_nat (Qfloor ((end_time - start_time) / timeline_resolution)))).

Definition timeline (start_time end_time : Q) : list Q :=
  timeline_loop (timeline_fuel start_time end_time) start_time end_time.

(** The inner [for chord in chord_events: if chord.onset <= time_point <
    chord.offset: ...; break], then [active_chord or "N"]. *)
Definition active_symbol (chord_events : list ChordEvent) (time_point : Q)
  : string :=
  match
    find (fun chord =>
            Qleb (Chord.onset chord) time_point
            && Qltb time_point (Chord.offset chord)) chord_events
  with
  | Some chord =>
      if String.eqb (Chord.chord_symbol chord) "" then "N"
      else Chord.chord_symbol chord
  | None => "N"
  end.

(** [max(3, int(1.0 / timeline_resolution))] *)
Definition filter_window : nat :=
  Nat.max 3 (Z.to_nat (Qfloor (1 / timeline_resolution))).

Definition smoothed_symbol (chord_symbols : list string) (i : nat)
  : string :=
  let window_start := Nat.max 0 (i - filter_window / 2) in
  let window_end :=
    Nat.min (length chord_symbols) (window_start + filter_window) in
  let window_symbols := slice chord_symbols window_start window_end in
  let symbol_counts :=
    Counter (List.filter (fun s => negb (String.eqb s "N"))
                         window_symbols) in
  match most_common symbol_counts with
  | Some s => s
  | None => "N"
  end.

(** The chord appended when a run of [current_symbol] ends: nothing for
    ["N"] or when no input chord carries the symbol. *)
Definition end_chord (chord_events : list ChordEvent)
  (current_symbol : string) (onset offset : Q)
  (smoothed_chords : list ChordEvent) : list ChordEvent :=
  if negb (String.eqb current_symbol "N") then
    match
      find (fun c => String.eqb (Chord.chord_symbol c) current_symbol)
           chord_events
    with
    | Some original_chord =>
        smoothed_chords ++
        [Chord.mk onset offset current_symbol
                  (Chord.confidence original_chord)
                  (Chord.pitch_classes original_chord)
                  (Chord.root_pc original_chord)
                  (Chord.chord_type original_chord)]
    | None => smoothed_chords
    end
  else smoothed_chords.

(** The loop state [(current_symbol, current_start_time,
    smoothed_chords)]. *)
Definition segment_state : Type := string * Q * list ChordEvent.

(** One iteration of [for i in range(1, len(smoothed_symbols))]. *)
Definition segment_step (chord_events : list ChordEvent)
  (smoothed_symbols : list string) (timeline_points : list Q)
  (st : segment_state) (i : nat) : segment_state :=
  let '(current_symbol, current_start_time, smoothed_chords) := st in
  if negb (String.eqb (nth i smoothed_symbols "") current_symbol)
     || Nat.eqb i (length smoothed_symbols - 1)
  then
    (nth i smoothed_symbols "", nth i timeline_points 0,
     end_chord chord_events current_symbol current_start_time
               (nth (i - 1) timeline_points 0 + timeline_resolution)
               smoothed_chords)
  else st.

Definition resegment (chord_events : list ChordEvent)
  (smoothed_symbols : list string) (timeline_points : list Q)
  (end_time : Q) : list ChordEvent :=
  match smoothed_symbols with
  | [] => []
  | first_symbol :: _ =>
      let '(current_symbol, current_start_time, smoothed_chords) :=
        fold_left
          (segment_step chord_events smoothed_symbols timeline_points)
          (seq 1 (length smoothed_symbols - 1))
          (first_symbol, nth 0 timeline_points 0, []) in
      end_chord chord_events current_symbol current_start_time end_time
                smoothed_chords
  end.

(** The second guard of the source, [if not chord_events: return []],
    cannot be reached after [len(chord_events) <= 2] returned. *)
Definition smooth_chord_progression (chord_events : list ChordEvent)
  : list ChordEvent :=
  if (length chord_events <=? 2)%nat then chord_events
  else
    let start_time := list_min (map Chord.onset chord_events) in
    let end_time := list_max (map Chord.offset chord_events) in
    let duration := end_time - start_time in
    if Qleb duration 0 then chord_events
    else
      let timeline_points := timeline start_time end_time in
      let chord_symbols :=
        map (active_symbol chord_events) timeline_points in
      if (filter_window <=? length chord_symbols)%nat then
        let smoothed_symbols :=
          map (smoothed_symbol chord_symbols)
              (seq 0 (length chord_symbols)) in
        resegment chord_events smoothed_symbols timeline_points end_time
      else chord_events.

End ChordWindowSmoother.
(** ** The chord inference engine ([ChordInferenceEngine]) *)

(** [any(symbol in s for symbol in ['?', '!'])]: substring tests. *)
Definition contains (needle s : string) : bool :=
  match String.index 0 needle s with
  | Some _ => true
  | None => false
  end.

(** [min(pitch_classes)] on a non-empty list of pitch classes (Python
    raises on an empty one; the model returns [0]). *)
Definition min_pc (pitch_classes : list nat) : nat :=
  match pitch_classes with
  | [] => 0%nat
  | pc :: rest => fold_left Nat.min rest pc
  end.

(** [pc_weights[pc] += weight] on a [defaultdict(float)]: keys stay in the
    order of their first insertion. *)
Fixpoint weight_add (pc : nat) (weight : Q) (pc_weights : list (nat * Q))
  : list (nat * Q) :=
  match pc_weights with
  | [] => [(pc, 0 + weight)]
  | (k, w) :: rest =>
      if Nat.eqb k pc then (k, w + weight) :: rest
      else (k, w) :: weight_add pc weight rest
  end.

(** [pc_weights.get(pc, 0.0)] *)
Fixpoint weight_get (pc : nat) (pc_weights : list (nat * Q)) : Q :=
  match pc_weights with
  | [] => 0
  | (k, w) :: rest => if Nat.eqb k pc then w else weight_get pc rest
  end.

(** The scale of the estimated key: [{(key_pc + interval) % 12 for
    interval in scale_intervals}]. *)
Definition scale_pcs (key_estimate : KeyEstimate) : gset nat :=
  let scale_intervals :=
    if String.eqb (Key.mode key_estimate) "major"
    then [0; 2; 4; 5; 7; 9; 11]%nat
    else [0; 2; 3; 5; 7; 8; 10]%nat in
  list_to_set
    (map (fun interval => ((Key.key_pc key_estimate + interval) mod 12)%nat)
         scale_intervals).

Definition _filter_short_notes (events : list NoteEvent) : list NoteEvent :=
  List.filter (fun event => Qleb MIN_NOTE_DURATION (Note.duration event))
              events.

Definition _apply_key_filtering (events : list NoteEvent)
  (key_estimate : KeyEstimate) : list NoteEvent :=
  if Qltb (Key.confidence key_estimate) (1 # 2) then events
  else
    let scale := scale_pcs key_estimate in
    List.filter
      (fun event =>
         if bool_decide (Note.pitch_class event ∈ scale) then true
         else Qleb KEY_FILTER_CONFIDENCE_THRESHOLD (Note.confidence event))
      events.

Definition _is_in_key (pitch_class : nat) (key_estimate : KeyEstimate)
  : bool :=
  if Qltb (Key.confidence key_estimate) (1 # 2) then true
  else bool_decide (pitch_class ∈ scale_pcs key_estimate).

(** *** Chord identification ([_identify_chord]) *)

(** [(required_intervals, chord_type, suffix, base_score)] *)
Definition chord_test : Type := gset nat * string * string * Q.

Definition chord_tests : list chord_test :=
  [ ({[0; 4; 7]}, "major", "", 10%Q);
    ({[0; 3; 7]}, "minor", "m", 10%Q);
    ({[0; 4; 7; 10]}, "7", "7", 12%Q);
    ({[0; 3; 7; 10]}, "m7", "m7", 12%Q);
    ({[0; 4; 7; 11]}, "maj7", "maj7", 12%Q);
    ({[0; 3; 7; 10; 2; 5]}, "m11", "m11", 14%Q);
    ({[0; 4; 7; 2]}, "add9", "add9", 11%Q);
    ({[0; 4; 7; 9]}, "6", "6", 11%Q);
    ({[0; 3; 6]}, "dim", "dim", 9%Q);
    ({[0; 4; 8]}, "aug", "aug", 9%Q);
    ({[0; 2; 7]}, "sus2", "sus2", 8%Q);
    ({[0; 5; 7]}, "sus4", "sus4", 8%Q);
    ({[0; 4]}, "major", "", 6%Q);
    ({[0; 3]}, "minor", "m", 6%Q);
    ({[0; 7]}, "major", "", 4%Q) ]%nat.

(** [set((pc - root) % 12 for pc in pitch_classes)] *)
Definition intervals_from (root : nat) (pitch_classes : list nat)
  : gset nat :=
  list_to_set
    (map (fun pc => Z.to_nat ((Z.of_nat pc - Z.of_nat root) mod 12))
         pitch_classes).

Definition root_strength_bonus (root : nat) (pitch_classes : list nat)
  (pc_weights : option (list (nat * Q))) : Q :=
  match pc_weights with
  | None | Some [] => 1
  | Some weights =>
      let root_weight := weight_get root weights in
      let max_weight := list_max (map snd weights) in
      let bonus :=
        if Qltb 0 root_weight
        then 1 + (root_weight / max_weight) * (8 # 10) else 1 in
      if Nat.eqb root (min_pc pitch_classes) then bonus * (13 # 10)
      else bonus
  end.

(** The score of a shape whose required intervals are present. *)
Definition chord_score (root : nat) (intervals_set : gset nat)
  (bonus : Q) (key_estimate : KeyEstimate) (test : chord_test) : Q :=
  let '(required_intervals, chord_type, suffix, base_score) := test in
  let match_ratio :=
    inject_Z (Z.of_nat (size required_intervals))
    / inject_Z (Z.of_nat (size intervals_set)) in
  let score := base_score * match_ratio in
  let score :=
    if bool_decide (intervals_set = required_intervals)
    then score * (15 # 10) else score in
  let score := score * bonus in
  let score :=
    if _is_in_key root key_estimate then score * (12 # 10) else score in
  if Nat.eqb root (Key.key_pc key_estimate)
     && ((String.eqb (Key.mode key_estimate) "major"
          && String.eqb chord_type "major")
         || (String.eqb (Key.mode key_estimate) "minor"
             && String.eqb chord_type "minor"))
  then score * (14 # 10) else score.

(** The loop state [(best_score, best_match)], with [best_match] the
    tuple [(symbol, chord_type, root)]. *)
Definition match_state : Type := Q * option (string * string * nat).

(** One iteration of [for required_intervals, chord_type, suffix,
    base_score in chord_tests]. *)
Definition test_step (root : nat) (intervals_set : gset nat) (bonus : Q)
  (key_estimate : KeyEstimate) (st : match_state) (test : chord_test)
  : match_state :=
  let '(required_intervals, chord_type, suffix, base_score) := test in
  if bool_decide (required_intervals ⊆ intervals_set) then
    let score := chord_score root intervals_set bonus key_estimate test in
    if Qltb (fst st) score
    then (score,
          Some (String.append (nth root key_names "") suffix,
                chord_type, root))
    else st
  else st.

(** One iteration of [for root in pitch_classes]. *)
Definition root_step (pitch_classes : list nat) (key_estimate : KeyEstimate)
  (pc_weights : option (list (nat * Q))) (st : match_state) (root : nat)
  : match_state :=
  let intervals_set := intervals_from root pitch_classes in
  let bonus := root_strength_bonus root pitch_classes pc_weights in
  fold_left (test_step root intervals_set bonus key_estimate)
            chord_tests st.

Definition _identify_chord (pitch_classes : list nat)
  (key_estimate : KeyEstimate) (pc_weights : option (list (nat * Q)))
  : string * string :=
  match pitch_classes with
  | [] => ("N", "unknown")
  | _ =>
      let '(best_score, best_match) :=
        fold_left (root_step pitch_classes key_estimate pc_weights)
                  pitch_classes (0, None) in
      match best_match with
      | Some (symbol, chord_type, root) => (symbol, chord_type)
      | None =>
          let root := min_pc pitch_classes in
          (String.append (nth root key_names "") "?", "unknown")
      end
  end.

(** *** Window analysis ([_analyze_window]) *)

Definition window_weights (notes : list NoteEvent) (start_time end_time : Q)
  : list (nat * Q) :=
  fold_left
    (fun pc_weights note =>
       let overlap_start := Qmax (Note.onset note) start_time in
       let overlap_end := Qmin (Note.offset note) end_time in
       let overlap_duration := Qmax 0 (overlap_end - overlap_start) in
       let weight := Note.confidence note * overlap_duration in
       weight_add (Note.pitch_class note) weight pc_weights)
    notes [].

(** [sorted(pc_weights.items(), key=lambda x: x[1], reverse=True)],
    filtered by the 20% threshold and cut to six entries. *)
Definition significant_pitch_classes (pc_weights : list (nat * Q))
  : list nat :=
  let sorted_pcs := sort_by (fun x => - snd x) pc_weights in
  let max_weight := snd (hd (0%nat, 0) sorted_pcs) in
  let threshold := max_weight * (2 # 10) in
  firstn 6
    (map fst (List.filter (fun x => Qleb threshold (snd x)) sorted_pcs)).

Definition _analyze_window (notes : list NoteEvent) (start_time end_time : Q)
  (key_estimate : KeyEstimate) : option ChordEvent :=
  match notes with
  | [] => None
  | _ =>
      let pc_weights := window_weights notes start_time end_time in
      match pc_weights with
      | [] => None
      | _ =>
          let significant_pcs := significant_pitch_classes pc_weights in
          if (length significant_pcs <? MIN_NOTES_PER_CHORD)%nat then None
          else
            let '(chord_symbol, chord_type) :=
              _identify_chord significant_pcs key_estimate
                              (Some pc_weights) in
            let total_weight := Qsum (map snd pc_weights) in
            let avg_confidence :=
              total_weight / inject_Z (Z.of_nat (length notes)) in
            Some (Chord.mk start_time end_time chord_symbol
                           (Qmin avg_confidence 1)
                           (list_to_set significant_pcs)
                           (min_pc significant_pcs)
                           chord_type)
      end
  end.

(** *** Windowed detection ([_detect_chords_in_windows]) *)

Definition window_hop : Q := WINDOW_SIZE - WINDOW_OVERLAP.

(** [while current_time < end_time: ...; current_time += WINDOW_SIZE -
    WINDOW_OVERLAP].  Each window uses one unit of [fuel].  This is the
    loop on exact rationals, where it always ends; on floats the hop is
    absorbed at large times ([1e17 + 1.8 == 1e17]) and the loop then does
    not end. *)
Fixpoint windows_loop (fuel : nat) (sorted_events : list NoteEvent)
  (key_estimate : KeyEstimate) (current_time end_time : Q)
  : list ChordEvent :=
  match fuel with
  | O => []
  | S fuel' =>
      if Qltb current_time end_time then
        let window_end := current_time + WINDOW_SIZE in
        let window_notes :=
          List.filter
            (fun event =>
               Qltb (Note.onset event) window_end
               && Qltb current_time (Note.offset event))
            sorted_events in
        let found :=
          if (MIN_NOTES_PER_CHORD <=? length window_notes)%nat then
            match
              _analyze_window window_notes current_time window_end
                              key_estimate
            with
            | Some chord => [chord]
            | None => []
            end
          else [] in
        found ++ windows_loop fuel' sorted_events key_estimate
                              (current_time + window_hop) end_time
      else []
  end.

(** More iterations than the loop can make between [start_time] and
    [end_time]. *)
Definition windows_fuel (start_time end_time : Q) : nat :=
  S (S (Z.to_nat (Qfloor ((end_time - start_time) / window_hop)))).

Definition _detect_chords_in_windows (events : list NoteEvent)
  (key_estimate : KeyEstimate) : list ChordEvent :=
  match events with
  | [] => []
  | _ =>
      let sorted_events := sort_by Note.onset events in
      let start_time := Note.onset (hd (Note.mk 0 0 0 0) sorted_events) in
      let end_time := list_max (map Note.offset sorted_events) in
      windows_loop (windows_fuel start_time end_time) sorted_events
                   key_estimate start_time end_time
  end.

(** *** Harmony filtering ([_apply_harmony_filtering]) *)

Definition _is_chord_root_in_key (chord : ChordEvent)
  (key_estimate : KeyEstimate) : bool :=
  if Qltb (Key.confidence key_estimate) (6 # 10) then true
  else _is_in_key (Chord.root_pc chord) key_estimate.

Definition _chord_repeats (target_chord : ChordEvent)
  (all_chords : list ChordEvent) : bool :=
  let count :=
    length (List.filter
              (fun c => String.eqb (Chord.chord_symbol c)
                                   (Chord.chord_symbol target_chord))
              all_chords) in
  (2 <=? count)%nat.

(** Whether the loop body appends [chord] to [filtered]. *)
Definition harmony_keep (chords : list ChordEvent)
  (key_estimate : KeyEstimate) (chord : ChordEvent) : bool :=
  if existsb (fun symbol => contains symbol (Chord.chord_symbol chord))
             ["?"; "!"]
     && Qltb (Chord.confidence chord) (6 # 10)
     && Qltb (chord_duration chord) 1
  then false
  else
    let is_root_in_key := _is_chord_root_in_key chord key_estimate in
    if existsb (String.eqb (Chord.chord_type chord)) FUNCTIONAL_CHORDS
       && is_root_in_key
    then true
    else if negb is_root_in_key then
      if Qleb (7 # 10) (Chord.confidence chord)
         && Qleb 1 (chord_duration chord)
      then true
      else if String.eqb (Chord.chord_type chord) "m11"
              && Qleb (6 # 10) (Chord.confidence chord)
      then true
      else false
    else
      Qleb (3 # 10) (Chord.confidence chord)
      || Qleb (6 # 10) (chord_duration chord)
      || _chord_repeats chord chords.

Definition _apply_harmony_filtering (chords : list ChordEvent)
  (key_estimate : KeyEstimate) : list ChordEvent :=
  List.filter (harmony_keep chords key_estimate) chords.

(** ** Chord merger ([ChordInferenceEngine._merge_similar_chords]) *)

Definition should_merge (current next_chord : ChordEvent) : bool :=
  let time_gap := Chord.onset next_chord - Chord.offset current in
  let same_chord :=
    String.eqb (Chord.chord_symbol current) (Chord.chord_symbol next_chord) in
  let similar_chord :=
    Nat.eqb (Chord.root_pc current) (Chord.root_pc next_chord)
    && String.eqb (Chord.chord_type current) (Chord.chord_type next_chord) in
  let close_in_time := Qleb time_gap MERGE_THRESHOLD in
  let overlapping := Qltb (Chord.onset next_chord) (Chord.offset current) in
  (same_chord && (close_in_time || overlapping))
  || (similar_chord && overlapping).

Definition merge_pair (current next_chord : ChordEvent) : ChordEvent :=
  Chord.mk (Chord.onset current)
           (Qmax (Chord.offset current) (Chord.offset next_chord))
           (Chord.chord_symbol current)
           ((Chord.confidence current + Chord.confidence next_chord) / 2)
           (Chord.pitch_classes current ∪ Chord.pitch_classes next_chord)
           (Chord.root_pc current)
           (Chord.chord_type current).

(** The body of the [for next_chord in chords[1:]] loop together with the
    final [merged.append(current)]: [merge_loop current rest] is the list
    of chords appended to [merged] from this point on. *)
Fixpoint merge_loop (current : ChordEvent) (rest : list ChordEvent)
  : list ChordEvent :=
  match rest with
  | [] => [current]
  | next_chord :: rest' =>
      if should_merge current next_chord
      then merge_loop (merge_pair current next_chord) rest'
      else current :: merge_loop next_chord rest'
  end.

Definition _merge_similar_chords (chords : list ChordEvent)
  : list ChordEvent :=
  match chords with
  | [] => chords
  | current :: rest => merge_loop current rest
  end.

(** ** Stability filter ([ChordInferenceEngine._ensure_stability]) *)

Definition _ensure_stability (chords : list ChordEvent) : list ChordEvent :=
  List.filter (fun chord => Qleb MIN_CHORD_DURATION (chord_duration chord))
              chords.

(** *** The pipeline ([infer_chords]) *)

Section Engine.
(** [np.corrcoef(x, y)[0, 1]]; [None] is NaN. *)
Variable corrcoef : list Q -> list Q -> option Q.

(** The per-run statistics the source stores in [self.stats] are
    diagnostics only and are left out. *)
Definition infer_chords (note_events : list NoteEvent)
  : list ChordEvent * KeyEstimate :=
  let smoothed_events :=
    PitchSmoother.smooth_pitch_activity note_events in
  let filtered_events := _filter_short_notes smoothed_events in
  let key_estimate := KeyDetector.estimate_key corrcoef filtered_events in
  let key_filtered_events :=
    _apply_key_filtering filtered_events key_estimate in
  let raw_chords :=
    _detect_chords_in_windows key_filtered_events key_estimate in
  let harmony_filtered_chords :=
    _apply_harmony_filtering raw_chords key_estimate in
  let smoothed_chords :=
    ChordWindowSmoother.smooth_chord_progression harmony_filtered_chords in
  let merged_chords := _merge_similar_chords smoothed_chords in
  let stable_chords := _ensure_stability merged_chords in
  (stable_chords, key_estimate).
End Engine.

(** ** The main interface ([process_note_events]) *)

(** The Python values a field of a note record can hold, as far as
    [float()] and [int()] tell them apart: [None], an [int] (of any size),
    a finite [float], a [str], or an object that is not a number ([list],
    [dict], ...).  Non-finite floats are outside the rational model. *)
Inductive PyValue : Type :=
| PyNone
| PyInt (z : Z)
| PyFloat (x : Q)
| PyStr (s : string)
| PyObject.

Inductive PyException : Type :=
| KeyError | ValueError | TypeError | OverflowError.

(** A computation that returns a value or raises an exception. *)
Inductive result (A : Type) : Type :=
| Returns (a : A)
| Raises (e : PyException).
Arguments Returns {A} a.
Arguments Raises {A} e.

Definition bind {A B : Type} (r : result A) (k : A -> result B) : result B :=
  match r with
  | Returns a => k a
  | Raises e => Raises e
  end.

Notation "x <- r ;; k" := (bind r (fun x => k))
  (at level 100, r at next level, right associativity).

(** The least magnitude of an [int] that [float()] refuses with
    [OverflowError]: it rounds to [2^1024]. *)
Definition FLOAT_OVERFLOW : Z := (2 ^ 1024 - 2 ^ 970)%Z.

(** [int(x)] of a float truncates towards zero. *)
Definition Qtruncate (x : Q) : Z :=
  if Qltb x 0 then Qceiling x else Qfloor x.

(** A chord and the key as the dictionaries [process_note_events] returns;
    the order of the [pitch_classes] list, [list(set)], is not modelled. *)
Module ChordDict.
Record t := mk
  { onset : Q; offset : Q; chord : string; confidence : Q;
    pitch_classes : gset nat }.
End ChordDict.

Module KeyInfo.
Record t := mk { key : string; mode : string; confidence : Q }.
End KeyInfo.

Section Interface.
Variable corrcoef : list Q -> list Q -> option Q.
(** [float(s)] and [int(s)] of a string [s]; [None] is a [ValueError]. *)
Variable str_to_float : string -> option Q.
Variable str_to_int : string -> option Z.

(** [float(v)] *)
Definition py_float (v : PyValue) : result Q :=
  match v with
  | PyNone => Raises TypeError
  | PyInt z =>
      if (FLOAT_OVERFLOW <=? Z.abs z)%Z then Raises OverflowError
      else Returns (inject_Z z)
  | PyFloat x => Returns x
  | PyStr s =>
      match str_to_float s with
      | Some x => Returns x
      | None => Raises ValueError
      end
  | PyObject => Raises TypeError
  end.

(** [int(v)] *)
Definition py_int (v : PyValue) : result Z :=
  match v with
  | PyNone => Raises TypeError
  | PyInt z => Returns z
  | PyFloat x => Returns (Qtruncate x)
  | PyStr s =>
      match str_to_int s with
      | Some z => Returns z
      | None => Raises ValueError
      end
  | PyObject => Raises TypeError
  end.

(** [note_dict[field]] *)
Definition getitem (note_dict : gmap string PyValue) (field : string)
  : result PyValue :=
  match note_dict !! field with
  | Some v => Returns v
  | None => Raises KeyError
  end.

(** The [NoteEvent(...)] constructor call of the loop body; its
    arguments are evaluated from left to right. *)
Definition to_note (note_dict : gmap string PyValue) : result NoteEvent :=
  onset <- (v <- getitem note_dict "onset" ;; py_float v) ;;
  offset <- (v <- getitem note_dict "offset" ;; py_float v) ;;
  pitch <- (v <- getitem note_dict "pitch" ;; py_int v) ;;
  confidence <- (v <- getitem note_dict "confidence" ;; py_float v) ;;
  Returns (Note.mk onset offset pitch confidence).

(** [except (KeyError, ValueError, TypeError)] *)
Definition caught (e : PyException) : bool :=
  match e with
  | KeyError | ValueError | TypeError => true
  | OverflowError => false
  end.

(** The conversion loop: a caught exception skips the record, any other
    leaves the function. *)
Fixpoint convert_notes (raw_notes : list (gmap string PyValue))
  : result (list NoteEvent) :=
  match raw_notes with
  | [] => Returns []
  | note_dict :: rest =>
      match to_note note_dict with
      | Returns note =>
          note_events <- convert_notes rest ;;
          Returns (note :: note_events)
      | Raises e =>
          if caught e then convert_notes rest else Raises e
      end
  end.

Definition chord_to_dict (chord : ChordEvent) : ChordDict.t :=
  ChordDict.mk (Chord.onset chord) (Chord.offset chord)
               (Chord.chord_symbol chord) (Chord.confidence chord)
               (Chord.pitch_classes chord).

Definition default_key_info : KeyInfo.t := KeyInfo.mk "C" "major" 0.

Definition process_note_events (raw_notes : list (gmap string PyValue))
  : result (list ChordDict.t * KeyInfo.t) :=
  note_events <- convert_notes raw_notes ;;
  match note_events with
  | [] => Returns ([], default_key_info)
  | _ =>
      let '(chord_events, key_estimate) :=
        infer_chords corrcoef note_events in
      let chord_dicts := map chord_to_dict chord_events in
      let key_info :=
        KeyInfo.mk (nth (Key.key_pc key_estimate) key_names "")
                   (Key.mode key_estimate)
                   (Key.confidence key_estimate) in
      Returns (chord_dicts, key_info)
  end.
End Interface.


(** ** The server ([main.py]): from Basic Pitch notes to the response *)

(** A note of Basic Pitch is a tuple [(start, end, pitch, amplitude,
    pitch_bends)]; its elements are modelled as Python values, the tuple
    as their list. *)
Definition ModelNote : Type := list PyValue.

(** The dictionary [analyze_audio] builds for a validated note of the
    response: [{'onset': note.onset, 'offset': note.offset,
    'pitch': note.pitch, 'confidence': note.confidence}], with floats and
    an int. *)
Definition note_to_dict (note : NoteEvent) : gmap string PyValue :=
  <["onset" := PyFloat (Note.onset note)]>
    (<["offset" := PyFloat (Note.offset note)]>
       (<["pitch" := PyInt (Note.pitch note)]>
          (<["confidence" := PyFloat (Note.confidence note)]> ∅))).

(** [except (IndexError, ValueError, TypeError)] of the note loop; no
    [IndexError] can arise after the length test. *)
Definition server_caught (e : PyException) : bool :=
  match e with
  | ValueError | TypeError => true
  | KeyError | OverflowError => false
  end.

Section Server.
Variable corrcoef : list Q -> list Q -> option Q.
Variable str_to_float : string -> option Q.
Variable str_to_int : string -> option Z.

(** The body of [for i, note in enumerate(note_events)]: [None] is a
    note left out by [continue] (too few fields, or an onset in the
    padded region); an offset beyond the original audio is clipped.  The
    constructor of the response model keeps the floats and the int it is
    given. *)
Definition convert_model_note (original_duration : Q) (note : ModelNote)
  : result (option NoteEvent) :=
  if (length note <? 4)%nat then Returns None
  else
    onset_time <- py_float str_to_float (nth 0 note PyNone) ;;
    offset_time <- py_float str_to_float (nth 1 note PyNone) ;;
    if Qleb original_duration onset_time then Returns None
    else
      let offset_time :=
        if Qltb original_duration offset_time then original_duration
        else offset_time in
      pitch <- py_int str_to_int (nth 2 note PyNone) ;;
      confidence <- py_float str_to_float (nth 3 note PyNone) ;;
      Returns (Some (Note.mk onset_time offset_time pitch confidence)).

(** The note loop: a caught exception skips the note, any other leaves
    the loop (and becomes the HTTP error 500 of the outer handler). *)
Fixpoint json_notes_loop (original_duration : Q)
  (note_events : list ModelNote) : result (list NoteEvent) :=
  match note_events with
  | [] => Returns []
  | note :: rest =>
      match convert_model_note original_duration note with
      | Returns (Some json_note) =>
          json_notes <- json_notes_loop original_duration rest ;;
          Returns (json_note :: json_notes)
      | Returns None => json_notes_loop original_duration rest
      | Raises e =>
          if server_caught e then json_notes_loop original_duration rest
          else Raises e
      end
  end.

(** The chord inference step: [process_note_events(note_dicts)] inside
    [try: ... except Exception:], whose handler answers with no chord and
    the key C major of confidence 0. *)
Definition chord_inference (json_notes : list NoteEvent)
  : list ChordDict.t * KeyInfo.t :=
  match
    process_note_events corrcoef str_to_float str_to_int
                        (map note_to_dict json_notes)
  with
  | Returns (chord_events, key_info) => (chord_events, key_info)
  | Raises _ => ([], default_key_info)
  end.
End Server.

(** ** The pitch smoother for every filter size

    [scipy.signal.medfilt] refuses a kernel size that is not odd ([if
    (kernel_size[k] % 2) != 1: raise ValueError("Each element of
    kernel_size should be odd.")]), zero included.  The engine builds its
    smoother with [MEDIAN_FILTER_SIZE = 3], for which [medfilt] above is
    the whole story; a [PitchSmoother(filter_size)] of another size can
    raise.  The definitions below follow [smooth_pitch_activity] with
    that error path. *)

Definition medfilt_checked (volume : list Q) (kernel_size : nat)
  : result (list Q) :=
  if Nat.odd kernel_size then Returns (medfilt volume kernel_size)
  else Raises ValueError.

Module PitchSmootherChecked.

(** The body of [for pc, events in pc_events.items()]. *)
Definition smooth_group (filter_size : nat) (events : list NoteEvent)
  : result (list NoteEvent) :=
  if (length events <=? 1)%nat then Returns events
  else
    let events := sort_by Note.onset events in
    let confidences := map Note.confidence events in
    if (filter_size <=? length confidences)%nat then
      smoothed_confidences <- medfilt_checked confidences filter_size ;;
      Returns (update_confidences events smoothed_confidences)
    else Returns events.

(** The loop over the groups: the first exception leaves it. *)
Fixpoint smooth_groups (filter_size : nat)
  (pc_events : list (nat * list NoteEvent)) : result (list NoteEvent) :=
  match pc_events with
  | [] => Returns []
  | (pc, events) :: rest =>
      smoothed <- smooth_group filter_size events ;;
      smoothed_events <- smooth_groups filter_size rest ;;
      Returns (smoothed ++ smoothed_events)
  end.

Definition smooth_pitch_activity (filter_size : nat)
  (note_events : list NoteEvent) : result (list NoteEvent) :=
  match note_events with
  | [] => Returns []
  | _ => smooth_groups filter_size (group_by_pitch_class note_events)
  end.

End PitchSmootherChecked.

(** ** The window smoother on binary64 floats

    The grid of the window smoother is built by repeated floating-point
    addition, [current_time += timeline_resolution], and compared with
    the last offset.  On exact rationals a span below one second leaves
    room for at most two grid points; on the floats of Python (IEEE 754
    binary64, the primitive floats of the kernel) the rounded sums can
    reach the end of a span that is below one second.  This section
    repeats [smooth_chord_progression] with its times as binary64
    numbers.  The labels are handled as in [ChordWindowSmoother]:
    [filter_window] ([1.0 / 0.5] is exact) and [smoothed_symbol] are
    shared. *)

Module Chord64.
Record ChordEvent := mk
  { onset : PrimFloat.float; offset : PrimFloat.float;
    chord_symbol : string; confidence : PrimFloat.float;
    pitch_classes : gset nat; root_pc : nat; chord_type : string }.
End Chord64.

(** The rational number a finite float stands for ([0] for an infinity
    or a NaN). *)
Definition exact_value (x : PrimFloat.float) : Q :=
  match FloatOps.Prim2SF x with
  | SpecFloat.S754_finite s m e =>
      (if s then - (1) else 1) * inject_Z (Z.pos m) * Qpower 2 e
  | _ => 0
  end.

Module ChordWindowSmoother64.
Import PrimFloat.
#[local] Set Warnings "-inexact-float".
#[local] Open Scope float_scope.

Definition timeline_resolution : float := 0.5.

(** [min(...)] and [max(...)] of floats: a later element replaces the
    current one when it is strictly smaller (greater). *)
Definition float_min (l : list float) : float :=
  match l with
  | [] => 0
  | x :: l' => fold_left (fun m y => if y <? m then y else m) l' x
  end.

Definition float_max (l : list float) : float :=
  match l with
  | [] => 0
  | x :: l' => fold_left (fun m y => if m <? y then y else m) l' x
  end.

(** [while current_time <= end_time: timeline_points.append(current_time);
    current_time += timeline_resolution].  Each test of the loop uses one
    unit of [fuel]; [None] is a loop that has not ended when the fuel is
    spent (the float loop need not end: at large times
    [current_time + 0.5] is [current_time]). *)
Fixpoint timeline_loop (fuel : nat) (current_time end_time : float)
  : option (list float) :=
  match fuel with
  | O => None
  | S fuel' =>
      if current_time <=? end_time then
        match
          timeline_loop fuel' (current_time + timeline_resolution) end_time
        with
        | Some timeline_points => Some (current_time :: timeline_points)
        | None => None
        end
      else Some []
  end.

(** [if chord.onset <= time_point < chord.offset], then
    [active_chord or "N"]. *)
Definition active_symbol (chord_events : list Chord64.ChordEvent)
  (time_point : float) : string :=
  match
    find (fun chord =>
            (Chord64.onset chord <=? time_point)
            && (time_point <? Chord64.offset chord)) chord_events
  with
  | Some chord =>
      if String.eqb (Chord64.chord_symbol chord) "" then "N"
      else Chord64.chord_symbol chord
  | None => "N"
  end.

Definition end_chord (chord_events : list Chord64.ChordEvent)
  (current_symbol : string) (onset offset : float)
  (smoothed_chords : list Chord64.ChordEvent) : list Chord64.ChordEvent :=
  if negb (String.eqb current_symbol "N") then
    match
      find (fun c => String.eqb (Chord64.chord_symbol c) current_symbol)
           chord_events
    with
    | Some original_chord =>
        smoothed_chords ++
        [Chord64.mk onset offset current_symbol
                    (Chord64.confidence original_chord)
                    (Chord64.pitch_classes original_chord)
                    (Chord64.root_pc original_chord)
                    (Chord64.chord_type original_chord)]
    | None => smoothed_chords
    end
  else smoothed_chords.

Definition segment_state : Type :=
  string * float * list Chord64.ChordEvent.

(** One iteration of [for i in range(1, len(smoothed_symbols))]. *)
Definition segment_step (chord_events : list Chord64.ChordEvent)
  (smoothed_symbols : list string) (timeline_points : list float)
  (st : segment_state) (i : nat) : segment_state :=
  let '(current_symbol, current_start_time, smoothed_chords) := st in
  if negb (String.eqb (nth i smoothed_symbols "") current_symbol)
     || Nat.eqb i (length smoothed_symbols - 1)
  then
    (nth i smoothed_symbols "", nth i timeline_points 0,
     end_chord chord_events current_symbol current_start_time
               (nth (i - 1) timeline_points 0 + timeline_resolution)
               smoothed_chords)
  else st.

Definition resegment (chord_events : list Chord64.ChordEvent)
  (smoothed_symbols : list string) (timeline_points : list float)
  (end_time : float) : list Chord64.ChordEvent :=
  match smoothed_symbols with
  | [] => []
  | first_symbol :: _ =>
      let '(current_symbol, current_start_time, smoothed_chords) :=
        fold_left
          (segment_step chord_events smoothed_symbols timeline_points)
          (seq 1 (length smoothed_symbols - 1))
          (first_symbol, nth 0 timeline_points 0, []) in
      end_chord chord_events current_symbol current_start_time end_time
                smoothed_chords
  end.

Definition start_time (chord_events : list Chord64.ChordEvent) : float :=
  float_min (map Chord64.onset chord_events).

Definition end_time (chord_events : list Chord64.ChordEvent) : float :=
  float_max (map Chord64.offset chord_events).

(** [smooth_chord_progression]; [None] when the timeline loop has not
    ended within [fuel] tests. *)
Definition smooth_chord_progression (fuel : nat)
  (chord_events : list Chord64.ChordEvent)
  : option (list Chord64.ChordEvent) :=
  if (length chord_events <=? 2)%nat then Some chord_events
  else
    let duration := end_time chord_events - start_time chord_events in
    if duration <=? 0 then Some chord_events
    else
      match
        timeline_loop fuel (start_time chord_events) (end_time chord_events)
      with
      | None => None
      | Some timeline_points =>
          let chord_symbols :=
            map (active_symbol chord_events) timeline_points in
          if (ChordWindowSmoother.filter_window
              <=? length chord_symbols)%nat
          then
            let smoothed_symbols :=
              map (ChordWindowSmoother.smoothed_symbol chord_symbols)
                  (seq 0 (length chord_symbols)) in
            Some (resegment chord_events smoothed_symbols timeline_points
                            (end_time chord_events))
          else Some chord_events
      end.

(** [end_time - start_time], the span the guard [duration <= 0] reads. *)
Definition span (chord_events : list Chord64.ChordEvent) : float :=
  end_time chord_events - start_time chord_events.

(** The third point of the grid, [start_time + 0.5 + 0.5] as the loop
    computes it. *)
Definition third_grid_point (chord_events : list Chord64.ChordEvent)
  : float :=
  start_time chord_events + timeline_resolution + timeline_resolution.

(** Three chords from 0.4 s to 1.4 s: C, C, G. *)
Definition chords_04_14 : list Chord64.ChordEvent :=
  [Chord64.mk 0.4 0.7 "C" 0.9 {[0; 4; 7]}%nat 0 "major";
   Chord64.mk 0.7 1.0 "C" 0.9 {[0; 4; 7]}%nat 0 "major";
   Chord64.mk 1.0 1.4 "G" 0.8 {[2; 7; 11]}%nat 2 "major"].

(** Their grid: 0.4, 0.4 + 0.5, 0.4 + 0.5 + 0.5. *)
Definition grid_04_14 : list float := [0.4; 0.9; 1.4].

(** What the smoother makes of them. *)
Definition resegmented_04_14 : list Chord64.ChordEvent :=
  [Chord64.mk 0.4 1.4 "C" 0.9 {[0; 4; 7]}%nat 0 "major";
   Chord64.mk 1.4 1.4 "C" 0.9 {[0; 4; 7]}%nat 0 "major"].

(** Three chords from 0.4 s to 1.3 s. *)
Definition chords_04_13 : list Chord64.ChordEvent :=
  [Chord64.mk 0.4 0.7 "C" 0.9 {[0; 4; 7]}%nat 0 "major";
   Chord64.mk 0.7 1.0 "C" 0.9 {[0; 4; 7]}%nat 0 "major";
   Chord64.mk 1.0 1.3 "G" 0.8 {[2; 7; 11]}%nat 2 "major"].

End ChordWindowSmoother64.
(** * Specification predicates and example inputs *)

(** ** Merging and stability *)

(** No two neighbours of the list satisfy the merge criteria. *)
Fixpoint already_merged (chords : list ChordEvent) : Prop :=
  match chords with
  | current :: (next_chord :: _) as rest =>
      should_merge current next_chord = false /\ already_merged rest
  | _ => True
  end.

(** Every chord lasts at least [MIN_CHORD_DURATION]. *)
Definition already_stable (chords : list ChordEvent) : Prop :=
  Forall (fun chord => MIN_CHORD_DURATION <= chord_duration chord) chords.

Definition two_chords : list ChordEvent :=
  [Chord.mk 0 2 "C" (9 # 10) {[0; 4; 7]}%nat 0 "major";
   Chord.mk 2 4 "G" (8 # 10) {[2; 7; 11]}%nat 2 "major"].

(** ** Window smoothing *)

(** The span [end_time - start_time] the window smoother measures. *)
Definition chord_span (chord_events : list ChordEvent) : Q :=
  list_max (map Chord.offset chord_events)
  - list_min (map Chord.onset chord_events).

Definition three_short_chords : list ChordEvent :=
  [Chord.mk 0 (3 # 10) "C" (9 # 10) {[0; 4; 7]}%nat 0 "major";
   Chord.mk (3 # 10) (6 # 10) "G" (8 # 10) {[2; 7; 11]}%nat 2 "major";
   Chord.mk (6 # 10) (9 # 10) "C" (9 # 10) {[0; 4; 7]}%nat 0 "major"].

(** The smoothed label sequence the window smoother re-segments. *)
Definition smoothed_labels (chord_events : list ChordEvent) : list string :=
  let timeline_points :=
    ChordWindowSmoother.timeline
      (list_min (map Chord.onset chord_events))
      (list_max (map Chord.offset chord_events)) in
  let chord_symbols :=
    map (ChordWindowSmoother.active_symbol chord_events) timeline_points in
  map (ChordWindowSmoother.smoothed_symbol chord_symbols)
      (seq 0 (length chord_symbols)).

(** The labels of the maximal runs of identical non-["N"] labels, in
    order: one entry for each run. *)
Fixpoint run_labels (labels : list string) : list string :=
  match labels with
  | [] => []
  | s :: rest =>
      match rest with
      | s' :: _ =>
          if String.eqb s s' then run_labels rest
          else if String.eqb s "N" then run_labels rest
               else s :: run_labels rest
      | [] => if String.eqb s "N" then [] else [s]
      end
  end.

(** Three raw chords of overlapping detection windows. *)
Definition three_window_chords : list ChordEvent :=
  [Chord.mk 0 2 "C" (9 # 10) {[0; 4; 7]}%nat 0 "major";
   Chord.mk (18 # 10) (38 # 10) "C" (9 # 10) {[0; 4; 7]}%nat 0 "major";
   Chord.mk (36 # 10) (56 # 10) "G" (8 # 10) {[2; 7; 11]}%nat 2 "major"].

(** ** Note records *)

(** [{'onset': 10**400, 'offset': 1.0, 'pitch': 60, 'confidence': 0.9}]:
    every field is present and holds a number. *)
Definition huge_onset_record : gmap string PyValue :=
  <["onset" := PyInt (10 ^ 400)]>
    (<["offset" := PyFloat 1]>
       (<["pitch" := PyInt 60]>
          (<["confidence" := PyFloat (9 # 10)]> ∅))).

(** [{'onset': 10**400, 'pitch': 60, 'confidence': 0.9}]: the field
    ['offset'] is missing. *)
Definition missing_offset_record : gmap string PyValue :=
  <["onset" := PyInt (10 ^ 400)]>
    (<["pitch" := PyInt 60]>
       (<["confidence" := PyFloat (9 # 10)]> ∅)).

(** [{'onset': 0.0, 'offset': 1.0, 'pitch': 60, 'confidence': 0.8}] *)
Definition valid_record : gmap string PyValue :=
  <["onset" := PyFloat 0]>
    (<["offset" := PyFloat 1]>
       (<["pitch" := PyInt 60]>
          (<["confidence" := PyFloat (8 # 10)]> ∅))).

(** [{'onset': 0.0, 'pitch': None}] *)
Definition malformed_record : gmap string PyValue :=
  <["onset" := PyFloat 0]> (<["pitch" := PyNone]> ∅).

(** A record has a missing field. *)
Definition has_missing_field (note_dict : gmap string PyValue) : Prop :=
  exists field,
    In field ["onset"; "offset"; "pitch"; "confidence"]
    /\ note_dict !! field = None.

(** ** Selection by strict improvement *)

Section FirstMax.
Context {A : Type} (score : A -> Q).

(** The update [if score > best_score: best_score = score; best = a]. *)
Definition improve (st : Q * option A) (a : A) : Q * option A :=
  if Qltb (fst st) (score a) then (score a, Some a) else st.

(** [a] is the first element of [l] with the greatest score: every
    earlier element scores strictly less, no later element scores
    more. *)
Definition first_max (l : list A) (a : A) : Prop :=
  exists l1 l2,
    l = l1 ++ a :: l2
    /\ Forall (fun x => score x < score a) l1
    /\ Forall (fun x => score x <= score a) l2.
End FirstMax.

(** ** Key detection *)

(** The 24 candidate keys in the order the detector examines them: roots
    0 to 11, major before minor at each root. *)
Definition key_candidates : list (nat * string) :=
  flat_map (fun root_pc => [(root_pc, "major"); (root_pc, "minor")])
           (seq 0 12).

(** A candidate comes before another in that order. *)
Definition candidate_before (c1 c2 : nat * string) : Prop :=
  (fst c1 < fst c2)%nat
  \/ (fst c1 = fst c2 /\ snd c1 = "major" /\ snd c2 = "minor").

Definition profile_of (mode : string) : list Q :=
  if String.eqb mode "major" then KeyDetector.major_profile
  else KeyDetector.minor_profile.

(** The histogram normalised to sum 1. *)
Definition key_weights (note_events : list NoteEvent) : list Q :=
  let pc_weights :=
    KeyDetector.histogram (KeyDetector.key_events note_events true) in
  map (fun w => w / Qsum pc_weights) pc_weights.

Section KeySpec.
Variable corrcoef : list Q -> list Q -> option Q.

(** The correlation of the histogram with a candidate key. *)
Definition candidate_correlation (pc_weights : list Q)
  (c : nat * string) : Q :=
  KeyDetector._correlate_with_profile corrcoef pc_weights (fst c)
                                      (profile_of (snd c)).
End KeySpec.

(** The loop state of [estimate_key] for a state of the generic
    selection. *)
Definition key_state (st : Q * option (nat * string))
  : KeyDetector.best_state :=
  match snd st with
  | Some (root_pc, mode) => (fst st, root_pc, mode)
  | None => (fst st, 0%nat, "major")
  end.


(** [max(0.0, min(1.0, x))] *)
Definition clamp01 (x : Q) : Q := Qmax 0 (Qmin 1 x).

(** A rational stand-in for [numpy.corrcoef], used to run the detector on
    examples: the inner product of the two sequences, kept in lowest
    terms. *)
Definition rational_corrcoef (x y : list Q) : option Q :=
  Some (fold_left (fun acc '(a, b) => Qred (acc + a * b)) (combine x y) 0).

(** The notes of a C major triad held for two seconds. *)
Definition c_major_notes : list NoteEvent :=
  [Note.mk 0 2 60 (9 # 10); Note.mk 0 2 64 (8 # 10);
   Note.mk 0 2 67 (85 # 100)].

Definition test_notes : list NoteEvent :=
  [Note.mk 0 2 60 (9#10); Note.mk 0 2 64 (8#10); Note.mk 0 2 67 (85#100);
   Note.mk (1#10) (12#100) 50 (1#10); Note.mk (5#10) (53#100) 75 (5#100);
   Note.mk 2 4 57 (85#100); Note.mk 2 4 60 (9#10); Note.mk 2 4 64 (8#10);
   Note.mk (22#10) (28#10) 63 (1#10);
   Note.mk 4 6 53 (9#10); Note.mk 4 6 57 (85#100); Note.mk 4 6 60 (8#10);
   Note.mk 6 8 55 (9#10); Note.mk 6 8 59 (8#10); Note.mk 6 8 62 (85#100)].

(** ** Chord identification *)

Definition test_required (test : chord_test) : gset nat := fst (fst (fst test)).
Definition test_type (test : chord_test) : string := snd (fst (fst test)).
Definition test_suffix (test : chord_test) : string := snd (fst test).
Definition test_base (test : chord_test) : Q := snd test.

(** A shape matches at a root when its required intervals are among the
    intervals of the pitch classes from that root. *)
Definition shape_matches (pitch_classes : list nat) (root : nat)
  (test : chord_test) : bool :=
  bool_decide (test_required test ⊆ intervals_from root pitch_classes).

(** The matching [(root, shape)] pairs in the order the identifier meets
    them: the roots in the order of the list [pitch_classes], and at each
    root the shapes in table order. *)
Definition identify_candidates (pitch_classes : list nat)
  : list (nat * chord_test) :=
  flat_map (fun root =>
              map (pair root)
                  (List.filter (shape_matches pitch_classes root)
                               chord_tests))
           pitch_classes.

Definition candidate_score (pitch_classes : list nat)
  (key_estimate : KeyEstimate) (pc_weights : option (list (nat * Q)))
  (c : nat * chord_test) : Q :=
  chord_score (fst c) (intervals_from (fst c) pitch_classes)
              (root_strength_bonus (fst c) pitch_classes pc_weights)
              key_estimate (snd c).

(** The [(symbol, chord_type)] of a pair. *)
Definition candidate_label (c : nat * chord_test) : string * string :=
  (String.append (nth (fst c) key_names "") (test_suffix (snd c)),
   test_type (snd c)).

(** The loop state of [_identify_chord] for a state of the generic
    selection. *)
Definition identify_state (st : Q * option (nat * chord_test))
  : match_state :=
  (fst st,
   option_map (fun c => (fst (candidate_label c), snd (candidate_label c),
                         fst c))
              (snd st)).

(** *** The identifier the specification describes

    Follows the specification's words: among tied scores the lowest
    candidate root is kept, that is, the candidate roots are tried in
    increasing order. *)
Definition identify_chord_lowest_root_first (pitch_classes : list nat)
  (key_estimate : KeyEstimate) (pc_weights : option (list (nat * Q)))
  : string * string :=
  match pitch_classes with
  | [] => ("N", "unknown")
  | _ =>
      let increasing_roots :=
        sort_by (fun pc => inject_Z (Z.of_nat pc)) pitch_classes in
      let '(best_score, best_match) :=
        fold_left (root_step pitch_classes key_estimate pc_weights)
                  increasing_roots (0, None) in
      match best_match with
      | Some (symbol, chord_type, root) => (symbol, chord_type)
      | None =>
          (String.append (nth (min_pc pitch_classes) key_names "") "?",
           "unknown")
      end
  end.

(** G sharp, E and C with weights 0.8, 0.8 and 0.2, as the window analyser
    orders them (by decreasing weight), in an uncertain key. *)
Definition augmented_pcs : list nat := [8; 4; 0]%nat.
Definition augmented_weights : option (list (nat * Q)) :=
  Some [(8%nat, 8 # 10); (4%nat, 8 # 10); (0%nat, 2 # 10)].
Definition uncertain_key : KeyEstimate := Key.mk 0 "major" 0.
Definition aug_test : chord_test := ({[0; 4; 8]}%nat, "aug", "aug", 9).


(** ** Pitch smoothing *)

(** The notes of one pitch class, in their order in the list. *)
Definition notes_of_pc (pc : nat) (note_events : list NoteEvent)
  : list NoteEvent :=
  List.filter (fun note => Nat.eqb (Note.pitch_class note) pc) note_events.

(** Onset, offset and pitch of a note. *)
Definition timing (note : NoteEvent) : Q * Q * Z :=
  (Note.onset note, Note.offset note, Note.pitch note).

(** The median of three values. *)
Definition median3 (a b c : Q) : Q := Qmax (Qmin a b) (Qmin (Qmax a b) c).

(** Element [j - 1] of a sequence extended by zero on both sides: [0] for
    [j = 0] and beyond the end. *)
Definition zero_padded (cs : list Q) (j : nat) : Q :=
  match j with
  | O => 0
  | S j' => nth j' cs 0
  end.

(** Non-decreasing onsets. *)
Definition onset_le (a b : NoteEvent) : Prop := Note.onset a <= Note.onset b.

(** Three notes of pitch class C with confidences 0.9, 0.8 and 0.7. *)
Definition three_c_notes : list NoteEvent :=
  [Note.mk 0 1 60 (9 # 10); Note.mk 1 2 72 (8 # 10);
   Note.mk 2 3 60 (7 # 10)].

(** [pc_events[pc]] (the empty list for a missing key). *)
Definition group_get (pc : nat) (pc_events : list (nat * list NoteEvent))
  : list NoteEvent :=
  match find (fun kv => Nat.eqb (fst kv) pc) pc_events with
  | Some kv => snd kv
  | None => []
  end.


(** ** The pipeline *)

(** A note of the data model: onset before offset, a MIDI pitch, a
    confidence in [0, 1]. *)
Definition well_typed_note (note : NoteEvent) : Prop :=
  Note.onset note < Note.offset note
  /\ (0 <= Note.pitch note <= 127)%Z
  /\ 0 <= Note.confidence note <= 1.

(** The confidence of a chord lies in [0, 1] and its root is one of its
    pitch classes. *)
Definition chord_sound (chord : ChordEvent) : Prop :=
  0 <= Chord.confidence chord <= 1
  /\ Chord.root_pc chord ∈ Chord.pitch_classes chord.

(** The invariant of an output chord. *)
Definition chord_ok (chord : ChordEvent) : Prop :=
  0 <= Chord.confidence chord <= 1
  /\ MIN_CHORD_DURATION <= Chord.offset chord - Chord.onset chord
  /\ Chord.onset chord < Chord.offset chord
  /\ Chord.root_pc chord ∈ Chord.pitch_classes chord.

Definition nonneg_confidence (note : NoteEvent) : Prop :=
  0 <= Note.confidence note.

(** The stages of [infer_chords] after key estimation, as a function of
    the duration-filtered notes and the key estimate. *)
Definition chords_from_key (filtered_events : list NoteEvent)
  (key_estimate : KeyEstimate) : list ChordEvent :=
  _ensure_stability
    (_merge_similar_chords
       (ChordWindowSmoother.smooth_chord_progression
          (_apply_harmony_filtering
             (_detect_chords_in_windows
                (_apply_key_filtering filtered_events key_estimate)
                key_estimate)
             key_estimate))).

(** Two key estimates that the stages after key estimation cannot tell
    apart: they read the confidence only through the tests [< 0.5] and
    [< 0.6]. *)
Definition key_equiv (k k' : KeyEstimate) : Prop :=
  Key.key_pc k = Key.key_pc k'
  /\ Key.mode k = Key.mode k'
  /\ Qltb (Key.confidence k) (1 # 2) = Qltb (Key.confidence k') (1 # 2)
  /\ Qltb (Key.confidence k) (6 # 10) = Qltb (Key.confidence k') (6 # 10).

(** One key estimate for each root, mode and confidence band. *)
Definition representative_keys : list KeyEstimate :=
  flat_map (fun c =>
              [Key.mk (fst c) (snd c) 0; Key.mk (fst c) (snd c) (55 # 100);
               Key.mk (fst c) (snd c) 1])
           key_candidates.

(** Sorted by strictly increasing onset. *)
Definition onset_lt (a b : ChordEvent) : Prop := Chord.onset a < Chord.onset b.

Definition onset_sorted (chords : list ChordEvent) : Prop :=
  StronglySorted onset_lt chords.

(** For any two distinct chords, one's offset is at most the other's
    onset. *)
Definition apart (a b : ChordEvent) : Prop :=
  Chord.offset a <= Chord.onset b \/ Chord.offset b <= Chord.onset a.

Definition pairwise_non_overlapping (chords : list ChordEvent) : Prop :=
  ForallOrdPairs apart chords.

(** The first two chords of the list overlap. *)
Definition first_two_overlap (chords : list ChordEvent) : bool :=
  match chords with
  | a :: b :: _ =>
      Qltb (Chord.onset b) (Chord.offset a)
      && Qltb (Chord.onset a) (Chord.offset b)
  | _ => false
  end.

(** A C major triad on [0, 1.8] and a D major triad on [2, 3.6]. *)
Definition two_triads : list NoteEvent :=
  [Note.mk 0 (18 # 10) 60 (9 # 10); Note.mk 0 (18 # 10) 64 (9 # 10);
   Note.mk 0 (18 # 10) 67 (9 # 10);
   Note.mk 2 (36 # 10) 62 (9 # 10); Note.mk 2 (36 # 10) 66 (9 # 10);
   Note.mk 2 (36 # 10) 69 (9 # 10)].

(** The invariant of the re-segmentation loop before it handles grid index
    [i]: the chords emitted so far are sorted and start before the current
    run, which starts before grid point [i]. *)
Definition segment_inv (timeline_points : list Q) (i : nat)
  (st : ChordWindowSmoother.segment_state) : Prop :=
  onset_sorted (snd st)
  /\ Forall (fun c => Chord.onset c < snd (fst st)) (snd st)
  /\ ((i < length timeline_points)%nat ->
      snd (fst st) < nth i timeline_points 0).

(** The harmony-filtered chords of the pipeline: the input of the window
    smoother. *)
Definition harmony_filtered (corrcoef : list Q -> list Q -> option Q)
  (note_events : list NoteEvent) : list ChordEvent :=
  let filtered_events :=
    _filter_short_notes (PitchSmoother.smooth_pitch_activity note_events) in
  let key_estimate := KeyDetector.estimate_key corrcoef filtered_events in
  _apply_harmony_filtering
    (_detect_chords_in_windows
       (_apply_key_filtering filtered_events key_estimate) key_estimate)
    key_estimate.

(** The window smoother applies its filter and re-segments: more than two
    chords, a positive span and a grid of at least [filter_window]
    points. *)
Definition smoother_resegments (chord_events : list ChordEvent) : bool :=
  negb (length chord_events <=? 2)%nat
  && negb (Qleb (list_max (map Chord.offset chord_events)
                 - list_min (map Chord.onset chord_events)) 0)
  && (ChordWindowSmoother.filter_window
      <=? length (ChordWindowSmoother.timeline
                    (list_min (map Chord.onset chord_events))
                    (list_max (map Chord.offset chord_events))))%nat.

(** Each chord ends before every later chord starts. *)
Definition ends_before (a b : ChordEvent) : Prop :=
  Chord.offset a <= Chord.onset b.

Definition separated (chords : list ChordEvent) : Prop :=
  StronglySorted ends_before chords.

(** No chord ends before it starts. *)
Definition proper (chords : list ChordEvent) : Prop :=
  Forall (fun c => Chord.onset c <= Chord.offset c) chords.

(** The invariant of the re-segmentation loop for the extents of the
    chords, before it handles grid index [i]: the chords emitted so far
    end by the start of the current run, which is at most grid point
    [i - 1]. *)
Definition extent_inv (timeline_points : list Q) (i : nat)
  (st : ChordWindowSmoother.segment_state) : Prop :=
  separated (snd st) /\ proper (snd st)
  /\ Forall (fun c => Chord.offset c <= snd (fst st)) (snd st)
  /\ snd (fst st) <= nth (i - 1) timeline_points 0.


(** ** Record conversion with non-finite floats

    [float()] accepts and returns the infinities and NaN, and [int()]
    refuses them: [int(float('inf'))] raises [OverflowError],
    [int(float('nan'))] raises [ValueError].  The conversion loop of
    [process_note_events] is repeated here on values that include them;
    the notes it builds hold floats that may be non-finite, which the
    stages of the pipeline (on rationals) do not take. *)

(** A Python float: a finite number, an infinity or a NaN. *)
Inductive FloatValue : Type :=
| Finite (x : Q)
| Infinite (negative : bool)
| NaN.

(** The Python values a field can hold: those of [PyValue] and the
    non-finite floats. *)
Inductive AnyValue : Type :=
| AnyNone
| AnyInt (z : Z)
| AnyFloat (x : FloatValue)
| AnyStr (s : string)
| AnyObject.

Module RawNote.
Record t := mk
  { onset : FloatValue; offset : FloatValue; pitch : Z;
    confidence : FloatValue }.
End RawNote.

Section AnyConversion.
(** [float(s)] of a string (["inf"] and ["nan"] are read as floats) and
    [int(s)]; [None] is a [ValueError]. *)
Variable str_to_float_value : string -> option FloatValue.
Variable str_to_int : string -> option Z.

(** [float(v)] *)
Definition any_float (v : AnyValue) : result FloatValue :=
  match v with
  | AnyNone => Raises TypeError
  | AnyInt z =>
      if (FLOAT_OVERFLOW <=? Z.abs z)%Z then Raises OverflowError
      else Returns (Finite (inject_Z z))
  | AnyFloat x => Returns x
  | AnyStr s =>
      match str_to_float_value s with
      | Some x => Returns x
      | None => Raises ValueError
      end
  | AnyObject => Raises TypeError
  end.

(** [int(v)] *)
Definition any_int (v : AnyValue) : result Z :=
  match v with
  | AnyNone => Raises TypeError
  | AnyInt z => Returns z
  | AnyFloat (Finite x) => Returns (Qtruncate x)
  | AnyFloat (Infinite _) => Raises OverflowError
  | AnyFloat NaN => Raises ValueError
  | AnyStr s =>
      match str_to_int s with
      | Some z => Returns z
      | None => Raises ValueError
      end
  | AnyObject => Raises TypeError
  end.

(** [note_dict[field]] *)
Definition any_getitem (note_dict : gmap string AnyValue) (field : string)
  : result AnyValue :=
  match note_dict !! field with
  | Some v => Returns v
  | None => Raises KeyError
  end.

(** The [NoteEvent(...)] constructor call of the loop body. *)
Definition to_raw_note (note_dict : gmap string AnyValue)
  : result RawNote.t :=
  onset <- (v <- any_getitem note_dict "onset" ;; any_float v) ;;
  offset <- (v <- any_getitem note_dict "offset" ;; any_float v) ;;
  pitch <- (v <- any_getitem note_dict "pitch" ;; any_int v) ;;
  confidence <- (v <- any_getitem note_dict "confidence" ;; any_float v) ;;
  Returns (RawNote.mk onset offset pitch confidence).

(** The conversion loop, with its [except (KeyError, ValueError,
    TypeError)]. *)
Fixpoint convert_raw_notes (raw_notes : list (gmap string AnyValue))
  : result (list RawNote.t) :=
  match raw_notes with
  | [] => Returns []
  | note_dict :: rest =>
      match to_raw_note note_dict with
      | Returns note =>
          note_events <- convert_raw_notes rest ;;
          Returns (note :: note_events)
      | Raises e =>
          if caught e then convert_raw_notes rest else Raises e
      end
  end.
End AnyConversion.

(** A record aborts the conversion: one of its float fields holds an
    [int] that [float()] refuses, or its pitch is an infinity. *)
Definition aborts_conversion (note_dict : gmap string AnyValue) : Prop :=
  (exists field z,
      In field ["onset"; "offset"; "confidence"]
      /\ note_dict !! field = Some (AnyInt z)
      /\ (FLOAT_OVERFLOW <= Z.abs z)%Z)
  \/ (exists negative,
         note_dict !! "pitch" = Some (AnyFloat (Infinite negative))).

(** [{'onset': 0.0, 'offset': float('inf'), 'pitch': float('nan'),
    'confidence': 0.9}] and [{'onset': 0.0, 'offset': 1.0, 'pitch':
    float('inf'), 'confidence': 0.9}] *)
Definition nan_pitch_record : gmap string AnyValue :=
  <["onset" := AnyFloat (Finite 0)]>
    (<["offset" := AnyFloat (Infinite false)]>
       (<["pitch" := AnyFloat NaN]>
          (<["confidence" := AnyFloat (Finite (9 # 10))]> ∅))).

Definition infinite_pitch_record : gmap string AnyValue :=
  <["onset" := AnyFloat (Finite 0)]>
    (<["offset" := AnyFloat (Finite 1)]>
       (<["pitch" := AnyFloat (Infinite false)]>
          (<["confidence" := AnyFloat (Finite (9 # 10))]> ∅))).

(** * Further properties of the code: predicates *)

(** A key estimate as the detector reports it: a root in 0..11, one of
    the two mode names, a confidence in [0, 1]. *)
Definition key_well_formed (k : KeyEstimate) : Prop :=
  (Key.key_pc k < 12)%nat
  /\ (Key.mode k = "major" \/ Key.mode k = "minor")
  /\ 0 <= Key.confidence k <= 1.

(** The weight [note.duration * note.confidence] a note adds to the
    pitch-class histogram. *)
Definition note_weight (note : NoteEvent) : Q :=
  Note.duration note * Note.confidence note.

(** The fields of the later chord that the merge test reads. *)
Definition merge_key (c : ChordEvent) : Q * string * nat * string :=
  (Chord.onset c, Chord.chord_symbol c, Chord.root_pc c, Chord.chord_type c).

(** The first window starts at the onset of the earliest note, and the
    windows stop at the last note offset. *)
Definition first_onset (events : list NoteEvent) : Q :=
  Note.onset (hd (Note.mk 0 0 0 0) (sort_by Note.onset events)).

Definition last_offset (events : list NoteEvent) : Q :=
  list_max (map Note.offset (sort_by Note.onset events)).

(** A chord that spans one detection window of the grid starting at
    [start_time]: it lasts [WINDOW_SIZE] and starts a whole number of
    hops after [start_time], before [end_time]. *)
Definition on_window_grid (start_time end_time : Q) (c : ChordEvent)
  : Prop :=
  Chord.offset c = Chord.onset c + WINDOW_SIZE
  /\ Chord.onset c < end_time
  /\ exists i : nat,
       Chord.onset c == start_time + inject_Z (Z.of_nat i) * window_hop.

(** Two notes shorter than [MIN_NOTE_DURATION]: a grace note of 50 ms and
    one of 20 ms. *)
Definition short_notes : list NoteEvent :=
  [Note.mk 0 (5 # 100) 60 (9 # 10); Note.mk 1 (102 # 100) 64 (8 # 10)].

(** Two notes that differ at most in their octave: the same onset, offset
    and confidence, and the same pitch class. *)
Definition same_class (a b : NoteEvent) : Prop :=
  Note.onset a = Note.onset b
  /\ Note.offset a = Note.offset b
  /\ Note.confidence a = Note.confidence b
  /\ Note.pitch_class a = Note.pitch_class b.

(** Two groups of the smoother with the same key and such notes. *)
Definition same_group (g g' : nat * list NoteEvent) : Prop :=
  fst g = fst g' /\ Forall2 same_class (snd g) (snd g').

(** The C major triad of [c_major_notes] with its C an octave lower and
    its E an octave higher. *)
Definition c_major_spread : list NoteEvent :=
  [Note.mk 0 2 48 (9 # 10); Note.mk 0 2 76 (8 # 10);
   Note.mk 0 2 67 (85 # 100)].

(** The shape of a chord of one detection window: between 2 and 6
    distinct pitch classes, all in 0..11, with [root_pc] the smallest. *)
Definition raw_chord_shape (chord : ChordEvent) : Prop :=
  (2 <= size (Chord.pitch_classes chord) <= 6)%nat
  /\ forall pc, pc ∈ Chord.pitch_classes chord ->
                (Chord.root_pc chord <= pc < 12)%nat.

(** What a chord says apart from its times. *)
Definition chord_attrs (c : ChordEvent)
  : string * Q * gset nat * nat * string :=
  (Chord.chord_symbol c, Chord.confidence c, Chord.pitch_classes c,
   Chord.root_pc c, Chord.chord_type c).

(** The first chord of the list that carries the symbol of [c]. *)
Definition first_with_symbol (chord_events : list ChordEvent)
  (c : ChordEvent) : option ChordEvent :=
  find (fun x => String.eqb (Chord.chord_symbol x) (Chord.chord_symbol c))
       chord_events.

(** Root and pitch classes are pitch-class numbers. *)
Definition chord_in_range (c : ChordEvent) : Prop :=
  (Chord.root_pc c < 12)%nat
  /\ forall pc, pc ∈ Chord.pitch_classes c -> (pc < 12)%nat.

(** The triad on [root]: the root, its minor or major third and its
    fifth, as pitch classes. *)
Definition triad (minor : bool) (root : nat) : list nat :=
  [root; ((root + (if minor then 3 else 4)) mod 12)%nat;
   ((root + 7) mod 12)%nat].

(** The symbol and the type a triad should be given. *)
Definition triad_name (minor : bool) (root : nat) : string * string :=
  (String.append (nth root key_names "") (if minor then "m" else ""),
   if minor then "minor" else "major").

Definition name_eqb (a b : string * string) : bool :=
  String.eqb (fst a) (fst b) && String.eqb (snd a) (snd b).

(** A note of the response lies in the original audio: it starts before
    the end of the audio and ends by it. *)
Definition within_audio (original_duration : Q) (note : NoteEvent) : Prop :=
  Note.onset note < original_duration
  /\ Note.offset note <= original_duration.
(** * Properties *)

(** ** Comparisons *)

Lemma Qleb_true (a b : Q) : Qleb a b = true <-> a <= b.
Proof. unfold Qleb. apply Qle_bool_iff. Qed.

Lemma Qleb_false (a b : Q) : Qleb a b = false <-> b < a.
Proof.
  unfold Qleb. split; intros H.
  - apply Qnot_le_lt. intros Hle. apply Qle_bool_iff in Hle. congruence.
  - destruct (Qle_bool a b) eqn:E; [|reflexivity].
    apply Qle_bool_iff in E. exfalso. apply (Qlt_not_le _ _ H E).
Qed.

Lemma Qltb_true (a b : Q) : Qltb a b = true <-> a < b.
Proof.
  unfold Qltb. rewrite negb_true_iff. apply (Qleb_false b a).
Qed.

Lemma Qltb_false (a b : Q) : Qltb a b = false <-> b <= a.
Proof.
  unfold Qltb. rewrite negb_false_iff. apply (Qleb_true b a).
Qed.

Lemma Qmax_cases (a b : Q) :
  (a < b /\ Qmax a b = b) \/ (b <= a /\ Qmax a b = a).
Proof.
  unfold Qmax. destruct (Qltb a b) eqn:E.
  - left. split; [now apply Qltb_true|reflexivity].
  - right. split; [now apply Qltb_false|reflexivity].
Qed.

Lemma Qmin_cases (a b : Q) :
  (b < a /\ Qmin a b = b) \/ (a <= b /\ Qmin a b = a).
Proof.
  unfold Qmin. destruct (Qltb b a) eqn:E.
  - left. split; [now apply Qltb_true|reflexivity].
  - right. split; [now apply Qltb_false|reflexivity].
Qed.

(** Case analysis on every boolean comparison in the goal. *)
Ltac Qcompare :=
  repeat match goal with
    | H : Qleb _ _ = true |- _ => apply Qleb_true in H
    | H : Qleb _ _ = false |- _ => apply Qleb_false in H
    | H : Qltb _ _ = true |- _ => apply Qltb_true in H
    | H : Qltb _ _ = false |- _ => apply Qltb_false in H
    end.

(** ** Greatest element of a list *)

Lemma fold_max_ge (l : list Q) :
  forall m,
    m <= fold_left (fun m y => if Qltb m y then y else m) l m
    /\ Forall (fun y => y <= fold_left (fun m y => if Qltb m y then y else m) l m) l.
Proof.
  induction l as [|x l IH]; intros m; simpl.
  - split; [apply Qle_refl|constructor].
  - destruct (Qltb m x) eqn:E; Qcompare.
    + destruct (IH x) as [H1 H2]. split; [lra|]. constructor; assumption.
    + destruct (IH m) as [H1 H2]. split; [exact H1|].
      constructor; [lra|exact H2].
Qed.

Lemma list_max_ge (l : list Q) (x : Q) : In x l -> x <= list_max l.
Proof.
  destruct l as [|y l]; [contradiction|]. simpl.
  destruct (fold_max_ge l y) as [H1 H2].
  intros [<-|Hin]; [exact H1|].
  rewrite List.Forall_forall in H2. now apply H2.
Qed.

(** ** The stable sort *)

Section SortProperties.
Context {A : Type} (key : A -> Q).

Lemma insert_by_Forall (P : A -> Prop) (x : A) (l : list A) :
  P x -> Forall P l -> Forall P (insert_by key x l).
Proof.
  intros Hx Hl. induction Hl as [|y l Hy Hl IH]; simpl.
  - constructor; [exact Hx|constructor].
  - destruct (Qleb (key x) (key y)).
    + constructor; [exact Hx|]. constructor; assumption.
    + constructor; assumption.
Qed.

Lemma sort_by_Forall (P : A -> Prop) (l : list A) :
  Forall P l -> Forall P (sort_by key l).
Proof.
  induction 1 as [|x l Hx Hl IH]; simpl; [constructor|].
  apply insert_by_Forall; assumption.
Qed.

Lemma insert_by_perm (x : A) (l : list A) :
  Permutation (insert_by key x l) (x :: l).
Proof.
  induction l as [|y l IH]; simpl; [apply Permutation_refl|].
  destruct (Qleb (key x) (key y)); [apply Permutation_refl|].
  eapply Permutation_trans; [apply perm_skip; exact IH|apply perm_swap].
Qed.

Lemma sort_by_perm (l : list A) : Permutation (sort_by key l) l.
Proof.
  induction l as [|x l IH]; simpl; [apply perm_nil|].
  eapply Permutation_trans; [apply insert_by_perm|].
  apply perm_skip. exact IH.
Qed.

Lemma sort_by_length (l : list A) : length (sort_by key l) = length l.
Proof. apply Permutation_length. apply sort_by_perm. Qed.

Lemma insert_by_sorted (x : A) (l : list A) :
  StronglySorted (fun a b => key a <= key b) l ->
  StronglySorted (fun a b => key a <= key b) (insert_by key x l).
Proof.
  induction 1 as [|y l Hs IH Hall]; simpl.
  - constructor; constructor.
  - destruct (Qleb (key x) (key y)) eqn:E; Qcompare.
    + constructor; [constructor; assumption|].
      constructor; [exact E|].
      eapply List.Forall_impl; [|exact Hall].
      intros z Hz. simpl in Hz. lra.
    + constructor; [exact IH|].
      apply insert_by_Forall; [lra|exact Hall].
Qed.

Lemma sort_by_sorted (l : list A) :
  StronglySorted (fun a b => key a <= key b) (sort_by key l).
Proof.
  induction l as [|x l IH]; simpl; [constructor|].
  apply insert_by_sorted. exact IH.
Qed.

Lemma sort_by_short (l : list A) : (length l <= 1)%nat -> sort_by key l = l.
Proof.
  destruct l as [|x [|y l]]; simpl; intros H; try reflexivity. lia.
Qed.
End SortProperties.

(** ** Selection by strict improvement *)

Section FirstMaxProperties.
Context {A : Type} (score : A -> Q).

Lemma first_max_cons_lt (x a : A) (l : list A) :
  score x < score a -> first_max score l a -> first_max score (x :: l) a.
Proof.
  intros Hlt (l1 & l2 & -> & H1 & H2).
  exists (x :: l1), l2. split; [reflexivity|]. split; [|exact H2].
  constructor; assumption.
Qed.

Lemma first_max_head (x : A) (l : list A) :
  Forall (fun y => score y <= score x) l -> first_max score (x :: l) x.
Proof.
  intros H. exists [], l. split; [reflexivity|]. split; [constructor|exact H].
Qed.

Lemma first_max_In (l : list A) (a : A) : first_max score l a -> In a l.
Proof.
  intros (l1 & l2 & -> & _). apply in_or_app. right. left. reflexivity.
Qed.

Lemma first_max_greatest (l : list A) (a x : A) :
  first_max score l a -> In x l -> score x <= score a.
Proof.
  intros (l1 & l2 & -> & H1 & H2) Hin.
  apply in_app_or in Hin. destruct Hin as [Hin|[<-|Hin]].
  - rewrite List.Forall_forall in H1. apply Qlt_le_weak. now apply H1.
  - apply Qle_refl.
  - rewrite List.Forall_forall in H2. now apply H2.
Qed.

(** A fold of the strict-improvement update either leaves the state
    alone, when no element beats the initial score, or ends on the first
    element with the greatest score. *)
Lemma fold_improve (l : list A) :
  forall (b : Q) (r : option A),
    (fold_left (improve score) l (b, r) = (b, r)
     /\ Forall (fun x => score x <= b) l)
    \/ (exists a,
           fold_left (improve score) l (b, r) = (score a, Some a)
           /\ b < score a /\ first_max score l a).
Proof.
  induction l as [|x l IH]; intros b r.
  - left. split; [reflexivity|constructor].
  - assert (Hstep : improve score (b, r) x
                    = if Qltb b (score x) then (score x, Some x) else (b, r))
      by reflexivity.
    simpl fold_left. rewrite Hstep. clear Hstep.
    destruct (Qltb b (score x)) eqn:E; Qcompare.
    + right. destruct (IH (score x) (Some x)) as [[Heq Hall]|(a & Heq & Hlt & Hfm)].
      * exists x. split; [exact Heq|]. split; [exact E|].
        now apply first_max_head.
      * exists a. split; [exact Heq|]. split; [lra|].
        now apply first_max_cons_lt.
    + destruct (IH b r) as [[Heq Hall]|(a & Heq & Hlt & Hfm)].
      * left. split; [exact Heq|]. constructor; assumption.
      * right. exists a. split; [exact Heq|]. split; [exact Hlt|].
        apply first_max_cons_lt; [lra|exact Hfm].
Qed.
End FirstMaxProperties.

Section FirstMaxTies.
Context {A : Type} (score : A -> Q) (before : A -> A -> Prop).

Lemma sorted_after (l1 l2 : list A) (a : A) :
  StronglySorted before (l1 ++ a :: l2) -> Forall (before a) l2.
Proof.
  induction l1 as [|x l1 IH]; simpl; intros H.
  - apply StronglySorted_inv in H. tauto.
  - apply StronglySorted_inv in H. apply IH. tauto.
Qed.

(** In a list sorted by [before], an element that ties with the first
    maximum comes after it. *)
Lemma first_max_tie (l : list A) (a x : A) :
  StronglySorted before l -> first_max score l a -> In x l ->
  score x == score a -> x = a \/ before a x.
Proof.
  intros Hs (l1 & l2 & -> & H1 & H2) Hin Heq.
  apply in_app_or in Hin. destruct Hin as [Hin|[<-|Hin]].
  - rewrite List.Forall_forall in H1. specialize (H1 x Hin).
    rewrite Heq in H1. exfalso. apply (Qlt_irrefl _ H1).
  - left. reflexivity.
  - right. apply sorted_after in Hs.
    rewrite List.Forall_forall in Hs. now apply Hs.
Qed.
End FirstMaxTies.

(** ** Key detection *)

Section KeyProperties.
Variable corrcoef : list Q -> list Q -> option Q.

Let correlation := candidate_correlation corrcoef.

Lemma key_state_fst (st : Q * option (nat * string)) :
  fst (fst (key_state st)) = fst st.
Proof. destruct st as [b [[r m]|]]; reflexivity. Qed.

Lemma key_state_improve (w : list Q) (st : Q * option (nat * string))
  (r : nat) (m : string) :
  (if Qltb (fst (fst (key_state st))) (correlation w (r, m))
   then (correlation w (r, m), r, m) else key_state st)
  = key_state (improve (correlation w) st (r, m)).
Proof.
  rewrite key_state_fst. unfold improve.
  destruct (Qltb (fst st) (correlation w (r, m))); reflexivity.
Qed.

Lemma key_step_improve (w : list Q) (st : Q * option (nat * string))
  (root_pc : nat) :
  KeyDetector.key_step corrcoef w (key_state st) root_pc
  = key_state (improve (correlation w)
                       (improve (correlation w) st (root_pc, "major"))
                       (root_pc, "minor")).
Proof.
  unfold KeyDetector.key_step.
  change (KeyDetector._correlate_with_profile corrcoef w root_pc
            KeyDetector.major_profile)
    with (correlation w (root_pc, "major")).
  change (KeyDetector._correlate_with_profile corrcoef w root_pc
            KeyDetector.minor_profile)
    with (correlation w (root_pc, "minor")).
  cbv zeta.
  rewrite (key_state_improve w st root_pc "major").
  apply (key_state_improve w _ root_pc "minor").
Qed.

Lemma key_fold_improve (w : list Q) (roots : list nat) :
  forall st,
    fold_left (KeyDetector.key_step corrcoef w) roots (key_state st)
    = key_state
        (fold_left (improve (correlation w))
           (flat_map (fun r => [(r, "major"); (r, "minor")]) roots) st).
Proof.
  induction roots as [|r roots IH]; intros st; [reflexivity|].
  simpl. rewrite key_step_improve. apply IH.
Qed.

Lemma best_key_improve (w : list Q) :
  KeyDetector.best_key corrcoef w
  = key_state (fold_left (improve (correlation w)) key_candidates
                         (- (1), None)).
Proof.
  unfold KeyDetector.best_key, key_candidates.
  rewrite <- key_fold_improve. reflexivity.
Qed.
End KeyProperties.

Lemma key_candidates_sorted : StronglySorted candidate_before key_candidates.
Proof.
  unfold key_candidates. simpl.
  repeat first [ apply SSorted_nil | apply SSorted_cons
               | apply List.Forall_nil | apply List.Forall_cons ];
    unfold candidate_before; simpl;
    first [ left; lia | right; repeat split; reflexivity ].
Qed.

Lemma clamp01_below (x : Q) : x <= 0 -> clamp01 x = 0.
Proof.
  intros Hx. unfold clamp01.
  destruct (Qmin_cases 1 x) as [[_ ->]|[H1 ->]].
  - destruct (Qmax_cases 0 x) as [[H _]|[_ ->]]; [lra|reflexivity].
  - lra.
Qed.

Section EstimateKey.
Variable corrcoef : list Q -> list Q -> option Q.

(** C4: on a note list with a non-zero histogram, the key detector
    returns the first of the 24 candidates, in the order roots 0 to 11
    with major before minor, whose correlation is greatest (a candidate
    that ties with it comes later in that order: it has a higher root,
    or the same root and minor against major), and the confidence is
    that correlation clamped to [0, 1].  The correlations are those of
    [numpy.corrcoef], which lie in [-1, 1]. *)
Theorem estimate_key_first_greatest (note_events : list NoteEvent) :
  let w := key_weights note_events in
  let k := KeyDetector.estimate_key corrcoef note_events in
  note_events <> [] ->
  ~ Qsum (KeyDetector.histogram (KeyDetector.key_events note_events true))
    == 0 ->
  (forall c, In c key_candidates ->
             - (1) <= candidate_correlation corrcoef w c) ->
  exists c,
    first_max (candidate_correlation corrcoef w) key_candidates c
    /\ (forall c', In c' key_candidates ->
          candidate_correlation corrcoef w c'
          == candidate_correlation corrcoef w c ->
          c' = c \/ candidate_before c c')
    /\ Key.key_pc k = fst c
    /\ Key.mode k = snd c
    /\ Key.confidence k == clamp01 (candidate_correlation corrcoef w c).
Proof.
  intros w k Hne Hsum Hrange.
  assert (Hk : exists c,
             first_max (candidate_correlation corrcoef w) key_candidates c
             /\ Key.key_pc k = fst c /\ Key.mode k = snd c
             /\ Key.confidence k
                == clamp01 (candidate_correlation corrcoef w c)).
  { subst k. unfold KeyDetector.estimate_key, KeyDetector.estimate_key_with.
    destruct note_events as [|n l]; [congruence|].
    destruct (Qeq_bool _ 0) eqn:E.
    { apply Qeq_bool_iff in E. contradiction. }
    fold (key_weights (n :: l)). fold w.
    rewrite best_key_improve.
    destruct (fold_improve (candidate_correlation corrcoef w)
                key_candidates (- (1)) None)
      as [[Heq Hall]|(c & Heq & Hlt & Hfm)]; rewrite Heq.
    - exists (0%nat, "major"). simpl.
      assert (Hc : candidate_correlation corrcoef w (0%nat, "major")
                   == - (1)).
      { apply Qle_antisym.
        - rewrite List.Forall_forall in Hall. apply Hall. simpl. tauto.
        - apply Hrange. simpl. tauto. }
      split; [|split; [reflexivity|split; [reflexivity|]]].
      + apply first_max_head. simpl in Hall.
        apply List.Forall_inv_tail in Hall.
        eapply List.Forall_impl; [|exact Hall].
        intros c Hle. simpl in Hle. rewrite Hc. exact Hle.
      + fold (clamp01 (- (1))).
        rewrite (clamp01_below (- (1))) by lra.
        rewrite clamp01_below; [reflexivity|]. rewrite Hc. lra.
    - exists c. destruct c as [r m]. simpl.
      split; [exact Hfm|]. repeat split; reflexivity. }
  destruct Hk as (c & Hfm & Hpc & Hmode & Hconf).
  exists c. split; [exact Hfm|]. split; [|tauto].
  intros c' Hin Heq.
  apply (first_max_tie (candidate_correlation corrcoef w) candidate_before
           key_candidates c c' key_candidates_sorted Hfm Hin Heq).
Qed.
End EstimateKey.

Lemma estimate_key_first_greatest_witness :
  let w := key_weights c_major_notes in
  let k := KeyDetector.estimate_key rational_corrcoef c_major_notes in
  exists c,
    first_max (candidate_correlation rational_corrcoef w) key_candidates c
    /\ (forall c', In c' key_candidates ->
          candidate_correlation rational_corrcoef w c'
          == candidate_correlation rational_corrcoef w c ->
          c' = c \/ candidate_before c c')
    /\ Key.key_pc k = fst c
    /\ Key.mode k = snd c
    /\ Key.confidence k
       == clamp01 (candidate_correlation rational_corrcoef w c).
Proof.
  apply (estimate_key_first_greatest rational_corrcoef c_major_notes).
  - discriminate.
  - vm_compute. discriminate.
  - intros c Hin. unfold key_candidates in Hin. simpl in Hin.
    repeat (destruct Hin as [<-|Hin]; [vm_compute; discriminate|]).
    contradiction.
Defined.
(** ** Chord identification *)

(** C5 (counterexample): for the augmented triad G#, E, C with the weights
    0.8, 0.8, 0.2 the pairs (E, aug) and (G#, aug) tie at the greatest
    score; the identifier keeps the one it meets first in the order of its
    pitch-class list, G#aug, not the one of the lowest root, Eaug. *)
Lemma identify_tie_keeps_list_order :
  candidate_score augmented_pcs uncertain_key augmented_weights
                  (4%nat, aug_test)
  == candidate_score augmented_pcs uncertain_key augmented_weights
                     (8%nat, aug_test)
  /\ Forall (fun c =>
               candidate_score augmented_pcs uncertain_key augmented_weights c
               <= candidate_score augmented_pcs uncertain_key
                                  augmented_weights (8%nat, aug_test))
            (identify_candidates augmented_pcs)
  /\ _identify_chord augmented_pcs uncertain_key augmented_weights
     = ("G#aug", "aug")
  /\ identify_chord_lowest_root_first augmented_pcs uncertain_key
                                      augmented_weights
     = ("Eaug", "aug").
Proof.
  split; [vm_compute; reflexivity|].
  split; [|split; vm_compute; reflexivity].
  assert (H : forallb
                (fun c =>
                   Qleb (candidate_score augmented_pcs uncertain_key
                                         augmented_weights c)
                        (candidate_score augmented_pcs uncertain_key
                                         augmented_weights (8%nat, aug_test)))
                (identify_candidates augmented_pcs) = true)
    by (vm_compute; reflexivity).
  rewrite List.forallb_forall in H. apply List.Forall_forall.
  intros c Hc. apply Qleb_true. apply H. exact Hc.
Qed.

Lemma weight_get_In (pc : nat) (pc_weights : list (nat * Q)) :
  0 < weight_get pc pc_weights ->
  In (weight_get pc pc_weights) (map snd pc_weights).
Proof.
  induction pc_weights as [|[k w] rest IH]; simpl; intros H.
  - exfalso. apply (Qlt_irrefl _ H).
  - destruct (Nat.eqb k pc); [left; reflexivity|right; now apply IH].
Qed.

Lemma root_strength_bonus_ge_1 (root : nat) (pitch_classes : list nat)
  (pc_weights : option (list (nat * Q))) :
  1 <= root_strength_bonus root pitch_classes pc_weights.
Proof.
  unfold root_strength_bonus.
  destruct pc_weights as [[|kw weights]|]; try apply Qle_refl.
  set (ws := kw :: weights).
  assert (Hb : 1 <= (if Qltb 0 (weight_get root ws)
                     then 1 + weight_get root ws / list_max (map snd ws)
                              * (8 # 10)
                     else 1)).
  { destruct (Qltb 0 (weight_get root ws)) eqn:E; [|apply Qle_refl].
    Qcompare.
    pose proof (list_max_ge _ _ (weight_get_In root ws E)) as Hmax.
    assert (Hpos : 0 < list_max (map snd ws)) by lra.
    assert (Hq : 0 <= weight_get root ws / list_max (map snd ws)).
    { apply Qle_shift_div_l; [exact Hpos|]. lra. }
    lra. }
  destruct (Nat.eqb root (min_pc pitch_classes)); lra.
Qed.

Lemma chord_tests_positive :
  Forall (fun test => 0 < test_base test /\ (0 < size (test_required test))%nat)
         chord_tests.
Proof.
  apply List.Forall_forall.
  assert (H : forallb (fun test => Qltb 0 (test_base test)
                                   && (0 <? size (test_required test))%nat)
                      chord_tests = true) by (vm_compute; reflexivity).
  rewrite List.forallb_forall in H. intros test Hin.
  specialize (H test Hin). apply andb_true_iff in H. destruct H as [H1 H2].
  split; [now apply Qltb_true|now apply Nat.ltb_lt].
Qed.

Lemma identify_candidates_In (pitch_classes : list nat)
  (c : nat * chord_test) :
  In c (identify_candidates pitch_classes) <->
  In (fst c) pitch_classes /\ In (snd c) chord_tests
  /\ test_required (snd c) ⊆ intervals_from (fst c) pitch_classes.
Proof.
  unfold identify_candidates. rewrite in_flat_map. split.
  - intros (root & Hroot & Hin). apply in_map_iff in Hin.
    destruct Hin as (test & <- & Hin). apply filter_In in Hin.
    destruct Hin as [Hin Hm]. unfold shape_matches in Hm.
    apply bool_decide_eq_true in Hm. simpl. tauto.
  - intros (Hroot & Hin & Hsub). exists (fst c). split; [exact Hroot|].
    apply in_map_iff. exists (snd c). split; [now destruct c|].
    apply filter_In. split; [exact Hin|].
    unfold shape_matches. now apply bool_decide_eq_true.
Qed.

(** Every matching pair has a positive score, so the first one met always
    replaces the initial [best_score = 0]. *)
Lemma candidate_score_pos (pitch_classes : list nat)
  (key_estimate : KeyEstimate) (pc_weights : option (list (nat * Q)))
  (c : nat * chord_test) :
  In c (identify_candidates pitch_classes) ->
  0 < candidate_score pitch_classes key_estimate pc_weights c.
Proof.
  intros Hin. apply identify_candidates_In in Hin.
  destruct Hin as (_ & Hin & Hsub).
  pose proof chord_tests_positive as Hpos.
  rewrite List.Forall_forall in Hpos. destruct (Hpos _ Hin) as [Hbase Hsize].
  apply subseteq_size in Hsub.
  unfold candidate_score, chord_score.
  destruct c as [root [[[required ty] suffix] base]].
  unfold test_base, test_required in *. simpl in Hbase, Hsize, Hsub. simpl.
  set (ints := intervals_from root pitch_classes) in *.
  pose proof (root_strength_bonus_ge_1 root pitch_classes pc_weights) as Hb.
  set (bonus := root_strength_bonus root pitch_classes pc_weights) in *.
  assert (Hratio : 0 < inject_Z (Z.of_nat (size required))
                       / inject_Z (Z.of_nat (size ints))).
  { apply Qlt_shift_div_l.
    - change 0 with (inject_Z 0). rewrite <- Zlt_Qlt. lia.
    - rewrite Qmult_0_l. change 0 with (inject_Z 0). rewrite <- Zlt_Qlt. lia. }
  set (ratio := inject_Z (Z.of_nat (size required))
                / inject_Z (Z.of_nat (size ints))) in *.
  assert (H1 : 0 < base * ratio) by (apply Qmult_lt_0_compat; assumption).
  assert (H2 : 0 < (if bool_decide (ints = required)
                    then base * ratio * (15 # 10) else base * ratio)).
  { destruct (bool_decide (ints = required)); lra. }
  set (s2 := if bool_decide (ints = required)
             then base * ratio * (15 # 10) else base * ratio) in *.
  assert (H3 : 0 < s2 * bonus) by (apply Qmult_lt_0_compat; lra).
  set (s3 := s2 * bonus) in *.
  destruct (_is_in_key root key_estimate);
    match goal with
    | |- context [if ?b then _ else _] => destruct b
    end; lra.
Qed.

Section IdentifyChord.
Variable pitch_classes : list nat.
Variable key_estimate : KeyEstimate.
Variable pc_weights : option (list (nat * Q)).

Let score := candidate_score pitch_classes key_estimate pc_weights.

Lemma test_step_improve (root : nat) (test : chord_test)
  (st : Q * option (nat * chord_test)) :
  test_step root (intervals_from root pitch_classes)
            (root_strength_bonus root pitch_classes pc_weights)
            key_estimate (identify_state st) test
  = if shape_matches pitch_classes root test
    then identify_state (improve score st (root, test))
    else identify_state st.
Proof.
  destruct test as [[[required ty] suffix] base].
  unfold test_step, shape_matches, test_required. simpl fst.
  destruct (bool_decide (required ⊆ intervals_from root pitch_classes));
    [|reflexivity].
  unfold improve.
  change (score (root, (required, ty, suffix, base)))
    with (chord_score root (intervals_from root pitch_classes)
            (root_strength_bonus root pitch_classes pc_weights)
            key_estimate (required, ty, suffix, base)).
  destruct (Qltb _ _); reflexivity.
Qed.

Lemma fold_left_cons {S B : Type} (f : S -> B -> S) (x : B) (l : list B)
  (s : S) : fold_left f (x :: l) s = fold_left f l (f s x).
Proof. reflexivity. Qed.

Lemma filter_cons {B : Type} (f : B -> bool) (x : B) (l : list B) :
  List.filter f (x :: l)
  = if f x then x :: List.filter f l else List.filter f l.
Proof. reflexivity. Qed.

Lemma identify_chord_fold :
  pitch_classes <> [] ->
  _identify_chord pitch_classes key_estimate pc_weights
  = let '(best_score, best_match) :=
      fold_left (root_step pitch_classes key_estimate pc_weights)
                pitch_classes (0, None) in
    match best_match with
    | Some (symbol, chord_type, root) => (symbol, chord_type)
    | None =>
        (String.append (nth (min_pc pitch_classes) key_names "") "?",
         "unknown")
    end.
Proof.
  unfold _identify_chord. destruct pitch_classes; [congruence|reflexivity].
Qed.

Lemma flat_map_step {B C : Type} (f : B -> list C) (x : B) (l : list B) :
  flat_map f (x :: l) = f x ++ flat_map f l.
Proof. reflexivity. Qed.

Lemma tests_fold_improve (root : nat) (tests : list chord_test) :
  forall st,
    fold_left (test_step root (intervals_from root pitch_classes)
                 (root_strength_bonus root pitch_classes pc_weights)
                 key_estimate)
              tests (identify_state st)
    = identify_state
        (fold_left (improve score)
           (map (pair root)
                (List.filter (shape_matches pitch_classes root) tests))
           st).
Proof.
  induction tests as [|test tests IH]; intros st; [reflexivity|].
  rewrite fold_left_cons, test_step_improve, filter_cons.
  destruct (shape_matches pitch_classes root test).
  - rewrite map_cons, fold_left_cons. apply IH.
  - apply IH.
Qed.

Lemma root_step_unfold (st : match_state) (root : nat) :
  root_step pitch_classes key_estimate pc_weights st root
  = fold_left (test_step root (intervals_from root pitch_classes)
                 (root_strength_bonus root pitch_classes pc_weights)
                 key_estimate)
              chord_tests st.
Proof. reflexivity. Qed.

Lemma roots_fold_improve (roots : list nat) :
  forall st,
    fold_left (root_step pitch_classes key_estimate pc_weights) roots
              (identify_state st)
    = identify_state
        (fold_left (improve score)
           (flat_map
              (fun root =>
                 map (pair root)
                     (List.filter (shape_matches pitch_classes root)
                                  chord_tests))
              roots)
           st).
Proof.
  induction roots as [|root roots IH]; intros st; [reflexivity|].
  rewrite fold_left_cons, flat_map_step, fold_left_app.
  rewrite root_step_unfold, tests_fold_improve. apply IH.
Qed.

(** C5 (amended): the identifier keeps the first pair of greatest score
    in the order it meets the matching pairs, the roots in the order of
    its pitch-class list and the shapes in table order (every pair met
    earlier scores strictly less, no pair scores more); when no shape
    matches at any root it returns the lowest pitch class with the
    symbol ["<root>?"] and the type [unknown]. *)
Theorem identify_chord_first_greatest :
  pitch_classes <> [] ->
  ((forall root test,
       In root pitch_classes -> In test chord_tests ->
       ~ test_required test ⊆ intervals_from root pitch_classes) ->
   _identify_chord pitch_classes key_estimate pc_weights
   = (String.append (nth (min_pc pitch_classes) key_names "") "?",
      "unknown"))
  /\ ((exists root test,
          In root pitch_classes /\ In test chord_tests
          /\ test_required test ⊆ intervals_from root pitch_classes) ->
      exists c,
        first_max score (identify_candidates pitch_classes) c
        /\ _identify_chord pitch_classes key_estimate pc_weights
           = candidate_label c).
Proof.
  intros Hne.
  assert (Hid : _identify_chord pitch_classes key_estimate pc_weights
                = let '(best_score, best_match) :=
                    identify_state
                      (fold_left (improve score)
                                 (identify_candidates pitch_classes)
                                 (0, None)) in
                  match best_match with
                  | Some (symbol, chord_type, root) => (symbol, chord_type)
                  | None =>
                      (String.append
                         (nth (min_pc pitch_classes) key_names "") "?",
                       "unknown")
                  end).
  { rewrite (identify_chord_fold Hne). unfold identify_candidates.
    rewrite <- roots_fold_improve. reflexivity. }
  rewrite Hid. clear Hid.
  destruct (fold_improve score (identify_candidates pitch_classes) 0 None)
    as [[Heq Hall]|(c & Heq & Hlt & Hfm)]; rewrite Heq.
  - split; [reflexivity|].
    intros (root & test & Hroot & Htest & Hsub). exfalso.
    assert (Hin : In (root, test) (identify_candidates pitch_classes)).
    { apply identify_candidates_In. simpl. tauto. }
    rewrite List.Forall_forall in Hall. specialize (Hall _ Hin).
    pose proof (candidate_score_pos pitch_classes key_estimate pc_weights
                  _ Hin) as Hpos.
    fold score in Hpos. lra.
  - split.
    + intros Hnone. exfalso.
      apply first_max_In in Hfm. apply identify_candidates_In in Hfm.
      destruct Hfm as (Hroot & Htest & Hsub).
      exact (Hnone _ _ Hroot Htest Hsub).
    + intros _. exists c. split; [exact Hfm|]. reflexivity.
Qed.
End IdentifyChord.

Lemma identify_chord_first_greatest_witness :
  (exists root test,
      In root augmented_pcs /\ In test chord_tests
      /\ test_required test ⊆ intervals_from root augmented_pcs)
  /\ exists c,
      first_max (candidate_score augmented_pcs uncertain_key
                                 augmented_weights)
                (identify_candidates augmented_pcs) c
      /\ _identify_chord augmented_pcs uncertain_key augmented_weights
         = candidate_label c.
Proof.
  assert (Hne : augmented_pcs <> []) by discriminate.
  assert (Hm : exists root test,
             In root augmented_pcs /\ In test chord_tests
             /\ test_required test ⊆ intervals_from root augmented_pcs).
  { exists 8%nat, aug_test. split; [left; reflexivity|].
    split.
    - unfold chord_tests, aug_test. do 9 right. left. reflexivity.
    - apply (bool_decide_eq_true_1 _). vm_compute. reflexivity. }
  split; [exact Hm|].
  exact (proj2 (identify_chord_first_greatest augmented_pcs uncertain_key
                  augmented_weights Hne) Hm).
Defined.
(** ** Pitch smoothing *)

(** C6 (counterexample): on three notes of one pitch class with the
    confidences 0.9, 0.8, 0.7 the smoother returns 0.8, 0.8, 0.7, the
    zero-padded median of [scipy.signal.medfilt]; the edge-replicated
    centred median filter gives 0.9, 0.8, 0.7. *)
Lemma smoother_pads_with_zeros :
  Forall2 Qeq
    (map Note.confidence (PitchSmoother.smooth_pitch_activity three_c_notes))
    [8 # 10; 8 # 10; 7 # 10]
  /\ Forall2 Qeq
       (medfilt_edge_replicated (map Note.confidence three_c_notes) 3)
       [9 # 10; 8 # 10; 7 # 10]
  /\ ~ Forall2 Qeq
       (map Note.confidence
            (PitchSmoother.smooth_pitch_activity three_c_notes))
       (medfilt_edge_replicated (map Note.confidence three_c_notes) 3).
Proof.
  split; [vm_compute; repeat constructor|].
  split; [vm_compute; repeat constructor|].
  vm_compute. intros H. inversion H as [|? ? ? ? Hq _]. discriminate Hq.
Qed.

(** *** Grouping by pitch class *)

Lemma group_append_get (pc : nat) (note : NoteEvent)
  (pc_events : list (nat * list NoteEvent)) (q : nat) :
  group_get q (group_append pc note pc_events)
  = if Nat.eqb pc q then group_get q pc_events ++ [note]
    else group_get q pc_events.
Proof.
  induction pc_events as [|[k evs] rest IH].
  - unfold group_get. simpl. destruct (Nat.eqb pc q); reflexivity.
  - simpl. destruct (Nat.eqb k pc) eqn:E.
    + apply Nat.eqb_eq in E. subst k. unfold group_get. simpl.
      destruct (Nat.eqb pc q); reflexivity.
    + unfold group_get in *. simpl.
      destruct (Nat.eqb k q) eqn:E2.
      * apply Nat.eqb_eq in E2. subst q. rewrite Nat.eqb_sym, E. reflexivity.
      * exact IH.
Qed.

Lemma group_fold_get (note_events : list NoteEvent) (q : nat) :
  forall pc_events,
    group_get q
      (fold_left (fun pc_events note =>
                    group_append (Note.pitch_class note) note pc_events)
                 note_events pc_events)
    = group_get q pc_events ++ notes_of_pc q note_events.
Proof.
  induction note_events as [|note rest IH]; intros pc_events; simpl.
  - now rewrite app_nil_r.
  - rewrite IH, group_append_get.
    destruct (Nat.eqb (Note.pitch_class note) q); [|reflexivity].
    now rewrite <- app_assoc.
Qed.

Lemma group_by_get (note_events : list NoteEvent) (q : nat) :
  group_get q (group_by_pitch_class note_events) = notes_of_pc q note_events.
Proof. unfold group_by_pitch_class. now rewrite group_fold_get. Qed.

Lemma group_append_keys (pc : nat) (note : NoteEvent)
  (pc_events : list (nat * list NoteEvent)) (k : nat) :
  In k (map fst (group_append pc note pc_events)) ->
  k = pc \/ In k (map fst pc_events).
Proof.
  induction pc_events as [|[k' evs] rest IH]; simpl.
  - intros [<-|[]]. now left.
  - destruct (Nat.eqb k' pc); simpl; intros [<-|H]; try tauto;
      destruct (IH H); tauto.
Qed.

Lemma group_append_NoDup (pc : nat) (note : NoteEvent)
  (pc_events : list (nat * list NoteEvent)) :
  List.NoDup (map fst pc_events) ->
  List.NoDup (map fst (group_append pc note pc_events)).
Proof.
  induction pc_events as [|[k evs] rest IH]; simpl; intros H.
  - constructor; [intros []|constructor].
  - destruct (Nat.eqb k pc) eqn:E; simpl; [exact H|].
    apply List.NoDup_cons_iff in H. destruct H as [Hk Hrest].
    apply List.NoDup_cons_iff. split; [|now apply IH].
    intros Hin. apply group_append_keys in Hin.
    destruct Hin as [->|Hin]; [|contradiction].
    rewrite Nat.eqb_refl in E. discriminate.
Qed.

Lemma group_by_NoDup (note_events : list NoteEvent) :
  List.NoDup (map fst (group_by_pitch_class note_events)).
Proof.
  unfold group_by_pitch_class.
  assert (H : forall pc_events,
             List.NoDup (map fst pc_events) ->
             List.NoDup
               (map fst
                  (fold_left
                     (fun pc_events note =>
                        group_append (Note.pitch_class note) note pc_events)
                     note_events pc_events))).
  { induction note_events as [|note rest IH]; intros pc_events Hnd; simpl.
    - exact Hnd.
    - apply IH. now apply group_append_NoDup. }
  apply H. constructor.
Qed.

Lemma group_get_In (pc_events : list (nat * list NoteEvent)) (k : nat)
  (evs : list NoteEvent) :
  List.NoDup (map fst pc_events) -> In (k, evs) pc_events ->
  group_get k pc_events = evs.
Proof.
  induction pc_events as [|[k' evs'] rest IH]; simpl; intros Hnd Hin.
  - contradiction.
  - apply List.NoDup_cons_iff in Hnd. destruct Hnd as [Hk Hrest].
    unfold group_get in *. simpl.
    destruct Hin as [Heq|Hin].
    + inversion Heq. subst. now rewrite Nat.eqb_refl.
    + destruct (Nat.eqb k' k) eqn:E; [|now apply IH].
      apply Nat.eqb_eq in E. subst k'. exfalso. apply Hk.
      apply in_map_iff. now exists (k, evs).
Qed.

Lemma notes_of_pc_all (pc : nat) (l : list NoteEvent) :
  Forall (fun n => Note.pitch_class n = pc) l -> notes_of_pc pc l = l.
Proof.
  induction 1 as [|n l Hn _ IH]; simpl; [reflexivity|].
  rewrite Hn, Nat.eqb_refl. now f_equal.
Qed.

Lemma notes_of_pc_none (pc k : nat) (l : list NoteEvent) :
  k <> pc -> Forall (fun n => Note.pitch_class n = k) l ->
  notes_of_pc pc l = [].
Proof.
  intros Hk. induction 1 as [|n l Hn _ IH]; simpl; [reflexivity|].
  rewrite Hn. apply Nat.eqb_neq in Hk. now rewrite Hk.
Qed.

Lemma notes_of_pc_Forall (pc : nat) (l : list NoteEvent) :
  Forall (fun n => Note.pitch_class n = pc) (notes_of_pc pc l).
Proof.
  apply List.Forall_forall. intros n Hin. apply filter_In in Hin.
  destruct Hin as [_ H]. now apply Nat.eqb_eq in H.
Qed.

(** Restricting the concatenated groups to one pitch class leaves the
    processed group of that pitch class. *)
Lemma select_group (f : list NoteEvent -> list NoteEvent)
  (pc_events : list (nat * list NoteEvent)) (pc : nat) :
  f [] = [] ->
  List.NoDup (map fst pc_events) ->
  (forall k evs, In (k, evs) pc_events ->
                 Forall (fun n => Note.pitch_class n = k) (f evs)) ->
  notes_of_pc pc (flat_map (fun '(k, evs) => f evs) pc_events)
  = f (group_get pc pc_events).
Proof.
  intros Hnil. induction pc_events as [|[k evs] rest IH]; intros Hnd Hall.
  - unfold group_get. simpl. now rewrite Hnil.
  - apply List.NoDup_cons_iff in Hnd. destruct Hnd as [Hk Hrest].
    cbn [flat_map]. unfold notes_of_pc. rewrite List.filter_app.
    fold (notes_of_pc pc (f evs)).
    fold (notes_of_pc pc (flat_map (fun '(k, evs) => f evs) rest)).
    rewrite IH; [|exact Hrest|intros; apply Hall; now right].
    assert (Hevs := Hall k evs (or_introl eq_refl)).
    unfold group_get. simpl. destruct (Nat.eqb k pc) eqn:E.
    + apply Nat.eqb_eq in E. subst k. simpl.
      rewrite (notes_of_pc_all pc _ Hevs).
      destruct (find (fun kv => Nat.eqb (fst kv) pc) rest) as [[k' evs']|]
        eqn:Hfind.
      * exfalso. apply find_some in Hfind. destruct Hfind as [Hin Heq].
        apply Nat.eqb_eq in Heq. simpl in Heq. subst k'.
        apply Hk. apply in_map_iff. now exists (pc, evs').
      * now rewrite Hnil, app_nil_r.
    + apply Nat.eqb_neq in E. now rewrite (notes_of_pc_none pc k _ E Hevs).
Qed.

(** *** Processing one group *)

Lemma pitch_class_timing (a b : NoteEvent) :
  timing a = timing b -> Note.pitch_class a = Note.pitch_class b.
Proof.
  unfold timing, Note.pitch_class. intros H. inversion H. reflexivity.
Qed.

Lemma Forall_pitch_class_timing (k : nat) (l l' : list NoteEvent) :
  map timing l' = map timing l ->
  Forall (fun n => Note.pitch_class n = k) l ->
  Forall (fun n => Note.pitch_class n = k) l'.
Proof.
  revert l'. induction l as [|a l IH]; intros [|a' l'] Heq Hall;
    try discriminate; [constructor|].
  cbn [map] in Heq. injection Heq as Hp Hl. unfold timing in Hp.
  apply List.Forall_cons_iff in Hall. destruct Hall as [Hk Hall].
  constructor; [|now apply IH].
  rewrite <- Hk. apply pitch_class_timing. unfold timing. congruence.
Qed.

Lemma update_from_timing (cs : list Q) (events : list NoteEvent) :
  forall s,
    map timing
        (map (fun '(i, event) => with_confidence event (nth i cs 0))
             (combine (seq s (length events)) events))
    = map timing events.
Proof.
  induction events as [|e events IH]; intros s; simpl; [reflexivity|].
  f_equal. apply IH.
Qed.

Lemma update_confidences_timing (events : list NoteEvent) (cs : list Q) :
  map timing (update_confidences events cs) = map timing events.
Proof. apply update_from_timing. Qed.

Lemma update_from_confidence (cs : list Q) (events : list NoteEvent) :
  forall s i,
    (i < length events)%nat ->
    nth i (map Note.confidence
               (map (fun '(i, event) => with_confidence event (nth i cs 0))
                    (combine (seq s (length events)) events))) 0
    = nth (s + i) cs 0.
Proof.
  induction events as [|e events IH]; intros s i Hi; simpl in *; [lia|].
  destruct i as [|i].
  - now rewrite Nat.add_0_r.
  - rewrite IH by lia. f_equal. lia.
Qed.

Lemma update_confidences_nth (events : list NoteEvent) (cs : list Q)
  (i : nat) :
  (i < length events)%nat ->
  nth i (map Note.confidence (update_confidences events cs)) 0 = nth i cs 0.
Proof. intros Hi. unfold update_confidences. now rewrite update_from_confidence. Qed.

Lemma smooth_group_timing (filter_size : nat) (events : list NoteEvent) :
  map timing (PitchSmoother.smooth_group filter_size events)
  = map timing (sort_by Note.onset events).
Proof.
  unfold PitchSmoother.smooth_group.
  destruct (length events <=? 1)%nat eqn:E.
  - apply Nat.leb_le in E. now rewrite sort_by_short.
  - destruct (filter_size <=? _)%nat; [|reflexivity].
    apply update_confidences_timing.
Qed.

Lemma smooth_group_short (events : list NoteEvent) :
  (length events < 3)%nat ->
  PitchSmoother.smooth_group 3 events = sort_by Note.onset events.
Proof.
  intros Hlen. unfold PitchSmoother.smooth_group.
  destruct (length events <=? 1)%nat eqn:E.
  - apply Nat.leb_le in E. now rewrite sort_by_short.
  - rewrite length_map, sort_by_length.
    destruct (3 <=? length events)%nat eqn:E3; [|reflexivity].
    apply Nat.leb_le in E3. lia.
Qed.

Lemma smooth_group_long (events : list NoteEvent) :
  (3 <= length events)%nat ->
  PitchSmoother.smooth_group 3 events
  = update_confidences
      (sort_by Note.onset events)
      (medfilt (map Note.confidence (sort_by Note.onset events)) 3).
Proof.
  intros Hlen. unfold PitchSmoother.smooth_group.
  destruct (length events <=? 1)%nat eqn:E.
  - apply Nat.leb_le in E. lia.
  - rewrite length_map, sort_by_length.
    destruct (3 <=? length events)%nat eqn:E3; [reflexivity|].
    apply Nat.leb_gt in E3. lia.
Qed.

(** *** The zero-padded median of three *)

Lemma window3 {A : Type} (d : A) (l : list A) :
  forall i,
    (i + 3 <= length l)%nat ->
    firstn 3 (skipn i l) = [nth i l d; nth (S i) l d; nth (S (S i)) l d].
Proof.
  induction l as [|x l IH]; intros i Hi; simpl in Hi; [lia|].
  destruct i as [|i].
  - destruct l as [|y [|z l]]; simpl in *; try lia. reflexivity.
  - simpl. apply IH. lia.
Qed.

Lemma zero_padded_nth (cs : list Q) (j : nat) :
  nth j (0 :: cs ++ [0]) 0 = zero_padded cs j.
Proof.
  destruct j as [|j]; simpl; [reflexivity|].
  destruct (Nat.lt_ge_cases j (length cs)) as [H|H].
  - now rewrite app_nth1.
  - rewrite app_nth2 by exact H. rewrite (nth_overflow cs) by exact H.
    destruct (j - length cs)%nat as [|[|k]]; reflexivity.
Qed.

Lemma sort3_median (a b c : Q) :
  nth 1 (sort_by (fun x => x) [a; b; c]) 0 == median3 a b c.
Proof.
  unfold sort_by, median3. cbn [fold_right insert_by].
  destruct (Qmin_cases a b) as [[? ->]|[? ->]];
    destruct (Qmax_cases a b) as [[? ->]|[? ->]];
    match goal with
    | |- context [Qmin ?x c] => destruct (Qmin_cases x c) as [[? ->]|[? ->]]
    end;
    match goal with
    | |- context [Qmax ?x ?y] => destruct (Qmax_cases x y) as [[? ->]|[? ->]]
    end;
    repeat match goal with
      | |- context [Qleb ?x ?y] =>
          destruct (Qleb x y) eqn:?; cbn [insert_by nth]
      end; Qcompare; lra.
Qed.

Lemma medfilt3_nth (cs : list Q) (i : nat) :
  (i < length cs)%nat ->
  nth i (medfilt cs 3) 0
  == median3 (zero_padded cs i) (zero_padded cs (S i))
             (zero_padded cs (S (S i))).
Proof.
  intros Hi. unfold medfilt.
  change (3 / 2)%nat with 1%nat. change (repeat 0 1) with [0].
  set (g := fun i0 : nat =>
              nth 1 (sort_by (fun x : Q => x)
                       (firstn 3 (skipn i0 ([0] ++ cs ++ [0])))) 0).
  rewrite (nth_indep _ 0 (g 0%nat)) by (rewrite length_map, length_seq; lia).
  rewrite map_nth, seq_nth by exact Hi. subst g. cbv beta.
  change ([0] ++ cs ++ [0]) with (0 :: cs ++ [0]).
  rewrite (window3 0) by (simpl; rewrite length_app; simpl; lia).
  rewrite !zero_padded_nth. simpl Nat.add. apply sort3_median.
Qed.

(** *** The smoother *)

Lemma smooth_group_pitch_class (k : nat) (events : list NoteEvent) :
  Forall (fun n => Note.pitch_class n = k) events ->
  Forall (fun n => Note.pitch_class n = k)
         (PitchSmoother.smooth_group 3 events).
Proof.
  intros H.
  apply (Forall_pitch_class_timing k (sort_by Note.onset events)).
  - apply smooth_group_timing.
  - now apply sort_by_Forall.
Qed.

(** The output restricted to one pitch class is the processed group of
    that pitch class. *)
Lemma smooth_pitch_activity_group (note_events : list NoteEvent) (pc : nat) :
  notes_of_pc pc (PitchSmoother.smooth_pitch_activity note_events)
  = PitchSmoother.smooth_group 3 (notes_of_pc pc note_events).
Proof.
  unfold PitchSmoother.smooth_pitch_activity,
    PitchSmoother.smooth_pitch_activity_with.
  change MEDIAN_FILTER_SIZE with 3%nat.
  destruct note_events as [|n l]; [reflexivity|].
  set (notes := n :: l).
  rewrite (select_group (PitchSmoother.smooth_group 3)).
  - now rewrite group_by_get.
  - reflexivity.
  - apply group_by_NoDup.
  - intros k evs Hin. apply smooth_group_pitch_class.
    rewrite <- (group_get_In _ k evs (group_by_NoDup notes) Hin).
    rewrite group_by_get. apply notes_of_pc_Forall.
Qed.

(** C6 (amended): the smoother groups the notes by pitch class and sorts
    each group by onset; every output note has the onset, offset and
    pitch of its input note; a group of fewer than three notes passes
    through with its confidences unchanged; in a group of at least three
    notes the confidence at position [i] is the median of the confidences
    at positions [i - 1], [i], [i + 1] of the sorted group, where a
    position outside the group counts as zero (zero padding). *)
Theorem smooth_pitch_activity_zero_padded (note_events : list NoteEvent)
  (pc : nat) :
  let group := notes_of_pc pc note_events in
  let sorted := sort_by Note.onset group in
  let out :=
    notes_of_pc pc (PitchSmoother.smooth_pitch_activity note_events) in
  let cs := map Note.confidence sorted in
  Permutation sorted group
  /\ StronglySorted onset_le sorted
  /\ map timing out = map timing sorted
  /\ ((length group < 3)%nat -> out = sorted)
  /\ ((3 <= length group)%nat ->
      forall i, (i < length group)%nat ->
        nth i (map Note.confidence out) 0
        == median3 (zero_padded cs i) (zero_padded cs (S i))
                   (zero_padded cs (S (S i)))).
Proof.
  intros group sorted out cs.
  assert (Hout : out = PitchSmoother.smooth_group 3 group)
    by apply smooth_pitch_activity_group.
  split; [apply sort_by_perm|].
  split; [apply (sort_by_sorted Note.onset)|].
  split; [rewrite Hout; apply smooth_group_timing|].
  split.
  - intros Hlen. rewrite Hout. now apply smooth_group_short.
  - intros Hlen i Hi. rewrite Hout, smooth_group_long by exact Hlen.
    fold sorted. fold cs.
    rewrite update_confidences_nth
      by (subst sorted; rewrite sort_by_length; exact Hi).
    apply medfilt3_nth. subst cs sorted.
    rewrite length_map, sort_by_length. exact Hi.
Qed.
(** ** Merging and stability *)

Lemma merge_loop_already_merged (current : ChordEvent)
  (rest : list ChordEvent) :
  already_merged (current :: rest) -> merge_loop current rest = current :: rest.
Proof.
  revert current. induction rest as [|next_chord rest IH]; intros current H.
  - reflexivity.
  - destruct H as [Hno Hrest]. simpl. rewrite Hno.
    f_equal. apply IH. exact Hrest.
Qed.

Lemma merge_already_merged (chords : list ChordEvent) :
  already_merged chords -> _merge_similar_chords chords = chords.
Proof.
  destruct chords as [|current rest]; [reflexivity|].
  apply merge_loop_already_merged.
Qed.

Lemma stability_already_stable (chords : list ChordEvent) :
  already_stable chords -> _ensure_stability chords = chords.
Proof.
  unfold already_stable, _ensure_stability.
  induction 1 as [|chord chords Hc _ IH]; [reflexivity|].
  simpl. apply Qleb_true in Hc. rewrite Hc, IH. reflexivity.
Qed.

(** C9: on a list in which no adjacent pair satisfies the merge criteria
    and every chord lasts at least 0.3 seconds, the merger followed by the
    stability filter returns the list unchanged. *)
Theorem merge_stability_fixpoint (chords : list ChordEvent) :
  already_merged chords ->
  already_stable chords ->
  _ensure_stability (_merge_similar_chords chords) = chords.
Proof.
  intros Hm Hs. rewrite (merge_already_merged chords Hm).
  apply stability_already_stable. exact Hs.
Qed.

Lemma merge_stability_fixpoint_witness :
  already_merged two_chords /\ already_stable two_chords
  /\ _ensure_stability (_merge_similar_chords two_chords) = two_chords.
Proof.
  assert (Hm : already_merged two_chords).
  { simpl. split; [reflexivity|exact I]. }
  assert (Hs : already_stable two_chords).
  { repeat constructor; vm_compute; discriminate. }
  split; [exact Hm|]. split; [exact Hs|].
  exact (merge_stability_fixpoint two_chords Hm Hs).
Defined.
(** ** Window smoothing *)

Import ChordWindowSmoother.

(** The timeline loop ends by its own test: fuel beyond the number of
    grid points does not change the result. *)
Lemma timeline_loop_fuel (n : nat) :
  forall (m : nat) (start_time end_time : Q),
    (end_time - start_time) / timeline_resolution < inject_Z (Z.of_nat n) ->
    (n <= m)%nat ->
    timeline_loop m start_time end_time = timeline_loop n start_time end_time.
Proof.
  unfold timeline_resolution.
  induction n as [|n IH]; intros m s e Hlt Hle.
  - assert (Hse : Qleb s e = false).
    { apply Qleb_false. change (inject_Z (Z.of_nat 0)) with 0 in Hlt.
      assert (Heq : (e - s) / (1 # 2) == 2 * (e - s)) by field.
      rewrite Heq in Hlt. lra. }
    destruct m; simpl; [reflexivity|]. now rewrite Hse.
  - destruct m as [|m]; [lia|]. simpl.
    destruct (Qleb s e); [|reflexivity]. f_equal.
    apply IH; [|lia].
    rewrite Nat2Z.inj_succ in Hlt. unfold Z.succ in Hlt.
    rewrite inject_Z_plus in Hlt.
    unfold timeline_resolution.
    assert (Heq : (e - (s + (1 # 2))) / (1 # 2) == (e - s) / (1 # 2) - 1)
      by field.
    rewrite Heq. change (inject_Z 1) with 1 in Hlt. lra.
Qed.

Lemma timeline_fuel_enough (start_time end_time : Q) (m : nat) :
  (timeline_fuel start_time end_time <= m)%nat ->
  timeline_loop m start_time end_time = timeline start_time end_time.
Proof.
  intros Hm. unfold timeline. apply timeline_loop_fuel; [|exact Hm].
  unfold timeline_fuel.
  set (q := (end_time - start_time) / timeline_resolution).
  pose proof (Qlt_floor q) as Hq.
  eapply Qlt_le_trans; [exact Hq|].
  rewrite <- Zle_Qle. lia.
Qed.

Lemma timeline_short (fuel : nat) (start_time end_time : Q) :
  end_time - start_time < 1 ->
  (length (timeline_loop fuel start_time end_time) < 3)%nat.
Proof.
  intros Hspan.
  destruct fuel as [|[|[|fuel]]]; simpl;
    repeat match goal with
      | |- context [Qleb ?a ?b] => destruct (Qleb a b) eqn:?; simpl
      end; try lia.
  Qcompare. unfold timeline_resolution in *. exfalso. lra.
Qed.

(** On exact rationals: with more than two chords whose span is strictly
    positive and strictly below one second, the 0.5-second grid has fewer
    than three points and the window smoother returns its input
    unchanged.  (The rounded sums of the float grid can reach the end of
    such a span: see [ChordWindowSmoother64].) *)
Lemma smooth_short_span_unchanged (chord_events : list ChordEvent) :
  (2 < length chord_events)%nat ->
  0 < chord_span chord_events ->
  chord_span chord_events < 1 ->
  (length (timeline (list_min (map Chord.onset chord_events))
                    (list_max (map Chord.offset chord_events))) < 3)%nat
  /\ smooth_chord_progression chord_events = chord_events.
Proof.
  intros Hlen Hpos Hlt. unfold chord_span in *.
  pose proof (timeline_short
                (timeline_fuel (list_min (map Chord.onset chord_events))
                               (list_max (map Chord.offset chord_events)))
                _ _ Hlt) as Hshort.
  split; [exact Hshort|].
  unfold smooth_chord_progression.
  destruct (length chord_events <=? 2)%nat eqn:E1.
  { apply Nat.leb_le in E1. lia. }
  destruct (Qleb _ 0) eqn:E2.
  { Qcompare. exfalso. lra. }
  rewrite length_map. fold (timeline (list_min (map Chord.onset chord_events))
                              (list_max (map Chord.offset chord_events))).
  destruct (filter_window <=? _)%nat eqn:E3; [|reflexivity].
  apply Nat.leb_le in E3. unfold timeline in *.
  change filter_window with 3%nat in E3. lia.
Qed.

Lemma smooth_short_span_unchanged_witness :
  (2 < length three_short_chords)%nat
  /\ 0 < chord_span three_short_chords
  /\ chord_span three_short_chords < 1
  /\ smooth_chord_progression three_short_chords = three_short_chords.
Proof.
  assert (H1 : (2 < length three_short_chords)%nat) by (simpl; lia).
  assert (H2 : 0 < chord_span three_short_chords) by reflexivity.
  assert (H3 : chord_span three_short_chords < 1) by reflexivity.
  split; [exact H1|]. split; [exact H2|]. split; [exact H3|].
  exact (proj2 (smooth_short_span_unchanged three_short_chords H1 H2 H3)).
Defined.

(** C7 (defect): the loop that groups consecutive identical symbols also
    ends the current chord at the last grid index, [i ==
    len(smoothed_symbols) - 1], whatever its symbol; the run that reaches
    the end of the grid is therefore emitted as two chords.  On three
    window chords ["C"], ["C"], ["G"] the smoothed labels form the two
    runs ["C"], ["G"], and the smoother returns three chords, the last two
    both ["G"]. *)
Theorem smoother_splits_final_run :
  run_labels (smoothed_labels three_window_chords) = ["C"; "G"]
  /\ map Chord.chord_symbol (smooth_chord_progression three_window_chords)
     = ["C"; "G"; "G"]
  /\ Forall2 Qeq
       (map Chord.onset (smooth_chord_progression three_window_chords))
       [0; 4; 11 # 2]
  /\ Forall2 Qeq
       (map Chord.offset (smooth_chord_progression three_window_chords))
       [4; 11 # 2; 56 # 10].
Proof.
  split; [vm_compute; reflexivity|].
  split; [vm_compute; reflexivity|].
  split; vm_compute; repeat constructor.
Qed.
(** ** Windowed detection: the loop ends by its own test *)

(** Fuel beyond the number of windows does not change the result of the
    window loop. *)
Lemma windows_loop_fuel (events : list NoteEvent) (key_estimate : KeyEstimate)
  (end_time : Q) (n : nat) :
  forall (m : nat) (current_time : Q),
    (end_time - current_time) / window_hop < inject_Z (Z.of_nat n) ->
    (n <= m)%nat ->
    windows_loop m events key_estimate current_time end_time
    = windows_loop n events key_estimate current_time end_time.
Proof.
  unfold window_hop, WINDOW_SIZE, WINDOW_OVERLAP.
  induction n as [|n IH]; intros m s Hlt Hle.
  - assert (Hse : Qltb s end_time = false).
    { apply Qltb_false. change (inject_Z (Z.of_nat 0)) with 0 in Hlt.
      assert (Heq : (end_time - s) / (2 - (2 # 10))
                    == (10 # 18) * (end_time - s)) by field.
      rewrite Heq in Hlt. lra. }
    destruct m; cbn [windows_loop]; [reflexivity|]. now rewrite Hse.
  - destruct m as [|m]; [lia|]. cbn [windows_loop].
    destruct (Qltb s end_time); [|reflexivity]. f_equal.
    apply IH; [|lia].
    rewrite Nat2Z.inj_succ in Hlt. unfold Z.succ in Hlt.
    rewrite inject_Z_plus in Hlt.
    unfold window_hop, WINDOW_SIZE, WINDOW_OVERLAP.
    assert (Heq : (end_time - (s + (2 - (2 # 10)))) / (2 - (2 # 10))
                  == (end_time - s) / (2 - (2 # 10)) - 1) by field.
    rewrite Heq. change (inject_Z 1) with 1 in Hlt. lra.
Qed.

Lemma windows_fuel_enough (events : list NoteEvent)
  (key_estimate : KeyEstimate) (start_time end_time : Q) (m : nat) :
  (windows_fuel start_time end_time <= m)%nat ->
  windows_loop m events key_estimate start_time end_time
  = windows_loop (windows_fuel start_time end_time) events key_estimate
                 start_time end_time.
Proof.
  intros Hm. apply windows_loop_fuel; [|exact Hm].
  unfold windows_fuel.
  set (q := (end_time - start_time) / window_hop).
  pose proof (Qlt_floor q) as Hq.
  eapply Qlt_le_trans; [exact Hq|].
  rewrite <- Zle_Qle. lia.
Qed.

(** ** The main interface *)

Section InterfaceProperties.
Variable corrcoef : list Q -> list Q -> option Q.
Variable str_to_float : string -> option Q.
Variable str_to_int : string -> option Z.

Let convert_record := to_note str_to_float str_to_int.
Let convert := convert_notes str_to_float str_to_int.
Let process := process_note_events corrcoef str_to_float str_to_int.

Lemma process_empty :
  process [] = Returns ([], default_key_info).
Proof. reflexivity. Qed.

(** A record whose conversion raises one of the caught exceptions is
    skipped. *)
Lemma convert_skips (note_dict : gmap string PyValue)
  (rest : list (gmap string PyValue)) (e : PyException) :
  convert_record note_dict = Raises e -> caught e = true ->
  convert (note_dict :: rest) = convert rest.
Proof.
  intros He Hc. unfold convert, convert_record in *. simpl.
  rewrite He, Hc. reflexivity.
Qed.

Lemma process_skips (note_dict : gmap string PyValue)
  (rest : list (gmap string PyValue)) (e : PyException) :
  convert_record note_dict = Raises e -> caught e = true ->
  process (note_dict :: rest) = process rest.
Proof.
  intros He Hc. unfold process, process_note_events.
  fold convert. rewrite (convert_skips _ _ _ He Hc). reflexivity.
Qed.

(** When every record raises a caught exception the result is the
    neutral default. *)
Lemma process_all_skipped (raw_notes : list (gmap string PyValue)) :
  Forall (fun note_dict =>
            exists e, convert_record note_dict = Raises e /\ caught e = true)
         raw_notes ->
  process raw_notes = Returns ([], default_key_info).
Proof.
  induction 1 as [|note_dict rest [e [He Hc]] _ IH].
  - reflexivity.
  - rewrite (process_skips _ _ _ He Hc). exact IH.
Qed.

(** C3 (defect): [float(10**400)] raises [OverflowError], which the
    [except (KeyError, ValueError, TypeError)] clause of the conversion
    loop does not catch: the exception leaves [process_note_events]. *)
Theorem overflow_error_propagates :
  process [huge_onset_record] = Raises OverflowError.
Proof. vm_compute. reflexivity. Qed.

(** C8 (defect): a record with a missing field is not skipped when an
    earlier field overflows [float()]: the [OverflowError] is raised
    before the [KeyError] and aborts the batch, also with a valid record
    after it.  (The same missing [except] case as in C3.) *)
Theorem malformed_record_aborts :
  has_missing_field missing_offset_record
  /\ process [missing_offset_record] = Raises OverflowError
  /\ process [missing_offset_record; valid_record]
     = Raises OverflowError.
Proof.
  split.
  - exists "offset". split; [simpl; tauto|]. vm_compute. reflexivity.
  - split; vm_compute; reflexivity.
Qed.

End InterfaceProperties.
(** ** The pipeline: invariants of the output chords *)

Lemma Forall_filter {A : Type} (P : A -> Prop) (f : A -> bool) (l : list A) :
  Forall P l -> Forall P (List.filter f l).
Proof.
  rewrite !List.Forall_forall. intros H x Hin.
  apply filter_In in Hin. apply H. tauto.
Qed.

Lemma nth_nonneg (l : list Q) (i : nat) :
  Forall (fun x => 0 <= x) l -> 0 <= nth i l 0.
Proof.
  intros H. destruct (Nat.lt_ge_cases i (length l)) as [Hi|Hi].
  - rewrite List.Forall_forall in H. apply H. now apply nth_In.
  - rewrite nth_overflow by exact Hi. apply Qle_refl.
Qed.

Lemma Forall_firstn' {A : Type} (P : A -> Prop) (l : list A) :
  forall k, Forall P l -> Forall P (firstn k l).
Proof.
  induction l as [|x l IH]; intros [|k] H; simpl; try constructor.
  - now apply List.Forall_inv in H.
  - apply IH. now apply List.Forall_inv_tail in H.
Qed.

Lemma Forall_skipn' {A : Type} (P : A -> Prop) (l : list A) :
  forall i, Forall P l -> Forall P (skipn i l).
Proof.
  induction l as [|x l IH]; intros [|i] H; simpl; try assumption.
  apply IH. now apply List.Forall_inv_tail in H.
Qed.

Lemma Forall_window {A : Type} (P : A -> Prop) (l : list A) (i k : nat) :
  Forall P l -> Forall P (firstn k (skipn i l)).
Proof. intros H. apply Forall_firstn'. now apply Forall_skipn'. Qed.

Lemma medfilt_nonneg (cs : list Q) (k : nat) :
  Forall (fun x => 0 <= x) cs -> Forall (fun x => 0 <= x) (medfilt cs k).
Proof.
  intros H. unfold medfilt. apply List.Forall_forall. intros x Hin.
  apply in_map_iff in Hin. destruct Hin as (i & <- & _).
  apply nth_nonneg. apply sort_by_Forall. apply Forall_window.
  apply List.Forall_app. split.
  - apply List.Forall_forall. intros y Hy. apply repeat_spec in Hy.
    subst y. apply Qle_refl.
  - apply List.Forall_app. split; [exact H|].
    apply List.Forall_forall. intros y Hy. apply repeat_spec in Hy.
    subst y. apply Qle_refl.
Qed.

Lemma update_confidences_nonneg (events : list NoteEvent) (cs : list Q) :
  Forall (fun x => 0 <= x) cs ->
  Forall nonneg_confidence (update_confidences events cs).
Proof.
  intros H. unfold update_confidences. apply List.Forall_forall.
  intros n Hin. apply in_map_iff in Hin.
  destruct Hin as ([i e] & <- & _). unfold nonneg_confidence. simpl.
  now apply nth_nonneg.
Qed.

Lemma smooth_group_nonneg (k : nat) (events : list NoteEvent) :
  Forall nonneg_confidence events ->
  Forall nonneg_confidence (PitchSmoother.smooth_group k events).
Proof.
  intros H. unfold PitchSmoother.smooth_group.
  destruct (length events <=? 1)%nat; [exact H|].
  destruct (k <=? _)%nat; [|now apply sort_by_Forall].
  apply update_confidences_nonneg. apply medfilt_nonneg.
  apply List.Forall_map. now apply sort_by_Forall.
Qed.

Lemma smooth_pitch_activity_nonneg (note_events : list NoteEvent) :
  Forall nonneg_confidence note_events ->
  Forall nonneg_confidence (PitchSmoother.smooth_pitch_activity note_events).
Proof.
  intros H. unfold PitchSmoother.smooth_pitch_activity,
    PitchSmoother.smooth_pitch_activity_with.
  destruct note_events as [|n l]; [constructor|].
  set (notes := n :: l) in *.
  apply List.Forall_flat_map. apply List.Forall_forall.
  intros [k evs] Hin. apply smooth_group_nonneg.
  rewrite <- (group_get_In _ k evs (group_by_NoDup notes) Hin).
  rewrite group_by_get. now apply Forall_filter.
Qed.

(** *** Window analysis *)

Lemma weight_add_nonneg (pc : nat) (weight : Q) (pc_weights : list (nat * Q)) :
  0 <= weight ->
  Forall (fun x => 0 <= snd x) pc_weights ->
  Forall (fun x => 0 <= snd x) (weight_add pc weight pc_weights).
Proof.
  intros Hw. induction 1 as [|[k w] rest Hk Hrest IH]; simpl.
  - constructor; [simpl; lra|constructor].
  - simpl in Hk. destruct (Nat.eqb k pc).
    + constructor; [simpl; lra|exact Hrest].
    + constructor; [exact Hk|exact IH].
Qed.

Lemma window_weights_nonneg (notes : list NoteEvent) (start_time end_time : Q) :
  Forall nonneg_confidence notes ->
  Forall (fun x => 0 <= snd x) (window_weights notes start_time end_time).
Proof.
  unfold window_weights.
  assert (H : forall acc,
             Forall (fun x : nat * Q => 0 <= snd x) acc ->
             Forall nonneg_confidence notes ->
             Forall (fun x : nat * Q => 0 <= snd x)
               (fold_left
                  (fun pc_weights note =>
                     weight_add (Note.pitch_class note)
                       (Note.confidence note
                        * Qmax 0 (Qmin (Note.offset note) end_time
                                  - Qmax (Note.onset note) start_time))
                       pc_weights)
                  notes acc)).
  { induction notes as [|n l IH]; intros acc Hacc Hn; simpl; [exact Hacc|].
    apply List.Forall_cons_iff in Hn. destruct Hn as [Hc Hl].
    apply IH; [|exact Hl]. apply weight_add_nonneg; [|exact Hacc].
    apply Qmult_le_0_compat; [exact Hc|].
    destruct (Qmax_cases 0 (Qmin (Note.offset n) end_time
                            - Qmax (Note.onset n) start_time))
      as [[? ->]|[? ->]]; lra. }
  intros Hn. apply H; [constructor|exact Hn].
Qed.

Lemma Qsum_nonneg (l : list Q) : Forall (fun x => 0 <= x) l -> 0 <= Qsum l.
Proof.
  unfold Qsum.
  assert (H : forall a, 0 <= a -> Forall (fun x => 0 <= x) l ->
                        0 <= fold_left Qplus l a).
  { induction l as [|x l IH]; intros a Ha Hl; simpl; [exact Ha|].
    apply List.Forall_cons_iff in Hl. destruct Hl as [Hx Hl].
    apply IH; [lra|exact Hl]. }
  apply H. apply Qle_refl.
Qed.

Lemma fold_min_In (l : list nat) :
  forall x, In (fold_left Nat.min l x) (x :: l).
Proof.
  induction l as [|y l IH]; intros x; simpl; [now left|].
  destruct (IH (Nat.min x y)) as [H|H]; [|right; right; exact H].
  rewrite <- H.
  destruct (Nat.min_spec x y) as [[_ ->]|[_ ->]];
    [left|right; left]; reflexivity.
Qed.

Lemma min_pc_In (l : list nat) : l <> [] -> In (min_pc l) l.
Proof.
  destruct l as [|x l]; [congruence|]. intros _. apply fold_min_In.
Qed.

Lemma analyze_window_sound (notes : list NoteEvent) (start_time end_time : Q)
  (key_estimate : KeyEstimate) (chord : ChordEvent) :
  Forall nonneg_confidence notes ->
  _analyze_window notes start_time end_time key_estimate = Some chord ->
  chord_sound chord
  /\ Chord.onset chord = start_time /\ Chord.offset chord = end_time.
Proof.
  intros Hn. unfold _analyze_window.
  destruct notes as [|n l]; [discriminate|].
  pose proof (window_weights_nonneg (n :: l) start_time end_time Hn) as Hw.
  destruct (window_weights (n :: l) start_time end_time) as [|kw W'];
    [discriminate|].
  assert (Hs : Forall (fun x => 0 <= x) (map snd (kw :: W'))).
  { apply (proj2 (List.Forall_map snd (fun x => 0 <= x) (kw :: W'))).
    exact Hw. }
  destruct (length (significant_pitch_classes (kw :: W'))
            <? MIN_NOTES_PER_CHORD)%nat eqn:Elen; [discriminate|].
  destruct (_identify_chord (significant_pitch_classes (kw :: W'))
              key_estimate (Some (kw :: W'))) as [symbol ty].
  intros Heq. injection Heq as <-. unfold chord_sound.
  cbn [Chord.confidence Chord.root_pc Chord.pitch_classes Chord.onset
       Chord.offset].
  split; [|split; reflexivity]. split.
  - match goal with
    | |- context [Qmin ?a 1] =>
        assert (Havg : 0 <= a);
        [|destruct (Qmin_cases a 1) as [[? ->]|[? ->]]; lra]
    end.
    unfold Qdiv. apply Qmult_le_0_compat.
    + apply Qsum_nonneg. exact Hs.
    + apply Qinv_le_0_compat. change 0 with (inject_Z 0).
      rewrite <- Zle_Qle. lia.
  - apply elem_of_list_to_set. apply list_elem_of_In. apply min_pc_In.
    apply Nat.ltb_ge in Elen. unfold MIN_NOTES_PER_CHORD in Elen.
    intros Hnil. rewrite Hnil in Elen. simpl in Elen. lia.
Qed.

(** *** Windowed detection *)

Lemma windows_loop_sound (events : list NoteEvent)
  (key_estimate : KeyEstimate) (end_time : Q) (fuel : nat) :
  Forall nonneg_confidence events ->
  forall current_time,
    Forall chord_sound
           (windows_loop fuel events key_estimate current_time end_time).
Proof.
  intros Hn. induction fuel as [|fuel IH]; intros current_time;
    cbn [windows_loop]; [constructor|].
  destruct (Qltb current_time end_time); [|constructor].
  apply List.Forall_app. split; [|apply IH].
  match goal with
  | |- Forall _ (if ?b then _ else _) => destruct b; [|constructor]
  end.
  match goal with
  | |- Forall _ (match ?x with _ => _ end) =>
      destruct x as [chord|] eqn:E; [|constructor]
  end.
  constructor; [|constructor].
  apply analyze_window_sound in E; [tauto|]. now apply Forall_filter.
Qed.

Lemma detect_chords_sound (events : list NoteEvent)
  (key_estimate : KeyEstimate) :
  Forall nonneg_confidence events ->
  Forall chord_sound (_detect_chords_in_windows events key_estimate).
Proof.
  intros Hn. unfold _detect_chords_in_windows.
  destruct events as [|n l]; [constructor|].
  apply windows_loop_sound. now apply sort_by_Forall.
Qed.

(** *** Window smoothing, merging and stability *)

Lemma end_chord_sound (chord_events : list ChordEvent) (symbol : string)
  (onset offset : Q) (smoothed_chords : list ChordEvent) :
  Forall chord_sound chord_events ->
  Forall chord_sound smoothed_chords ->
  Forall chord_sound
         (ChordWindowSmoother.end_chord chord_events symbol onset offset
                                        smoothed_chords).
Proof.
  intros Hin Hacc. unfold ChordWindowSmoother.end_chord.
  destruct (negb (String.eqb symbol "N")); [|exact Hacc].
  destruct (find _ chord_events) as [original|] eqn:E; [|exact Hacc].
  apply find_some in E. destruct E as [Ho _].
  rewrite List.Forall_forall in Hin. specialize (Hin _ Ho).
  apply List.Forall_app. split; [exact Hacc|].
  constructor; [|constructor]. exact Hin.
Qed.

Lemma segment_fold_sound (chord_events : list ChordEvent)
  (smoothed_symbols : list string) (timeline_points : list Q)
  (indices : list nat) :
  Forall chord_sound chord_events ->
  forall st,
    Forall chord_sound (snd st) ->
    Forall chord_sound
           (snd (fold_left
                   (ChordWindowSmoother.segment_step
                      chord_events smoothed_symbols timeline_points)
                   indices st)).
Proof.
  intros Hin. induction indices as [|i indices IH]; intros st Hst;
    [exact Hst|].
  cbn [fold_left]. apply IH.
  destruct st as [[current_symbol current_start] acc].
  unfold ChordWindowSmoother.segment_step.
  match goal with
  | |- context [if ?b then _ else _] => destruct b
  end; [|exact Hst].
  cbn [snd]. now apply end_chord_sound.
Qed.

Lemma smooth_chord_progression_sound (chord_events : list ChordEvent) :
  Forall chord_sound chord_events ->
  Forall chord_sound
         (ChordWindowSmoother.smooth_chord_progression chord_events).
Proof.
  intros Hin. unfold ChordWindowSmoother.smooth_chord_progression.
  destruct (length chord_events <=? 2)%nat; [exact Hin|].
  destruct (Qleb _ 0); [exact Hin|].
  match goal with
  | |- context [if ?b then _ else _] => destruct b
  end; [|exact Hin].
  unfold ChordWindowSmoother.resegment.
  match goal with
  | |- Forall _ (match ?l with [] => _ | _ :: _ => _ end) =>
      destruct l as [|first_symbol rest] eqn:El
  end; [constructor|].
  rewrite <- El.
  match goal with
  | |- context [fold_left (ChordWindowSmoother.segment_step ?ce ?ss ?tp)
                          ?idx ?st] =>
      pose proof (segment_fold_sound ce ss tp idx Hin st
                    (List.Forall_nil _)) as Hfold;
      destruct (fold_left (ChordWindowSmoother.segment_step ce ss tp) idx st)
        as [[current_symbol current_start] acc]
  end.
  now apply end_chord_sound.
Qed.

Lemma merge_pair_sound (current next_chord : ChordEvent) :
  chord_sound current -> chord_sound next_chord ->
  chord_sound (merge_pair current next_chord).
Proof.
  unfold chord_sound, merge_pair. intros [[H1 H2] H3] [[H4 H5] H6].
  cbn [Chord.confidence Chord.root_pc Chord.pitch_classes].
  split; [|apply elem_of_union; now left].
  split.
  - apply Qle_shift_div_l; lra.
  - apply Qle_shift_div_r; lra.
Qed.

Lemma merge_loop_sound (rest : list ChordEvent) :
  forall current,
    chord_sound current -> Forall chord_sound rest ->
    Forall chord_sound (merge_loop current rest).
Proof.
  induction rest as [|next_chord rest IH]; intros current Hc Hrest;
    cbn [merge_loop].
  - constructor; [exact Hc|constructor].
  - apply List.Forall_cons_iff in Hrest. destruct Hrest as [Hn Hrest].
    destruct (should_merge current next_chord).
    + apply IH; [now apply merge_pair_sound|exact Hrest].
    + constructor; [exact Hc|]. now apply IH.
Qed.

Lemma merge_similar_chords_sound (chords : list ChordEvent) :
  Forall chord_sound chords -> Forall chord_sound (_merge_similar_chords chords).
Proof.
  intros H. unfold _merge_similar_chords.
  destruct chords as [|current rest]; [constructor|].
  apply List.Forall_cons_iff in H. now apply merge_loop_sound.
Qed.

Lemma ensure_stability_ok (chords : list ChordEvent) :
  Forall chord_sound chords -> Forall chord_ok (_ensure_stability chords).
Proof.
  intros H. unfold _ensure_stability. apply List.Forall_forall.
  intros chord Hin. apply filter_In in Hin. destruct Hin as [Hin Hd].
  rewrite List.Forall_forall in H. destruct (H _ Hin) as [Hc Hr].
  apply Qleb_true in Hd. unfold chord_duration, MIN_CHORD_DURATION in Hd.
  unfold chord_ok, MIN_CHORD_DURATION.
  split; [exact Hc|]. split; [exact Hd|]. split; [lra|exact Hr].
Qed.

Section PipelineInvariant.
Variable corrcoef : list Q -> list Q -> option Q.

(** C1: every chord of the final output of the pipeline has its
    confidence in [0, 1], lasts at least 0.3 seconds (hence starts
    before it ends), and has its root among its pitch classes. *)
Theorem infer_chords_output_ok (note_events : list NoteEvent) :
  Forall well_typed_note note_events ->
  Forall chord_ok (fst (infer_chords corrcoef note_events)).
Proof.
  intros Hwt.
  assert (Hn : Forall nonneg_confidence note_events).
  { eapply List.Forall_impl; [|exact Hwt].
    intros n (_ & _ & Hc & _). exact Hc. }
  unfold infer_chords. cbn [fst].
  apply ensure_stability_ok, merge_similar_chords_sound,
    smooth_chord_progression_sound.
  unfold _apply_harmony_filtering. apply Forall_filter.
  apply detect_chords_sound.
  unfold _apply_key_filtering.
  match goal with
  | |- context [if ?b then _ else _] => destruct b
  end; [|apply Forall_filter];
    unfold _filter_short_notes; apply Forall_filter;
    now apply smooth_pitch_activity_nonneg.
Qed.
End PipelineInvariant.

Lemma infer_chords_output_ok_witness :
  Forall well_typed_note test_notes
  /\ Forall chord_ok (fst (infer_chords rational_corrcoef test_notes)).
Proof.
  assert (Hwt : Forall well_typed_note test_notes).
  { unfold test_notes, well_typed_note.
    repeat constructor; vm_compute; congruence. }
  split; [exact Hwt|].
  exact (infer_chords_output_ok rational_corrcoef test_notes Hwt).
Defined.
(** ** The pipeline: order and overlap of the output chords *)

Lemma fold_left_ext {S B : Type} (f g : S -> B -> S) (l : list B) :
  (forall s x, f s x = g s x) ->
  forall s, fold_left f l s = fold_left g l s.
Proof.
  intros H. induction l as [|x l IH]; intros s; simpl; [reflexivity|].
  rewrite H. apply IH.
Qed.

(** *** The stages after key estimation read the key through its class *)

Section KeyEquivalence.
Variables k k' : KeyEstimate.
Hypothesis Hk : key_equiv k k'.

Lemma scale_pcs_equiv : scale_pcs k = scale_pcs k'.
Proof.
  destruct Hk as (Hpc & Hmode & _). unfold scale_pcs.
  now rewrite Hpc, Hmode.
Qed.

Lemma is_in_key_equiv (pc : nat) : _is_in_key pc k = _is_in_key pc k'.
Proof.
  unfold _is_in_key. rewrite scale_pcs_equiv.
  destruct Hk as (_ & _ & -> & _). reflexivity.
Qed.

Lemma apply_key_filtering_equiv (events : list NoteEvent) :
  _apply_key_filtering events k = _apply_key_filtering events k'.
Proof.
  unfold _apply_key_filtering. rewrite scale_pcs_equiv.
  destruct Hk as (_ & _ & -> & _). reflexivity.
Qed.

Lemma chord_score_equiv (root : nat) (ints : gset nat) (bonus : Q)
  (test : chord_test) :
  chord_score root ints bonus k test = chord_score root ints bonus k' test.
Proof.
  unfold chord_score. destruct test as [[[required ty] suffix] base].
  rewrite is_in_key_equiv.
  destruct Hk as (-> & -> & _). reflexivity.
Qed.

Lemma test_step_equiv (root : nat) (ints : gset nat) (bonus : Q)
  (st : match_state) (test : chord_test) :
  test_step root ints bonus k st test = test_step root ints bonus k' st test.
Proof.
  unfold test_step. destruct test as [[[required ty] suffix] base].
  now rewrite chord_score_equiv.
Qed.

Lemma root_step_equiv (pcs : list nat) (w : option (list (nat * Q)))
  (st : match_state) (root : nat) :
  root_step pcs k w st root = root_step pcs k' w st root.
Proof.
  unfold root_step. apply fold_left_ext. intros s x. apply test_step_equiv.
Qed.

Lemma identify_chord_equiv (pcs : list nat) (w : option (list (nat * Q))) :
  _identify_chord pcs k w = _identify_chord pcs k' w.
Proof.
  unfold _identify_chord. destruct pcs as [|pc pcs]; [reflexivity|].
  rewrite (fold_left_ext _ (root_step (pc :: pcs) k' w));
    [reflexivity|].
  intros s x. apply root_step_equiv.
Qed.

Lemma analyze_window_equiv (notes : list NoteEvent) (s e : Q) :
  _analyze_window notes s e k = _analyze_window notes s e k'.
Proof.
  unfold _analyze_window. destruct notes as [|n l]; [reflexivity|].
  destruct (window_weights (n :: l) s e) as [|kw W]; [reflexivity|].
  now rewrite identify_chord_equiv.
Qed.

Lemma windows_loop_equiv (events : list NoteEvent) (end_time : Q)
  (fuel : nat) :
  forall current_time,
    windows_loop fuel events k current_time end_time
    = windows_loop fuel events k' current_time end_time.
Proof.
  induction fuel as [|fuel IH]; intros current_time; cbn [windows_loop];
    [reflexivity|].
  now rewrite analyze_window_equiv, IH.
Qed.

Lemma detect_chords_equiv (events : list NoteEvent) :
  _detect_chords_in_windows events k = _detect_chords_in_windows events k'.
Proof.
  unfold _detect_chords_in_windows. destruct events; [reflexivity|].
  apply windows_loop_equiv.
Qed.

Lemma harmony_keep_equiv (chords : list ChordEvent) (chord : ChordEvent) :
  harmony_keep chords k chord = harmony_keep chords k' chord.
Proof.
  unfold harmony_keep, _is_chord_root_in_key. rewrite is_in_key_equiv.
  destruct Hk as (_ & _ & _ & ->). reflexivity.
Qed.

Lemma harmony_filtering_equiv (chords : list ChordEvent) :
  _apply_harmony_filtering chords k = _apply_harmony_filtering chords k'.
Proof.
  unfold _apply_harmony_filtering. apply filter_ext.
  intros chord. apply harmony_keep_equiv.
Qed.

Lemma chords_from_key_equiv (events : list NoteEvent) :
  chords_from_key events k = chords_from_key events k'.
Proof.
  unfold chords_from_key.
  now rewrite apply_key_filtering_equiv, detect_chords_equiv,
    harmony_filtering_equiv.
Qed.
End KeyEquivalence.

(** *** The key estimates the detector can return *)

Lemma first_candidate : In (0%nat, "major") key_candidates.
Proof. unfold key_candidates. simpl. left. reflexivity. Qed.

Lemma estimate_key_shape (corrcoef : list Q -> list Q -> option Q)
  (note_events : list NoteEvent) :
  exists c q,
    In c key_candidates
    /\ KeyDetector.estimate_key corrcoef note_events
       = Key.mk (fst c) (snd c) q.
Proof.
  unfold KeyDetector.estimate_key, KeyDetector.estimate_key_with.
  destruct note_events as [|n l].
  { exists (0%nat, "major"), 0. split; [apply first_candidate|reflexivity]. }
  destruct (Qeq_bool _ 0).
  { exists (0%nat, "major"), 0. split; [apply first_candidate|reflexivity]. }
  rewrite best_key_improve.
  match goal with
  | |- context [fold_left (improve ?sc) key_candidates ?st] =>
      destruct (fold_improve sc key_candidates (- (1)) None)
        as [[Heq _]|(c & Heq & _ & Hfm)]; rewrite Heq
  end.
  - eexists (0%nat, "major"), _. split; [apply first_candidate|reflexivity].
  - destruct c as [r m]. eexists (r, m), _.
    split; [apply (first_max_In _ _ _ Hfm)|reflexivity].
Qed.

Lemma representative_exists (c : nat * string) (q : Q) :
  In c key_candidates ->
  exists k0,
    In k0 representative_keys /\ key_equiv (Key.mk (fst c) (snd c) q) k0.
Proof.
  intros Hin. unfold representative_keys, key_equiv.
  destruct (Qltb q (1 # 2)) eqn:E1.
  - exists (Key.mk (fst c) (snd c) 0). split.
    + apply in_flat_map. exists c. split; [exact Hin|]. simpl. tauto.
    + cbn [Key.key_pc Key.mode Key.confidence]. rewrite E1.
      assert (E2 : Qltb q (6 # 10) = true)
        by (apply Qltb_true; apply Qltb_true in E1; lra).
      rewrite E2. repeat split; reflexivity.
  - destruct (Qltb q (6 # 10)) eqn:E2.
    + exists (Key.mk (fst c) (snd c) (55 # 100)). split.
      * apply in_flat_map. exists c. split; [exact Hin|]. simpl. tauto.
      * cbn [Key.key_pc Key.mode Key.confidence]. rewrite E1, E2.
        repeat split; reflexivity.
    + exists (Key.mk (fst c) (snd c) 1). split.
      * apply in_flat_map. exists c. split; [exact Hin|]. simpl. tauto.
      * cbn [Key.key_pc Key.mode Key.confidence]. rewrite E1, E2.
        repeat split; reflexivity.
Qed.

Lemma first_two_overlap_spec (chords : list ChordEvent) :
  first_two_overlap chords = true -> ~ pairwise_non_overlapping chords.
Proof.
  destruct chords as [|a [|b rest]]; try discriminate.
  cbn [first_two_overlap]. intros H Hno.
  apply andb_true_iff in H. destruct H as [H1 H2]. Qcompare.
  unfold pairwise_non_overlapping in Hno.
  inversion Hno as [|? ? Hall _]. subst.
  apply List.Forall_inv in Hall. destruct Hall as [Ha|Ha]; lra.
Qed.

Lemma infer_chords_from_key (corrcoef : list Q -> list Q -> option Q)
  (note_events : list NoteEvent) :
  fst (infer_chords corrcoef note_events)
  = chords_from_key
      (_filter_short_notes (PitchSmoother.smooth_pitch_activity note_events))
      (KeyDetector.estimate_key corrcoef
         (_filter_short_notes
            (PitchSmoother.smooth_pitch_activity note_events))).
Proof. reflexivity. Qed.

(** C2 (counterexample): a C major triad on [0, 1.8] followed by a D major
    triad on [2, 3.6] gives, whatever the correlation function computes,
    two output chords that overlap: the detection windows [0, 2] and
    [1.8, 3.8] overlap by [WINDOW_OVERLAP], two chords pass the window
    smoother unchanged, and chords with different symbols and roots are
    not merged. *)
Lemma overlapping_windows_survive :
  Forall well_typed_note two_triads
  /\ ~ exists corrcoef,
         pairwise_non_overlapping (fst (infer_chords corrcoef two_triads)).
Proof.
  split.
  { unfold two_triads, well_typed_note.
    repeat constructor; vm_compute; congruence. }
  intros [corrcoef Hno]. rewrite infer_chords_from_key in Hno.
  set (filtered := _filter_short_notes
                     (PitchSmoother.smooth_pitch_activity two_triads)) in *.
  destruct (estimate_key_shape corrcoef filtered) as (c & q & Hc & Hkey).
  rewrite Hkey in Hno.
  destruct (representative_exists c q Hc) as (k0 & Hk0 & Hequiv).
  rewrite (chords_from_key_equiv _ _ Hequiv) in Hno.
  revert Hno. apply first_two_overlap_spec.
  assert (Hall : forallb
                   (fun k => first_two_overlap (chords_from_key filtered k))
                   representative_keys = true)
    by (vm_compute; reflexivity).
  rewrite List.forallb_forall in Hall. now apply Hall.
Qed.
(** *** The output is sorted by onset *)

Import ChordWindowSmoother.

Lemma sorted_filter {A : Type} (R : A -> A -> Prop) (f : A -> bool)
  (l : list A) :
  StronglySorted R l -> StronglySorted R (List.filter f l).
Proof.
  induction 1 as [|x l Hs IH Hall]; simpl; [constructor|].
  destruct (f x); [|exact IH].
  constructor; [exact IH|]. now apply Forall_filter.
Qed.

Lemma analyze_window_times (notes : list NoteEvent) (start_time end_time : Q)
  (key_estimate : KeyEstimate) (chord : ChordEvent) :
  _analyze_window notes start_time end_time key_estimate = Some chord ->
  Chord.onset chord = start_time /\ Chord.offset chord = end_time.
Proof.
  unfold _analyze_window.
  destruct notes as [|n l]; [discriminate|].
  destruct (window_weights (n :: l) start_time end_time) as [|kw W'];
    [discriminate|].
  destruct (_ <? MIN_NOTES_PER_CHORD)%nat; [discriminate|].
  destruct (_identify_chord _ _ _) as [symbol ty].
  intros Heq. injection Heq as <-. split; reflexivity.
Qed.

Lemma windows_loop_sorted (events : list NoteEvent)
  (key_estimate : KeyEstimate) (end_time : Q) (fuel : nat) :
  forall current_time,
    onset_sorted (windows_loop fuel events key_estimate current_time end_time)
    /\ Forall (fun c => current_time <= Chord.onset c)
              (windows_loop fuel events key_estimate current_time end_time).
Proof.
  induction fuel as [|fuel IH]; intros current_time; cbn [windows_loop].
  { split; constructor. }
  destruct (Qltb current_time end_time); [|split; constructor].
  destruct (IH (current_time + window_hop)) as [Hs Hall].
  assert (Hlater : Forall (fun c => current_time < Chord.onset c)
                     (windows_loop fuel events key_estimate
                        (current_time + window_hop) end_time)).
  { eapply List.Forall_impl; [|exact Hall].
    intros c Hc. cbv beta in Hc. unfold window_hop, WINDOW_SIZE,
      WINDOW_OVERLAP in Hc. lra. }
  match goal with
  | |- context [if ?b then _ else _] => destruct b
  end.
  2:{ cbn [app]. split; [exact Hs|].
      eapply List.Forall_impl; [|exact Hlater]. intros c Hc.
      now apply Qlt_le_weak. }
  match goal with
  | |- context [match ?x with Some _ => _ | None => _ end] =>
      destruct x as [chord|] eqn:E
  end.
  2:{ cbn [app]. split; [exact Hs|].
      eapply List.Forall_impl; [|exact Hlater]. intros c Hc.
      now apply Qlt_le_weak. }
  apply analyze_window_times in E. destruct E as [Hon _].
  cbn [app]. split.
  - constructor; [exact Hs|]. unfold onset_lt. rewrite Hon. exact Hlater.
  - constructor; [rewrite Hon; apply Qle_refl|].
    eapply List.Forall_impl; [|exact Hlater]. intros c Hc.
    now apply Qlt_le_weak.
Qed.

Lemma detect_chords_sorted (events : list NoteEvent)
  (key_estimate : KeyEstimate) :
  onset_sorted (_detect_chords_in_windows events key_estimate).
Proof.
  unfold _detect_chords_in_windows. destruct events; [constructor|].
  apply windows_loop_sorted.
Qed.

(** Merging keeps the onsets of some of its input chords, in order. *)
Lemma merge_loop_onsets (P : Q -> Prop) (rest : list ChordEvent) :
  forall current,
    Forall (fun c => P (Chord.onset c)) (current :: rest) ->
    Forall (fun c => P (Chord.onset c)) (merge_loop current rest).
Proof.
  induction rest as [|next_chord rest IH]; intros current H;
    cbn [merge_loop]; [exact H|].
  apply List.Forall_cons_iff in H. destruct H as [Hc H].
  destruct (should_merge current next_chord).
  - apply IH. apply List.Forall_inv_tail in H. constructor; assumption.
  - constructor; [exact Hc|]. now apply IH.
Qed.

Lemma merge_loop_sorted (rest : list ChordEvent) :
  forall current,
    onset_sorted (current :: rest) -> onset_sorted (merge_loop current rest).
Proof.
  unfold onset_sorted.
  induction rest as [|next_chord rest IH]; intros current H;
    cbn [merge_loop]; [exact H|].
  apply StronglySorted_inv in H. destruct H as [Hs Hall].
  destruct (should_merge current next_chord).
  - apply IH. apply StronglySorted_inv in Hs. destruct Hs as [Hs' _].
    apply List.Forall_inv_tail in Hall.
    constructor; [exact Hs'|exact Hall].
  - constructor; [now apply IH|].
    apply (merge_loop_onsets (fun t => Chord.onset current < t)).
    exact Hall.
Qed.

Lemma merge_similar_chords_sorted (chords : list ChordEvent) :
  onset_sorted chords -> onset_sorted (_merge_similar_chords chords).
Proof.
  unfold _merge_similar_chords. destruct chords; [trivial|].
  apply merge_loop_sorted.
Qed.

(** The grid points increase. *)
Lemma timeline_loop_next (fuel : nat) (end_time : Q) :
  forall current_time i,
    (S i < length (timeline_loop fuel current_time end_time))%nat ->
    nth (S i) (timeline_loop fuel current_time end_time) 0
    = nth i (timeline_loop fuel current_time end_time) 0
      + timeline_resolution.
Proof.
  induction fuel as [|fuel IH]; intros current_time i Hi;
    cbn [timeline_loop] in *; [simpl in Hi; lia|].
  destruct (Qleb current_time end_time); [|simpl in Hi; lia].
  cbn [length] in Hi. destruct i as [|i].
  - cbn [nth]. destruct fuel as [|fuel]; cbn [timeline_loop] in *;
      [simpl in Hi; lia|].
    destruct (Qleb (current_time + timeline_resolution) end_time);
      [reflexivity|simpl in Hi; lia].
  - cbn [nth]. apply IH. lia.
Qed.

Lemma timeline_increasing (start_time end_time : Q) (i : nat) :
  (S i < length (timeline start_time end_time))%nat ->
  nth i (timeline start_time end_time) 0
  < nth (S i) (timeline start_time end_time) 0.
Proof.
  intros Hi. unfold timeline in *. rewrite timeline_loop_next by exact Hi.
  unfold timeline_resolution. lra.
Qed.

Lemma sorted_snoc {A : Type} (R : A -> A -> Prop) (l : list A) (y : A) :
  StronglySorted R l -> Forall (fun x => R x y) l ->
  StronglySorted R (l ++ [y]).
Proof.
  induction 1 as [|x l Hs IH Hall]; intros Hy; simpl.
  - constructor; constructor.
  - apply List.Forall_cons_iff in Hy. destruct Hy as [Hxy Hy].
    constructor; [now apply IH|].
    apply List.Forall_app. split; [exact Hall|].
    constructor; [exact Hxy|constructor].
Qed.

Lemma end_chord_sorted (chord_events : list ChordEvent) (symbol : string)
  (onset offset : Q) (acc : list ChordEvent) :
  onset_sorted acc ->
  Forall (fun c => Chord.onset c < onset) acc ->
  onset_sorted (end_chord chord_events symbol onset offset acc)
  /\ forall t, onset < t ->
               Forall (fun c => Chord.onset c < t)
                      (end_chord chord_events symbol onset offset acc).
Proof.
  intros Hs Hall.
  assert (Hkeep : forall t, onset < t ->
                            Forall (fun c => Chord.onset c < t) acc).
  { intros t Ht. eapply List.Forall_impl; [|exact Hall].
    intros c Hc. cbv beta in Hc. lra. }
  unfold end_chord.
  destruct (negb (String.eqb symbol "N")); [|split; assumption].
  destruct (find _ chord_events) as [original|]; [|split; assumption].
  split.
  - apply sorted_snoc; [exact Hs|exact Hall].
  - intros t Ht. apply List.Forall_app. split; [now apply Hkeep|].
    constructor; [exact Ht|constructor].
Qed.

Lemma segment_step_inv (chord_events : list ChordEvent)
  (smoothed_symbols : list string) (timeline_points : list Q) (i : nat)
  (st : segment_state) :
  (forall j, (S j < length timeline_points)%nat ->
             nth j timeline_points 0 < nth (S j) timeline_points 0) ->
  (i < length timeline_points)%nat ->
  segment_inv timeline_points i st ->
  segment_inv timeline_points (S i)
    (segment_step chord_events smoothed_symbols timeline_points st i).
Proof.
  intros Htp Hi (Hs & Hall & Hnext).
  destruct st as [[symbol start] acc]. cbn [fst snd] in *.
  specialize (Hnext Hi).
  unfold segment_step.
  match goal with
  | |- context [if ?b then _ else _] => destruct b
  end.
  - destruct (end_chord_sorted chord_events symbol start
                (nth (i - 1) timeline_points 0 + timeline_resolution)
                acc Hs Hall) as [Hs' Hall'].
    unfold segment_inv. cbn [fst snd].
    split; [exact Hs'|]. split; [now apply Hall'|].
    intros Hi'. now apply Htp.
  - unfold segment_inv. cbn [fst snd].
    split; [exact Hs|]. split; [exact Hall|].
    intros Hi'. specialize (Htp i Hi'). lra.
Qed.

Lemma segment_fold_inv (chord_events : list ChordEvent)
  (smoothed_symbols : list string) (timeline_points : list Q) :
  (forall j, (S j < length timeline_points)%nat ->
             nth j timeline_points 0 < nth (S j) timeline_points 0) ->
  forall len i st,
    (i + len <= length timeline_points)%nat ->
    segment_inv timeline_points i st ->
    segment_inv timeline_points (i + len)
      (fold_left (segment_step chord_events smoothed_symbols timeline_points)
                 (seq i len) st).
Proof.
  intros Htp. induction len as [|len IH]; intros i st Hlen Hinv.
  - rewrite Nat.add_0_r. exact Hinv.
  - cbn [seq fold_left]. replace (i + S len)%nat with (S i + len)%nat by lia.
    apply IH; [lia|]. apply segment_step_inv; [exact Htp|lia|exact Hinv].
Qed.

Lemma smooth_chord_progression_sorted (chord_events : list ChordEvent) :
  onset_sorted chord_events ->
  onset_sorted (smooth_chord_progression chord_events).
Proof.
  intros Hin. unfold smooth_chord_progression.
  destruct (length chord_events <=? 2)%nat; [exact Hin|].
  destruct (Qleb _ 0); [exact Hin|].
  set (tp := timeline (list_min (map Chord.onset chord_events))
                      (list_max (map Chord.offset chord_events))).
  match goal with
  | |- context [if ?b then _ else _] => destruct b
  end; [|exact Hin].
  remember (map (smoothed_symbol (map (active_symbol chord_events) tp))
                (seq 0 (length (map (active_symbol chord_events) tp))))
    as ss eqn:Ess.
  assert (Hlen : length ss = length tp).
  { subst ss. now rewrite length_map, length_seq, length_map. }
  clear Ess. unfold resegment.
  destruct ss as [|first_symbol rest]; [constructor|].
  assert (Htp : forall j, (S j < length tp)%nat ->
                          nth j tp 0 < nth (S j) tp 0)
    by (intros j Hj; now apply timeline_increasing).
  assert (Hpos : (1 <= length tp)%nat) by (rewrite <- Hlen; simpl; lia).
  pose proof (segment_fold_inv chord_events (first_symbol :: rest) tp Htp
                (length (first_symbol :: rest) - 1) 1
                (first_symbol, nth 0 tp 0, [])) as Hfold.
  destruct (fold_left
              (segment_step chord_events (first_symbol :: rest) tp)
              (seq 1 (length (first_symbol :: rest) - 1))
              (first_symbol, nth 0 tp 0, []))
    as [[symbol start] acc].
  destruct Hfold as (Hs & Hall & _).
  - rewrite Hlen. lia.
  - unfold segment_inv. cbn [fst snd].
    split; [constructor|]. split; [constructor|].
    intros H1. now apply Htp.
  - cbn [fst snd] in *. now apply end_chord_sorted.
Qed.

Section PipelineOrder.
Variable corrcoef : list Q -> list Q -> option Q.

(** Every stage after window detection keeps the chord list sorted by
    strictly increasing onset. *)
Lemma infer_chords_sorted (note_events : list NoteEvent) :
  onset_sorted (fst (infer_chords corrcoef note_events)).
Proof.
  unfold infer_chords. cbn [fst].
  unfold _ensure_stability. apply sorted_filter.
  apply merge_similar_chords_sorted, smooth_chord_progression_sorted.
  unfold _apply_harmony_filtering. apply sorted_filter.
  apply detect_chords_sorted.
Qed.
End PipelineOrder.
(** *** The output does not overlap when the window smoother re-segments *)

Lemma timeline_loop_le_end (fuel : nat) (end_time : Q) :
  forall current_time,
    Forall (fun t => t <= end_time)
           (timeline_loop fuel current_time end_time).
Proof.
  induction fuel as [|fuel IH]; intros current_time; cbn [timeline_loop];
    [constructor|].
  destruct (Qleb current_time end_time) eqn:E; [|constructor].
  Qcompare. constructor; [exact E|apply IH].
Qed.

Lemma separated_non_overlapping (chords : list ChordEvent) :
  separated chords -> pairwise_non_overlapping chords.
Proof.
  unfold separated, pairwise_non_overlapping.
  induction 1 as [|c l Hs IH Hall]; [constructor|].
  constructor; [|exact IH].
  eapply List.Forall_impl; [|exact Hall]. intros b Hb. now left.
Qed.

Lemma end_chord_separated (chord_events : list ChordEvent) (symbol : string)
  (onset offset : Q) (acc : list ChordEvent) :
  separated acc -> proper acc ->
  Forall (fun c => Chord.offset c <= onset) acc ->
  onset <= offset ->
  separated (end_chord chord_events symbol onset offset acc)
  /\ proper (end_chord chord_events symbol onset offset acc)
  /\ forall t, offset <= t ->
               Forall (fun c => Chord.offset c <= t)
                      (end_chord chord_events symbol onset offset acc).
Proof.
  intros Hs Hp Hall Hle.
  assert (Hkeep : forall t, offset <= t ->
                            Forall (fun c => Chord.offset c <= t) acc).
  { intros t Ht. eapply List.Forall_impl; [|exact Hall].
    intros c Hc. cbv beta in Hc. lra. }
  unfold end_chord.
  destruct (negb (String.eqb symbol "N")); [|repeat split; assumption].
  destruct (find _ chord_events) as [original|];
    [|repeat split; assumption].
  split; [|split].
  - apply sorted_snoc; [exact Hs|exact Hall].
  - apply List.Forall_app. split; [exact Hp|].
    constructor; [exact Hle|constructor].
  - intros t Ht. apply List.Forall_app. split; [now apply Hkeep|].
    constructor; [exact Ht|constructor].
Qed.

Lemma extent_step_inv (chord_events : list ChordEvent)
  (smoothed_symbols : list string) (start_time end_time : Q) (i : nat)
  (st : segment_state) :
  (1 <= i)%nat ->
  (i < length (timeline start_time end_time))%nat ->
  extent_inv (timeline start_time end_time) i st ->
  extent_inv (timeline start_time end_time) (S i)
    (segment_step chord_events smoothed_symbols
                  (timeline start_time end_time) st i).
Proof.
  intros H1 Hi (Hs & Hp & Hall & Hstart).
  destruct st as [[symbol start] acc]. cbn [fst snd] in *.
  set (tp := timeline start_time end_time) in *.
  assert (Hnext : nth i tp 0 = nth (i - 1) tp 0 + timeline_resolution).
  { replace i with (S (i - 1)) at 1 by lia. subst tp. unfold timeline in *.
    apply timeline_loop_next. replace (S (i - 1)) with i by lia. exact Hi. }
  unfold segment_step.
  match goal with
  | |- context [if ?b then _ else _] => destruct b
  end.
  - destruct (end_chord_separated chord_events symbol start
                (nth (i - 1) tp 0 + timeline_resolution) acc Hs Hp Hall)
      as (Hs' & Hp' & Hall').
    { unfold timeline_resolution. lra. }
    unfold extent_inv. cbn [fst snd].
    split; [exact Hs'|]. split; [exact Hp'|]. split.
    + apply Hall'. rewrite Hnext. apply Qle_refl.
    + replace (S i - 1)%nat with i by lia. apply Qle_refl.
  - unfold extent_inv. cbn [fst snd].
    split; [exact Hs|]. split; [exact Hp|]. split; [exact Hall|].
    replace (S i - 1)%nat with i by lia. rewrite Hnext.
    unfold timeline_resolution. lra.
Qed.

Lemma extent_fold_inv (chord_events : list ChordEvent)
  (smoothed_symbols : list string) (start_time end_time : Q) :
  forall len i st,
    (1 <= i)%nat ->
    (i + len <= length (timeline start_time end_time))%nat ->
    extent_inv (timeline start_time end_time) i st ->
    extent_inv (timeline start_time end_time) (i + len)
      (fold_left (segment_step chord_events smoothed_symbols
                               (timeline start_time end_time))
                 (seq i len) st).
Proof.
  induction len as [|len IH]; intros i st H1 Hlen Hinv.
  - rewrite Nat.add_0_r. exact Hinv.
  - cbn [seq fold_left]. replace (i + S len)%nat with (S i + len)%nat by lia.
    apply IH; [lia|lia|]. apply extent_step_inv; [exact H1|lia|exact Hinv].
Qed.

(** When the smoother re-segments, its chords are separated. *)
Lemma smooth_chord_progression_separated (chord_events : list ChordEvent) :
  smoother_resegments chord_events = true ->
  separated (smooth_chord_progression chord_events)
  /\ proper (smooth_chord_progression chord_events).
Proof.
  unfold smoother_resegments, smooth_chord_progression.
  intros H. apply andb_true_iff in H. destruct H as [H H3].
  apply andb_true_iff in H. destruct H as [H1 H2].
  apply negb_true_iff in H1. apply negb_true_iff in H2.
  rewrite H1, H2.
  set (s := list_min (map Chord.onset chord_events)) in *.
  set (e := list_max (map Chord.offset chord_events)) in *.
  rewrite length_map, H3.
  remember (map (smoothed_symbol (map (active_symbol chord_events)
                                      (timeline s e)))
                (seq 0 (length (timeline s e)))) as ss eqn:Ess.
  assert (Hlen : length ss = length (timeline s e)).
  { subst ss. now rewrite length_map, length_seq. }
  clear Ess. unfold resegment.
  destruct ss as [|first_symbol rest]; [split; constructor|].
  assert (Hpos : (1 <= length (timeline s e))%nat)
    by (rewrite <- Hlen; simpl; lia).
  pose proof (extent_fold_inv chord_events (first_symbol :: rest) s e
                (length (first_symbol :: rest) - 1) 1
                (first_symbol, nth 0 (timeline s e) 0, [])) as Hfold.
  destruct (fold_left
              (segment_step chord_events (first_symbol :: rest)
                            (timeline s e))
              (seq 1 (length (first_symbol :: rest) - 1))
              (first_symbol, nth 0 (timeline s e) 0, []))
    as [[symbol start] acc].
  destruct Hfold as (Hs & Hp & Hall & Hstart).
  - lia.
  - rewrite Hlen. lia.
  - unfold extent_inv. cbn [fst snd].
    split; [constructor|]. split; [constructor|]. split; [constructor|].
    apply Qle_refl.
  - cbn [fst snd] in *.
    assert (Hend : start <= e).
    { eapply Qle_trans; [exact Hstart|].
      pose proof (timeline_loop_le_end (timeline_fuel s e) e s) as Hle.
      fold (timeline s e) in Hle. rewrite List.Forall_forall in Hle.
      apply Hle. apply nth_In. rewrite Hlen. lia. }
    destruct (end_chord_separated chord_events symbol start e acc
                Hs Hp Hall Hend) as (Hs' & Hp' & _).
    split; assumption.
Qed.

Lemma merge_loop_separated (rest : list ChordEvent) :
  forall current,
    separated (current :: rest) -> proper (current :: rest) ->
    separated (merge_loop current rest) /\ proper (merge_loop current rest).
Proof.
  unfold separated, proper.
  induction rest as [|next_chord rest IH]; intros current Hs Hp;
    cbn [merge_loop]; [split; assumption|].
  apply StronglySorted_inv in Hs. destruct Hs as [Hs Hall].
  apply List.Forall_cons_iff in Hp. destruct Hp as [Hc Hp].
  destruct (should_merge current next_chord).
  - apply StronglySorted_inv in Hs. destruct Hs as [Hs' Hall'].
    apply List.Forall_cons_iff in Hall. destruct Hall as [Hcn Hall].
    apply List.Forall_cons_iff in Hp. destruct Hp as [Hn Hp].
    unfold ends_before in *.
    apply IH.
    + constructor; [exact Hs'|].
      apply List.Forall_forall. intros x Hx.
      rewrite List.Forall_forall in Hall, Hall'.
      specialize (Hall x Hx). specialize (Hall' x Hx).
      unfold ends_before, merge_pair in *. cbn [Chord.offset].
      destruct (Qmax_cases (Chord.offset current) (Chord.offset next_chord))
        as [[_ ->]|[_ ->]]; assumption.
    + constructor; [|exact Hp].
      unfold merge_pair. cbn [Chord.onset Chord.offset].
      destruct (Qmax_cases (Chord.offset current) (Chord.offset next_chord))
        as [[? ->]|[? ->]]; lra.
  - destruct (IH next_chord Hs Hp) as [Hs' Hp'].
    split.
    + constructor; [exact Hs'|].
      apply (merge_loop_onsets (fun t => Chord.offset current <= t)).
      exact Hall.
    + constructor; assumption.
Qed.

Lemma merge_similar_chords_separated (chords : list ChordEvent) :
  separated chords -> proper chords ->
  separated (_merge_similar_chords chords)
  /\ proper (_merge_similar_chords chords).
Proof.
  unfold _merge_similar_chords. destruct chords; [tauto|].
  apply merge_loop_separated.
Qed.

Section PipelineSeparation.
Variable corrcoef : list Q -> list Q -> option Q.

Lemma infer_chords_separated (note_events : list NoteEvent) :
  smoother_resegments (harmony_filtered corrcoef note_events) = true ->
  pairwise_non_overlapping (fst (infer_chords corrcoef note_events)).
Proof.
  intros H. apply separated_non_overlapping.
  change (fst (infer_chords corrcoef note_events))
    with (_ensure_stability
            (_merge_similar_chords
               (smooth_chord_progression
                  (harmony_filtered corrcoef note_events)))).
  unfold _ensure_stability. apply sorted_filter.
  destruct (smooth_chord_progression_separated _ H) as [Hs Hp].
  now apply merge_similar_chords_separated.
Qed.
End PipelineSeparation.

(** ** The order of the final chord list *)

Section PipelineOrdering.
Variable corrcoef : list Q -> list Q -> option Q.

(** C2 (amended): for every note list the final chord list of the
    pipeline is sorted by strictly increasing onset; and whenever the
    window smoother re-segments the harmony-filtered chords (more than two
    of them, a positive span and a grid of at least [filter_window]
    points), the final chords are pairwise non-overlapping.  When the
    smoother passes its input through, the overlap of adjacent detection
    windows can survive. *)
Theorem infer_chords_onset_sorted (note_events : list NoteEvent) :
  onset_sorted (fst (infer_chords corrcoef note_events))
  /\ (smoother_resegments (harmony_filtered corrcoef note_events) = true ->
      pairwise_non_overlapping (fst (infer_chords corrcoef note_events))).
Proof.
  split.
  - apply infer_chords_sorted.
  - apply infer_chords_separated.
Qed.
End PipelineOrdering.

(** The four-triad example is re-segmented by the smoother, so its chords
    are sorted and do not overlap. *)
Lemma infer_chords_onset_sorted_witness :
  smoother_resegments (harmony_filtered rational_corrcoef test_notes) = true
  /\ onset_sorted (fst (infer_chords rational_corrcoef test_notes))
  /\ pairwise_non_overlapping (fst (infer_chords rational_corrcoef test_notes)).
Proof.
  assert (H : smoother_resegments
                (harmony_filtered rational_corrcoef test_notes) = true)
    by (vm_compute; reflexivity).
  split; [exact H|].
  destruct (infer_chords_onset_sorted rational_corrcoef test_notes)
    as [Hsorted Hapart].
  split; [exact Hsorted | exact (Hapart H)].
Defined.

(** * Further properties of the code *)

(** ** Key detection: the histogram and the estimate *)

Lemma pitch_class_lt (note : NoteEvent) : (Note.pitch_class note < 12)%nat.
Proof.
  unfold Note.pitch_class.
  pose proof (Z.mod_pos_bound (Note.pitch note) 12 ltac:(lia)). lia.
Qed.

Lemma add_at_length (bins : list Q) :
  forall pc weight, length (add_at pc weight bins) = length bins.
Proof.
  induction bins as [|w bins IH]; intros [|pc] weight; simpl;
    try reflexivity.
  now rewrite IH.
Qed.

Lemma fold_Qplus (l : list Q) :
  forall a, fold_left Qplus l a == a + Qsum l.
Proof.
  unfold Qsum. induction l as [|x l IH]; intros a; simpl.
  - lra.
  - rewrite (IH (a + x)), (IH (0 + x)). lra.
Qed.

Lemma Qsum_cons (x : Q) (l : list Q) : Qsum (x :: l) == x + Qsum l.
Proof. unfold Qsum at 1. simpl. rewrite fold_Qplus. lra. Qed.

Lemma add_at_sum (bins : list Q) :
  forall pc weight,
    (pc < length bins)%nat ->
    Qsum (add_at pc weight bins) == Qsum bins + weight.
Proof.
  induction bins as [|w bins IH]; intros pc weight Hpc; simpl in Hpc;
    [lia|].
  destruct pc as [|pc]; simpl.
  - rewrite !Qsum_cons. lra.
  - rewrite !Qsum_cons, IH by lia. lra.
Qed.

Lemma histogram_fold (events : list NoteEvent) :
  forall bins,
    length bins = 12%nat ->
    let filled :=
      fold_left
        (fun pc_weights note =>
           add_at (Note.pitch_class note)
                  (Note.duration note * Note.confidence note) pc_weights)
        events bins in
    length filled = 12%nat
    /\ Qsum filled == Qsum bins + Qsum (map note_weight events).
Proof.
  induction events as [|note events IH]; intros bins Hlen; simpl.
  - split; [exact Hlen|]. unfold Qsum at 3. simpl. lra.
  - destruct (IH (add_at (Note.pitch_class note)
                    (Note.duration note * Note.confidence note) bins))
      as [Hl Hs].
    { now rewrite add_at_length. }
    split; [exact Hl|]. rewrite Hs, Qsum_cons, add_at_sum.
    + unfold note_weight. lra.
    + rewrite Hlen. apply pitch_class_lt.
Qed.

(** X1: the pitch-class histogram of the key detector always has its 12
    bins, and no weight is lost: the bins add up to the sum of
    [duration * confidence] over the notes, whatever their pitches
    (negative ones included). *)
Theorem histogram_conserves_weight (events : list NoteEvent) :
  length (KeyDetector.histogram events) = 12%nat
  /\ Qsum (KeyDetector.histogram events) == Qsum (map note_weight events).
Proof.
  unfold KeyDetector.histogram.
  destruct (histogram_fold events (repeat 0 12) eq_refl) as [Hl Hs].
  split; [exact Hl|]. rewrite Hs. vm_compute (Qsum (repeat 0 12)). lra.
Qed.

Lemma key_candidates_well_formed (c : nat * string) :
  In c key_candidates ->
  (fst c < 12)%nat /\ (snd c = "major" \/ snd c = "minor").
Proof.
  unfold key_candidates. simpl. intros H.
  repeat (destruct H as [<-|H]; [simpl; split; [lia|tauto]|]).
  contradiction.
Qed.

Lemma clamp_bounds (x : Q) : 0 <= Qmax 0 (Qmin 1 x) <= 1.
Proof.
  destruct (Qmin_cases 1 x) as [[H1 ->]|[H1 ->]];
    destruct (Qmax_cases 0 x) as [[H2 E]|[H2 E]];
    try (destruct (Qmax_cases 0 1) as [[H3 ->]|[H3 ->]]; lra);
    rewrite ?E; lra.
Qed.

Section KeyWellFormed.
Variable corrcoef : list Q -> list Q -> option Q.

(** The three fields of the estimate, for every list of notes and both
    values of the flag. *)
Lemma estimate_key_fields (note_events : list NoteEvent)
  (exclude_short_notes : bool) :
  let k :=
    KeyDetector.estimate_key_with corrcoef note_events exclude_short_notes in
  (Key.key_pc k < 12)%nat
  /\ (Key.mode k = "major" \/ Key.mode k = "minor")
  /\ 0 <= Key.confidence k <= 1.
Proof.
  cbv zeta.
  assert (Hdefault :
            (Key.key_pc KeyDetector.default_estimate < 12)%nat
            /\ (Key.mode KeyDetector.default_estimate = "major"
                \/ Key.mode KeyDetector.default_estimate = "minor")
            /\ 0 <= Key.confidence KeyDetector.default_estimate <= 1).
  { simpl. split; [lia|]. split; [tauto|lra]. }
  unfold KeyDetector.estimate_key_with.
  destruct note_events as [|n l]; [exact Hdefault|].
  destruct (Qeq_bool _ 0); [exact Hdefault|].
  rewrite best_key_improve.
  match goal with
  | |- context [fold_left (improve ?sc) key_candidates ?st] =>
      destruct (fold_improve sc key_candidates (- (1)) None)
        as [[Heq _]|(c & Heq & _ & Hfm)]; rewrite Heq
  end.
  - simpl. split; [lia|]. split; [tauto|].
    apply clamp_bounds.
  - destruct c as [r m].
    destruct (key_candidates_well_formed (r, m) (first_max_In _ _ _ Hfm))
      as [Hr Hm].
    simpl in *. split; [exact Hr|].
    split; [exact Hm|]. apply clamp_bounds.
Qed.

(** X2: whatever the correlation function returns (NaN included), the
    key estimate has a root in 0..11, the mode major or minor and a
    confidence in [0, 1]; the name looked up for it is one of the twelve
    note names. *)
Theorem estimate_key_well_formed (note_events : list NoteEvent)
  (exclude_short_notes : bool) :
  let k :=
    KeyDetector.estimate_key_with corrcoef note_events exclude_short_notes in
  key_well_formed k /\ In (nth (Key.key_pc k) key_names "") key_names.
Proof.
  cbv zeta.
  pose proof (estimate_key_fields note_events exclude_short_notes) as H.
  cbv zeta in H. destruct H as (Hpc & Hmode & Hconf).
  split.
  - unfold key_well_formed. split; [exact Hpc|]. split; assumption.
  - apply nth_In. exact Hpc.
Qed.
End KeyWellFormed.

(** ** Pitch smoothing: what the smoother keeps *)

Lemma group_append_perm (pc : nat) (note : NoteEvent)
  (pc_events : list (nat * list NoteEvent)) :
  Permutation (flat_map snd (group_append pc note pc_events))
              (flat_map snd pc_events ++ [note]).
Proof.
  induction pc_events as [|[k events] rest IH]; simpl.
  - reflexivity.
  - destruct (Nat.eqb k pc); simpl.
    + rewrite <- !app_assoc. apply Permutation_app_head.
      apply Permutation_app_comm.
    + rewrite <- app_assoc. now apply Permutation_app_head.
Qed.

Lemma group_by_perm (note_events : list NoteEvent) :
  Permutation (flat_map snd (group_by_pitch_class note_events)) note_events.
Proof.
  unfold group_by_pitch_class.
  assert (H : forall pc_events,
             Permutation
               (flat_map snd
                  (fold_left
                     (fun pc_events note =>
                        group_append (Note.pitch_class note) note pc_events)
                     note_events pc_events))
               (flat_map snd pc_events ++ note_events)).
  { induction note_events as [|note l IH]; intros pc_events; simpl.
    - now rewrite app_nil_r.
    - rewrite IH, group_append_perm, <- app_assoc. reflexivity. }
  apply H.
Qed.

Lemma smooth_groups_timing (filter_size : nat)
  (pc_events : list (nat * list NoteEvent)) :
  Permutation
    (map timing
       (flat_map (fun '(pc, events) =>
                    PitchSmoother.smooth_group filter_size events)
                 pc_events))
    (map timing (flat_map snd pc_events)).
Proof.
  induction pc_events as [|[k events] rest IH]; simpl; [reflexivity|].
  rewrite !map_app. apply Permutation_app; [|exact IH].
  rewrite smooth_group_timing. apply Permutation_map, sort_by_perm.
Qed.

Lemma smooth_timing_perm (filter_size : nat) (note_events : list NoteEvent) :
  Permutation
    (map timing
       (PitchSmoother.smooth_pitch_activity_with filter_size note_events))
    (map timing note_events).
Proof.
  unfold PitchSmoother.smooth_pitch_activity_with.
  destruct note_events as [|n l]; [reflexivity|].
  rewrite smooth_groups_timing. apply Permutation_map, group_by_perm.
Qed.

(** Every property of onset, offset and pitch that holds of all input
    notes holds of all smoothed notes. *)
Lemma smooth_timing_Forall (P : Q * Q * Z -> Prop) (filter_size : nat)
  (note_events : list NoteEvent) :
  Forall (fun n => P (timing n)) note_events ->
  Forall (fun n => P (timing n))
         (PitchSmoother.smooth_pitch_activity_with filter_size note_events).
Proof.
  intros H. apply List.Forall_map.
  eapply Permutation_Forall.
  - symmetry. apply smooth_timing_perm.
  - apply List.Forall_map. exact H.
Qed.

(** With the error path of [medfilt]: a group either is smoothed as in
    [PitchSmoother], or the filter size is not odd and [ValueError] is
    raised. *)
Lemma smooth_group_checked (filter_size : nat) (events : list NoteEvent) :
  PitchSmootherChecked.smooth_group filter_size events
  = Returns (PitchSmoother.smooth_group filter_size events)
  \/ (PitchSmootherChecked.smooth_group filter_size events
      = Raises ValueError
      /\ Nat.odd filter_size = false).
Proof.
  unfold PitchSmootherChecked.smooth_group, PitchSmoother.smooth_group.
  destruct (length events <=? 1)%nat; [now left|].
  cbv zeta. destruct (filter_size <=? _)%nat; [|now left].
  unfold medfilt_checked. destruct (Nat.odd filter_size); [now left|].
  right. split; reflexivity.
Qed.

Lemma smooth_groups_checked (filter_size : nat)
  (pc_events : list (nat * list NoteEvent)) :
  PitchSmootherChecked.smooth_groups filter_size pc_events
  = Returns (flat_map (fun '(pc, events) =>
                         PitchSmoother.smooth_group filter_size events)
                      pc_events)
  \/ (PitchSmootherChecked.smooth_groups filter_size pc_events
      = Raises ValueError
      /\ Nat.odd filter_size = false).
Proof.
  induction pc_events as [|[pc events] rest IH];
    cbn [PitchSmootherChecked.smooth_groups flat_map]; [now left|].
  destruct (smooth_group_checked filter_size events) as [-> | [-> Hodd]];
    cbn [bind]; [|right; split; [reflexivity|exact Hodd]].
  destruct IH as [-> | [-> Hodd]]; cbn [bind]; [now left|].
  right. split; [reflexivity|exact Hodd].
Qed.

Lemma smooth_pitch_activity_checked (filter_size : nat)
  (note_events : list NoteEvent) :
  PitchSmootherChecked.smooth_pitch_activity filter_size note_events
  = Returns (PitchSmoother.smooth_pitch_activity_with filter_size
                                                      note_events)
  \/ (PitchSmootherChecked.smooth_pitch_activity filter_size note_events
      = Raises ValueError
      /\ Nat.odd filter_size = false).
Proof.
  unfold PitchSmootherChecked.smooth_pitch_activity,
    PitchSmoother.smooth_pitch_activity_with.
  destruct note_events as [|n l]; [now left|].
  apply smooth_groups_checked.
Qed.


Lemma nth_Forall {A : Type} (P : A -> Prop) (d : A) (l : list A) (i : nat) :
  P d -> Forall P l -> P (nth i l d).
Proof.
  intros Hd H. destruct (Nat.lt_ge_cases i (length l)) as [Hi|Hi].
  - rewrite List.Forall_forall in H. apply H. now apply nth_In.
  - now rewrite nth_overflow.
Qed.

Lemma medfilt_Forall (P : Q -> Prop) (cs : list Q) (k : nat) :
  P 0 -> Forall P cs -> Forall P (medfilt cs k).
Proof.
  intros H0 H. unfold medfilt. apply List.Forall_forall. intros x Hin.
  apply in_map_iff in Hin. destruct Hin as (i & <- & _).
  apply nth_Forall; [exact H0|]. apply sort_by_Forall. apply Forall_window.
  apply List.Forall_app. split.
  - apply List.Forall_forall. intros y Hy. apply repeat_spec in Hy.
    now subst y.
  - apply List.Forall_app. split; [exact H|].
    apply List.Forall_forall. intros y Hy. apply repeat_spec in Hy.
    now subst y.
Qed.

Lemma smooth_group_confidences (filter_size : nat)
  (events : list NoteEvent) :
  Forall (fun n => Note.confidence n = 0
                   \/ In (Note.confidence n) (map Note.confidence events))
         (PitchSmoother.smooth_group filter_size events).
Proof.
  assert (Hself : forall l,
             Permutation l events ->
             Forall (fun n => Note.confidence n = 0
                              \/ In (Note.confidence n)
                                    (map Note.confidence events)) l).
  { intros l Hp. apply List.Forall_forall. intros n Hn. right.
    apply in_map. eapply Permutation_in; eassumption. }
  unfold PitchSmoother.smooth_group.
  destruct (length events <=? 1)%nat; [now apply Hself|].
  destruct (filter_size <=? _)%nat; [|apply Hself, sort_by_perm].
  unfold update_confidences. apply List.Forall_forall. intros n Hin.
  apply in_map_iff in Hin. destruct Hin as ([i e] & <- & _).
  cbn [with_confidence Note.confidence].
  apply (nth_Forall (fun x => x = 0 \/ In x (map Note.confidence events)));
    [now left|].
  apply medfilt_Forall; [now left|].
  apply List.Forall_forall. intros x Hx. right.
  apply in_map_iff in Hx. destruct Hx as (m & <- & Hm).
  apply in_map. eapply Permutation_in; [apply sort_by_perm|exact Hm].
Qed.

(** X4: the smoother never invents a confidence: the confidence of every
    output note is either 0 (from the zero padding of the median filter)
    or the confidence of an input note of the same pitch class.  In
    particular confidences in [0, 1] stay in [0, 1]. *)
Theorem smooth_pitch_activity_confidences (note_events : list NoteEvent) :
  Forall (fun n =>
            Note.confidence n = 0
            \/ exists m,
                 In m note_events
                 /\ Note.pitch_class m = Note.pitch_class n
                 /\ Note.confidence m = Note.confidence n)
         (PitchSmoother.smooth_pitch_activity note_events).
Proof.
  unfold PitchSmoother.smooth_pitch_activity,
    PitchSmoother.smooth_pitch_activity_with.
  change MEDIAN_FILTER_SIZE with 3%nat.
  destruct note_events as [|n0 l]; [constructor|].
  set (notes := n0 :: l).
  apply List.Forall_flat_map. apply List.Forall_forall.
  intros [k evs] Hin.
  assert (Hevs : evs = notes_of_pc k notes).
  { rewrite <- (group_get_In _ k evs (group_by_NoDup notes) Hin).
    apply group_by_get. }
  assert (Hpc : Forall (fun n => Note.pitch_class n = k)
                       (PitchSmoother.smooth_group 3 evs)).
  { apply smooth_group_pitch_class. rewrite Hevs.
    apply notes_of_pc_Forall. }
  pose proof (smooth_group_confidences 3 evs) as Hc.
  rewrite List.Forall_forall in Hpc, Hc. apply List.Forall_forall.
  intros n Hn. destruct (Hc n Hn) as [H0|Hm]; [now left|right].
  apply in_map_iff in Hm. destruct Hm as (m & Hconf & Hm).
  rewrite Hevs in Hm. unfold notes_of_pc in Hm. apply filter_In in Hm.
  destruct Hm as [Hm Hk]. apply Nat.eqb_eq in Hk.
  exists m. split; [exact Hm|]. split; [|exact Hconf].
  rewrite Hk. symmetry. now apply Hpc.
Qed.

(** ** The engine: merging, root strength, filtering, windows *)

Lemma filter_all {A : Type} (f : A -> bool) (l : list A) :
  (forall x, In x l -> f x = true) -> List.filter f l = l.
Proof.
  induction l as [|x l IH]; intros H; simpl; [reflexivity|].
  rewrite (H x) by (now left). f_equal. apply IH.
  intros y Hy. apply H. now right.
Qed.

(** *** Merging twice changes nothing *)

Lemma should_merge_key (current next_chord next_chord' : ChordEvent) :
  merge_key next_chord = merge_key next_chord' ->
  should_merge current next_chord = should_merge current next_chord'.
Proof.
  unfold merge_key. intros H. injection H as Ho Hs Hr Ht.
  unfold should_merge. now rewrite Ho, Hs, Hr, Ht.
Qed.

Lemma merge_loop_head (rest : list ChordEvent) :
  forall current,
    exists c rest',
      merge_loop current rest = c :: rest'
      /\ merge_key c = merge_key current.
Proof.
  induction rest as [|next_chord rest IH]; intros current;
    cbn [merge_loop].
  - exists current, []. split; reflexivity.
  - destruct (should_merge current next_chord).
    + destruct (IH (merge_pair current next_chord)) as (c & r & Heq & Hk).
      exists c, r. split; [exact Heq|]. rewrite Hk. reflexivity.
    + eexists current, _. split; reflexivity.
Qed.

Lemma merge_loop_merged (rest : list ChordEvent) :
  forall current, already_merged (merge_loop current rest).
Proof.
  induction rest as [|next_chord rest IH]; intros current;
    cbn [merge_loop].
  - exact I.
  - destruct (should_merge current next_chord) eqn:E; [apply IH|].
    pose proof (IH next_chord) as Hrest.
    destruct (merge_loop_head rest next_chord) as (c & r & Heq & Hk).
    rewrite Heq in *. split; [|exact Hrest].
    rewrite (should_merge_key current c next_chord Hk). exact E.
Qed.

(** X5: the merger is idempotent.  After one pass no two neighbours
    satisfy the merge criteria any more (a merged chord keeps the onset,
    symbol, root and type of its first chord, which is all the test reads
    from the later chord), so merging the result again returns it
    unchanged. *)
Theorem merge_similar_chords_idempotent (chords : list ChordEvent) :
  already_merged (_merge_similar_chords chords)
  /\ _merge_similar_chords (_merge_similar_chords chords)
     = _merge_similar_chords chords.
Proof.
  assert (H : already_merged (_merge_similar_chords chords)).
  { unfold _merge_similar_chords. destruct chords as [|current rest];
      [exact I|]. apply merge_loop_merged. }
  split; [exact H|]. now apply merge_already_merged.
Qed.

(** *** Root strength *)

(** X6: the root-strength factor of the chord identifier always lies
    between 1 and 1.8 * 1.3 = 2.34: the weight of a root never exceeds
    the greatest weight, so the bonus for a strong root is at most 80%,
    times 1.3 for the lowest pitch class.  No division by zero occurs:
    a positive root weight makes the greatest weight positive. *)
Theorem root_strength_bonus_bounds (root : nat) (pitch_classes : list nat)
  (pc_weights : option (list (nat * Q))) :
  1 <= root_strength_bonus root pitch_classes pc_weights <= 234 # 100
  /\ (forall weights,
         pc_weights = Some weights -> 0 < weight_get root weights ->
         0 < list_max (map snd weights)).
Proof.
  split.
  - unfold root_strength_bonus.
    destruct pc_weights as [[|kw weights]|]; try (split; lra).
    set (ws := kw :: weights).
    assert (Hb : 1 <= (if Qltb 0 (weight_get root ws)
                       then 1 + weight_get root ws / list_max (map snd ws)
                                * (8 # 10)
                       else 1) <= 18 # 10).
    { destruct (Qltb 0 (weight_get root ws)) eqn:E; [|split; lra].
      Qcompare.
      pose proof (list_max_ge _ _ (weight_get_In root ws E)) as Hmax.
      assert (Hpos : 0 < list_max (map snd ws)) by lra.
      assert (Hq : 0 <= weight_get root ws / list_max (map snd ws)).
      { apply Qle_shift_div_l; [exact Hpos|]. lra. }
      assert (Hq1 : weight_get root ws / list_max (map snd ws) <= 1).
      { apply Qle_shift_div_r; [exact Hpos|]. lra. }
      split; lra. }
    destruct (Nat.eqb root (min_pc pitch_classes)); split; lra.
  - intros weights _ Hpos.
    pose proof (list_max_ge _ _ (weight_get_In root weights Hpos)). lra.
Qed.

(** *** Key filtering *)

(** X7: the key filter keeps exactly the notes that [_is_in_key] accepts
    or whose confidence reaches the threshold 0.15, in their order: the
    two copies of the scale logic in [_apply_key_filtering] and
    [_is_in_key] agree, an uncertain key (confidence below 0.5)
    included. *)
Theorem apply_key_filtering_is_in_key (events : list NoteEvent)
  (key_estimate : KeyEstimate) :
  _apply_key_filtering events key_estimate
  = List.filter
      (fun event =>
         _is_in_key (Note.pitch_class event) key_estimate
         || Qleb KEY_FILTER_CONFIDENCE_THRESHOLD (Note.confidence event))
      events.
Proof.
  unfold _apply_key_filtering, _is_in_key.
  destruct (Qltb (Key.confidence key_estimate) (1 # 2)).
  - symmetry. apply filter_all. reflexivity.
  - apply filter_ext. intros event.
    destruct (bool_decide _); reflexivity.
Qed.

(** *** The detection windows *)

Lemma windows_loop_grid (events : list NoteEvent)
  (key_estimate : KeyEstimate) (end_time : Q) (fuel : nat) :
  forall current_time,
    Forall (on_window_grid current_time end_time)
           (windows_loop fuel events key_estimate current_time end_time).
Proof.
  induction fuel as [|fuel IH]; intros current_time; cbn [windows_loop];
    [constructor|].
  destruct (Qltb current_time end_time) eqn:Hlt; [|constructor].
  Qcompare. apply List.Forall_app. split.
  - match goal with
    | |- Forall _ (if ?b then _ else _) => destruct b; [|constructor]
    end.
    match goal with
    | |- Forall _ (match ?x with _ => _ end) =>
        destruct x as [chord|] eqn:E; [|constructor]
    end.
    apply analyze_window_times in E. destruct E as [Hon Hoff].
    constructor; [|constructor]. unfold on_window_grid.
    rewrite Hon, Hoff. split; [reflexivity|]. split; [exact Hlt|].
    exists 0%nat. change (inject_Z (Z.of_nat 0)) with 0. lra.
  - eapply List.Forall_impl; [|apply IH].
    intros c (Hoff & Hend & i & Hi). split; [exact Hoff|].
    split; [exact Hend|]. exists (S i).
    rewrite Nat2Z.inj_succ. unfold Z.succ. rewrite inject_Z_plus.
    change (inject_Z 1) with 1. rewrite Hi. lra.
Qed.

(** X8: every raw chord spans exactly one detection window: it lasts
    [WINDOW_SIZE] = 2 seconds, starts on the grid
    [first onset + i * 1.8] seconds and before the last note offset. *)
Theorem detect_chords_on_window_grid (events : list NoteEvent)
  (key_estimate : KeyEstimate) :
  Forall (on_window_grid (first_onset events) (last_offset events))
         (_detect_chords_in_windows events key_estimate).
Proof.
  unfold _detect_chords_in_windows. destruct events as [|n l];
    [constructor|]. apply windows_loop_grid.
Qed.

Lemma detect_chords_window (events : list NoteEvent)
  (key_estimate : KeyEstimate) (chord : ChordEvent) :
  In chord (_detect_chords_in_windows events key_estimate) ->
  Chord.offset chord = Chord.onset chord + WINDOW_SIZE.
Proof.
  unfold _detect_chords_in_windows. destruct events as [|n l];
    [contradiction|].
  intros Hin.
  match type of Hin with
  | In _ (windows_loop ?f ?ev ?k ?c ?e) =>
      pose proof (windows_loop_grid ev k e f c) as H
  end.
  rewrite List.Forall_forall in H. apply (H chord Hin).
Qed.

(** *** Harmony filtering *)

Lemma harmony_keep_long (chords : list ChordEvent)
  (key_estimate : KeyEstimate) (chord : ChordEvent) :
  1 <= chord_duration chord ->
  _is_chord_root_in_key chord key_estimate = true ->
  harmony_keep chords key_estimate chord = true.
Proof.
  intros Hdur Hkey. unfold harmony_keep. rewrite Hkey.
  assert (E1 : Qltb (chord_duration chord) 1 = false)
    by (apply Qltb_false; exact Hdur).
  assert (E2 : Qleb (6 # 10) (chord_duration chord) = true)
    by (apply Qleb_true; lra).
  rewrite E1, E2, andb_false_r, andb_true_r, orb_true_r. cbn [negb].
  destruct (existsb _ FUNCTIONAL_CHORDS); reflexivity.
Qed.

(** X9: when the key estimate is uncertain (confidence below 0.6) the
    harmony filter removes no raw chord: the root test is skipped, and
    a detection window lasts 2 seconds, which is long enough for both
    the hallucination rule and the in-key rule to keep the chord, also
    one with an unknown type. *)
Theorem harmony_filtering_uncertain_key (events : list NoteEvent)
  (key_estimate : KeyEstimate) :
  Key.confidence key_estimate < 6 # 10 ->
  _apply_harmony_filtering
    (_detect_chords_in_windows events key_estimate) key_estimate
  = _detect_chords_in_windows events key_estimate.
Proof.
  intros Hconf. unfold _apply_harmony_filtering. apply filter_all.
  intros chord Hin.
  pose proof (detect_chords_window events key_estimate chord Hin)
    as Hoff.
  apply harmony_keep_long.
  - unfold chord_duration. rewrite Hoff. unfold WINDOW_SIZE. lra.
  - unfold _is_chord_root_in_key.
    now rewrite (proj2 (Qltb_true _ _) Hconf).
Qed.

Lemma harmony_filtering_uncertain_key_witness :
  Key.confidence uncertain_key < 6 # 10
  /\ _apply_harmony_filtering
       (_detect_chords_in_windows test_notes uncertain_key) uncertain_key
     = _detect_chords_in_windows test_notes uncertain_key.
Proof.
  assert (H : Key.confidence uncertain_key < 6 # 10) by reflexivity.
  split; [exact H|].
  exact (harmony_filtering_uncertain_key test_notes uncertain_key H).
Defined.

(** ** The pipeline: inputs that give no chord *)

Lemma filter_none {A : Type} (f : A -> bool) (l : list A) :
  (forall x, In x l -> f x = false) -> List.filter f l = [].
Proof.
  induction l as [|x l IH]; intros H; simpl; [reflexivity|].
  rewrite (H x) by (now left). apply IH.
  intros y Hy. apply H. now right.
Qed.

(** *** Windows of a single pitch class *)

Lemma window_weights_single (k : nat) (notes : list NoteEvent)
  (start_time end_time : Q) :
  Forall (fun n => Note.pitch_class n = k) notes ->
  (length (window_weights notes start_time end_time) <= 1)%nat.
Proof.
  intros Hk. unfold window_weights.
  match goal with
  | |- (length (fold_left ?f notes []) <= 1)%nat =>
      assert (H : forall acc,
                 acc = [] \/ (exists w, acc = [(k, w)]) ->
                 fold_left f notes acc = []
                 \/ exists w, fold_left f notes acc = [(k, w)])
  end.
  { induction Hk as [|n l Hn _ IH]; intros acc Hacc; [exact Hacc|].
    cbn [fold_left]. apply IH. rewrite Hn. right.
    destruct Hacc as [->|[w ->]]; cbn [weight_add].
    - eexists. reflexivity.
    - rewrite Nat.eqb_refl. eexists. reflexivity. }
  destruct (H [] (or_introl eq_refl)) as [->|[w ->]]; simpl; lia.
Qed.

Lemma significant_pitch_classes_length (pc_weights : list (nat * Q)) :
  (length (significant_pitch_classes pc_weights) <= length pc_weights)%nat.
Proof.
  unfold significant_pitch_classes.
  rewrite length_firstn, length_map.
  match goal with
  | |- context [List.filter ?f ?l] =>
      pose proof (filter_length_le f l) as Hf
  end.
  rewrite sort_by_length in Hf. lia.
Qed.

Lemma analyze_window_single (k : nat) (notes : list NoteEvent)
  (start_time end_time : Q) (key_estimate : KeyEstimate) :
  Forall (fun n => Note.pitch_class n = k) notes ->
  _analyze_window notes start_time end_time key_estimate = None.
Proof.
  intros Hk. unfold _analyze_window.
  destruct notes as [|n l]; [reflexivity|].
  pose proof (window_weights_single k (n :: l) start_time end_time Hk)
    as Hlen.
  destruct (window_weights (n :: l) start_time end_time) as [|kw W'];
    [reflexivity|].
  pose proof (significant_pitch_classes_length (kw :: W')) as Hs.
  assert (E : (length (significant_pitch_classes (kw :: W'))
               <? MIN_NOTES_PER_CHORD)%nat = true).
  { apply Nat.ltb_lt. unfold MIN_NOTES_PER_CHORD. lia. }
  now rewrite E.
Qed.

Lemma windows_loop_single (k : nat) (events : list NoteEvent)
  (key_estimate : KeyEstimate) (end_time : Q) (fuel : nat) :
  Forall (fun n => Note.pitch_class n = k) events ->
  forall current_time,
    windows_loop fuel events key_estimate current_time end_time = [].
Proof.
  intros Hk. induction fuel as [|fuel IH]; intros current_time;
    cbn [windows_loop]; [reflexivity|].
  destruct (Qltb current_time end_time); [|reflexivity].
  rewrite IH, (analyze_window_single k) by (now apply Forall_filter).
  now destruct (MIN_NOTES_PER_CHORD <=? _)%nat.
Qed.

Section PipelineEdges.
Variable corrcoef : list Q -> list Q -> option Q.

(** X10: when no note lasts at least [MIN_NOTE_DURATION] = 0.06 s (the
    empty input included), the pipeline returns no chord and the neutral
    key estimate C major with confidence 0, whatever the pitches and
    confidences are. *)
Theorem infer_chords_short_notes (note_events : list NoteEvent) :
  Forall (fun n => Note.duration n < MIN_NOTE_DURATION) note_events ->
  infer_chords corrcoef note_events = ([], KeyDetector.default_estimate).
Proof.
  intros H.
  assert (Hf : _filter_short_notes
                 (PitchSmoother.smooth_pitch_activity note_events) = []).
  { unfold _filter_short_notes. apply filter_none. intros n Hn.
    apply Qleb_false.
    pose proof (smooth_timing_Forall
                  (fun t => snd (fst t) - fst (fst t) < MIN_NOTE_DURATION)
                  MEDIAN_FILTER_SIZE note_events H) as Hs.
    rewrite List.Forall_forall in Hs. exact (Hs n Hn). }
  unfold infer_chords. cbv zeta. rewrite Hf. reflexivity.
Qed.

(** X11: a chord needs two pitch classes: when all notes share one pitch
    class (in any octaves, with any timing), no window yields a chord and
    the pipeline returns no chord. *)
Theorem infer_chords_single_pitch_class (k : nat)
  (note_events : list NoteEvent) :
  Forall (fun n => Note.pitch_class n = k) note_events ->
  fst (infer_chords corrcoef note_events) = [].
Proof.
  intros H. unfold infer_chords. cbv zeta. cbn [fst].
  match goal with
  | |- context [_detect_chords_in_windows ?ev ?key] =>
      assert (Hd : _detect_chords_in_windows ev key = []);
      [set (kf := ev)|rewrite Hd; reflexivity]
  end.
  assert (Hkf : Forall (fun n => Note.pitch_class n = k) kf).
  { subst kf. unfold _apply_key_filtering.
    match goal with
    | |- context [if ?b then _ else _] => destruct b
    end; [|apply Forall_filter];
      unfold _filter_short_notes; apply Forall_filter;
      apply (smooth_timing_Forall
               (fun t => Z.to_nat (snd t mod 12) = k) MEDIAN_FILTER_SIZE);
      exact H. }
  unfold _detect_chords_in_windows. clearbody kf.
  destruct kf as [|n l]; [reflexivity|].
  apply (windows_loop_single k). now apply sort_by_Forall.
Qed.
End PipelineEdges.

Lemma infer_chords_short_notes_witness :
  Forall (fun n => Note.duration n < MIN_NOTE_DURATION) short_notes
  /\ infer_chords rational_corrcoef short_notes
     = ([], KeyDetector.default_estimate).
Proof.
  assert (H : Forall (fun n => Note.duration n < MIN_NOTE_DURATION)
                     short_notes)
    by (repeat constructor).
  split; [exact H|].
  exact (infer_chords_short_notes rational_corrcoef short_notes H).
Defined.

Lemma infer_chords_single_pitch_class_witness :
  Forall (fun n => Note.pitch_class n = 0%nat) three_c_notes
  /\ fst (infer_chords rational_corrcoef three_c_notes) = [].
Proof.
  assert (H : Forall (fun n => Note.pitch_class n = 0%nat) three_c_notes)
    by (repeat constructor).
  split; [exact H|].
  exact (infer_chords_single_pitch_class rational_corrcoef 0 three_c_notes H).
Defined.

(** ** The pipeline does not see the octave of a note *)

Section RelatedLists.
Context {A : Type} (R : A -> A -> Prop).

Lemma Forall2_same_length (l l' : list A) :
  Forall2 R l l' -> length l = length l'.
Proof.
  induction 1 as [|a b l l' _ _ IH]; simpl; [reflexivity|]. now rewrite IH.
Qed.

Lemma Forall2_filter (f g : A -> bool) (l l' : list A) :
  (forall a b, R a b -> f a = g b) ->
  Forall2 R l l' -> Forall2 R (List.filter f l) (List.filter g l').
Proof.
  intros Hfg. induction 1 as [|a b l l' Hab _ IH]; simpl; [constructor|].
  rewrite (Hfg a b Hab). destruct (g b); [constructor|]; assumption.
Qed.

Lemma Forall2_map_eq {B : Type} (f g : A -> B) (l l' : list A) :
  (forall a b, R a b -> f a = g b) ->
  Forall2 R l l' -> map f l = map g l'.
Proof.
  intros Hfg. induction 1 as [|a b l l' Hab _ IH]; simpl; [reflexivity|].
  now rewrite (Hfg a b Hab), IH.
Qed.

Lemma Forall2_fold_left {S : Type} (f g : S -> A -> S) (l l' : list A) :
  (forall s a b, R a b -> f s a = g s b) ->
  Forall2 R l l' ->
  forall s, fold_left f l s = fold_left g l' s.
Proof.
  intros Hfg. induction 1 as [|a b l l' Hab _ IH]; intros s; simpl;
    [reflexivity|].
  rewrite (Hfg s a b Hab). apply IH.
Qed.

Lemma Forall2_insert_by (key : A -> Q) (x x' : A) (l l' : list A) :
  (forall a b, R a b -> key a = key b) ->
  R x x' -> Forall2 R l l' ->
  Forall2 R (insert_by key x l) (insert_by key x' l').
Proof.
  intros Hkey Hx. induction 1 as [|a b l l' Hab Hl IH]; simpl.
  - constructor; [exact Hx|constructor].
  - rewrite (Hkey x x' Hx), (Hkey a b Hab).
    destruct (Qleb (key x') (key b)).
    + constructor; [exact Hx|]. constructor; assumption.
    + constructor; assumption.
Qed.

Lemma Forall2_sort_by (key : A -> Q) (l l' : list A) :
  (forall a b, R a b -> key a = key b) ->
  Forall2 R l l' -> Forall2 R (sort_by key l) (sort_by key l').
Proof.
  intros Hkey. unfold sort_by.
  induction 1 as [|a b l l' Hab _ IH]; simpl; [constructor|].
  now apply Forall2_insert_by.
Qed.

Lemma Forall2_flat_map {B : Type} (RB : B -> B -> Prop) (f g : A -> list B)
  (l l' : list A) :
  (forall a b, R a b -> Forall2 RB (f a) (g b)) ->
  Forall2 R l l' -> Forall2 RB (flat_map f l) (flat_map g l').
Proof.
  intros Hfg. induction 1 as [|a b l l' Hab _ IH]; simpl; [constructor|].
  apply Forall2_app; [now apply Hfg|exact IH].
Qed.
End RelatedLists.

(** *** The smoother *)

Lemma group_append_same (note note' : NoteEvent)
  (pc_events pc_events' : list (nat * list NoteEvent)) :
  same_class note note' ->
  Forall2 same_group pc_events pc_events' ->
  Forall2 same_group
          (group_append (Note.pitch_class note) note pc_events)
          (group_append (Note.pitch_class note') note' pc_events').
Proof.
  intros Hn. assert (Hpc := Hn). destruct Hpc as (_ & _ & _ & Hpc).
  rewrite <- Hpc.
  induction 1 as [|[k es] [k' es'] rest rest' [Hk Hes] Hrest IH];
    cbn [group_append].
  - constructor; [|constructor]. split; [reflexivity|].
    constructor; [exact Hn|constructor].
  - cbn [fst snd] in Hk, Hes. subst k'.
    destruct (Nat.eqb k (Note.pitch_class note)).
    + constructor; [|exact Hrest]. split; [reflexivity|].
      cbn [snd]. apply Forall2_app; [exact Hes|].
      constructor; [exact Hn|constructor].
    + constructor; [|exact IH]. split; [reflexivity|exact Hes].
Qed.

Lemma group_by_same (l l' : list NoteEvent) :
  Forall2 same_class l l' ->
  Forall2 same_group (group_by_pitch_class l) (group_by_pitch_class l').
Proof.
  unfold group_by_pitch_class. intros H.
  assert (Hacc : Forall2 same_group [] []) by constructor.
  revert Hacc. generalize (@nil (nat * list NoteEvent)) at 1 3.
  generalize (@nil (nat * list NoteEvent)).
  induction H as [|a b l l' Hab _ IH]; intros acc' acc Hacc; simpl;
    [exact Hacc|].
  apply IH. now apply group_append_same.
Qed.

Lemma update_confidences_same (cs : list Q) (es es' : list NoteEvent) :
  Forall2 same_class es es' ->
  Forall2 same_class (update_confidences es cs) (update_confidences es' cs).
Proof.
  unfold update_confidences. intros H. generalize 0%nat.
  induction H as [|a b l l' Hab _ IH]; intros s; simpl; [constructor|].
  constructor; [|apply IH].
  destruct Hab as (Ho & Hf & _ & Hp). unfold same_class, with_confidence.
  unfold Note.pitch_class in *. cbn [Note.onset Note.offset Note.pitch
                                      Note.confidence].
  repeat split; assumption.
Qed.

Lemma same_class_onset (a b : NoteEvent) :
  same_class a b -> Note.onset a = Note.onset b.
Proof. now intros (H & _). Qed.

Lemma same_class_confidence (a b : NoteEvent) :
  same_class a b -> Note.confidence a = Note.confidence b.
Proof. now intros (_ & _ & H & _). Qed.

Lemma smooth_group_same (filter_size : nat) (es es' : list NoteEvent) :
  Forall2 same_class es es' ->
  Forall2 same_class (PitchSmoother.smooth_group filter_size es)
                     (PitchSmoother.smooth_group filter_size es').
Proof.
  intros H. unfold PitchSmoother.smooth_group.
  rewrite <- (Forall2_same_length same_class _ _ H).
  destruct (length es <=? 1)%nat; [exact H|].
  pose proof (Forall2_sort_by same_class Note.onset es es' same_class_onset H)
    as Hs.
  rewrite <- (Forall2_map_eq same_class Note.confidence Note.confidence
                 _ _ same_class_confidence Hs).
  destruct (filter_size <=? _)%nat; [|exact Hs].
  now apply update_confidences_same.
Qed.

Lemma smooth_pitch_activity_same (l l' : list NoteEvent) :
  Forall2 same_class l l' ->
  Forall2 same_class (PitchSmoother.smooth_pitch_activity l)
                     (PitchSmoother.smooth_pitch_activity l').
Proof.
  intros H. unfold PitchSmoother.smooth_pitch_activity,
    PitchSmoother.smooth_pitch_activity_with.
  pose proof (group_by_same l l' H) as Hg.
  destruct H as [|a b l l' Hab Hl]; [constructor|].
  eapply Forall2_flat_map; [|exact Hg].
  intros [k es] [k' es'] [_ Hes]. now apply smooth_group_same.
Qed.

(** *** Filters and key detection *)

Lemma same_class_duration (a b : NoteEvent) :
  same_class a b -> Note.duration a = Note.duration b.
Proof.
  intros (Ho & Hf & _). unfold Note.duration. now rewrite Ho, Hf.
Qed.

Lemma filter_short_notes_same (l l' : list NoteEvent) :
  Forall2 same_class l l' ->
  Forall2 same_class (_filter_short_notes l) (_filter_short_notes l').
Proof.
  intros H. unfold _filter_short_notes.
  apply (Forall2_filter same_class); [|exact H].
  intros a b Hab. now rewrite (same_class_duration a b Hab).
Qed.

Lemma apply_key_filtering_same (key_estimate : KeyEstimate)
  (l l' : list NoteEvent) :
  Forall2 same_class l l' ->
  Forall2 same_class (_apply_key_filtering l key_estimate)
                     (_apply_key_filtering l' key_estimate).
Proof.
  intros H. unfold _apply_key_filtering.
  destruct (Qltb _ (1 # 2)); [exact H|].
  apply (Forall2_filter same_class); [|exact H].
  intros a b (_ & _ & Hc & Hp). now rewrite Hc, Hp.
Qed.

Lemma histogram_same (l l' : list NoteEvent) :
  Forall2 same_class l l' ->
  KeyDetector.histogram l = KeyDetector.histogram l'.
Proof.
  intros H. unfold KeyDetector.histogram.
  apply (Forall2_fold_left same_class); [|exact H].
  intros s a b Hab. rewrite (same_class_duration a b Hab).
  destruct Hab as (_ & _ & Hc & Hp). now rewrite Hc, Hp.
Qed.

Lemma key_events_same (exclude_short_notes : bool) (l l' : list NoteEvent) :
  Forall2 same_class l l' ->
  Forall2 same_class (KeyDetector.key_events l exclude_short_notes)
                     (KeyDetector.key_events l' exclude_short_notes).
Proof.
  intros H. unfold KeyDetector.key_events.
  destruct exclude_short_notes; [|exact H].
  assert (Hf : Forall2 same_class
                 (List.filter
                    (fun note => Qleb MIN_NOTE_DURATION (Note.duration note))
                    l)
                 (List.filter
                    (fun note => Qleb MIN_NOTE_DURATION (Note.duration note))
                    l')).
  { apply (Forall2_filter same_class); [|exact H].
    intros a b Hab. now rewrite (same_class_duration a b Hab). }
  destruct Hf; [exact H|]. constructor; assumption.
Qed.

Lemma estimate_key_same (corrcoef : list Q -> list Q -> option Q)
  (exclude_short_notes : bool) (l l' : list NoteEvent) :
  Forall2 same_class l l' ->
  KeyDetector.estimate_key_with corrcoef l exclude_short_notes
  = KeyDetector.estimate_key_with corrcoef l' exclude_short_notes.
Proof.
  intros H. unfold KeyDetector.estimate_key_with.
  pose proof (histogram_same _ _ (key_events_same exclude_short_notes l l' H))
    as Hh.
  destruct H as [|a b l l' Hab Hl]; [reflexivity|].
  now rewrite Hh.
Qed.

(** *** Window detection *)

Lemma window_weights_same (start_time end_time : Q) (l l' : list NoteEvent) :
  Forall2 same_class l l' ->
  window_weights l start_time end_time
  = window_weights l' start_time end_time.
Proof.
  intros H. unfold window_weights.
  apply (Forall2_fold_left same_class); [|exact H].
  intros s a b (Ho & Hf & Hc & Hp). now rewrite Ho, Hf, Hc, Hp.
Qed.

Lemma analyze_window_same (start_time end_time : Q)
  (key_estimate : KeyEstimate) (l l' : list NoteEvent) :
  Forall2 same_class l l' ->
  _analyze_window l start_time end_time key_estimate
  = _analyze_window l' start_time end_time key_estimate.
Proof.
  intros H. unfold _analyze_window.
  pose proof (window_weights_same start_time end_time l l' H) as Hw.
  pose proof (Forall2_same_length same_class _ _ H) as Hlen.
  destruct H as [|a b l l' Hab Hl]; [reflexivity|].
  now rewrite Hw, Hlen.
Qed.

Lemma windows_loop_same (key_estimate : KeyEstimate) (end_time : Q)
  (l l' : list NoteEvent) (fuel : nat) :
  Forall2 same_class l l' ->
  forall current_time,
    windows_loop fuel l key_estimate current_time end_time
    = windows_loop fuel l' key_estimate current_time end_time.
Proof.
  intros H. induction fuel as [|fuel IH]; intros current_time;
    cbn [windows_loop]; [reflexivity|].
  rewrite IH.
  match goal with
  | |- context [List.filter ?f l] =>
      assert (Hf : Forall2 same_class (List.filter f l) (List.filter f l'))
  end.
  { apply (Forall2_filter same_class); [|exact H].
    intros a b (Ho & Hf & _). now rewrite Ho, Hf. }
  now rewrite (analyze_window_same _ _ _ _ _ Hf), (Forall2_same_length same_class _ _ Hf).
Qed.

Lemma detect_chords_same (key_estimate : KeyEstimate)
  (l l' : list NoteEvent) :
  Forall2 same_class l l' ->
  _detect_chords_in_windows l key_estimate
  = _detect_chords_in_windows l' key_estimate.
Proof.
  intros H. unfold _detect_chords_in_windows.
  pose proof (Forall2_sort_by same_class Note.onset l l' same_class_onset H)
    as Hs.
  assert (Hoff : map Note.offset (sort_by Note.onset l)
                 = map Note.offset (sort_by Note.onset l')).
  { apply (Forall2_map_eq same_class); [|exact Hs]. now intros a b (_ & Hf & _). }
  assert (Hhd : Note.onset (hd (Note.mk 0 0 0 0) (sort_by Note.onset l))
                = Note.onset (hd (Note.mk 0 0 0 0) (sort_by Note.onset l'))).
  { destruct Hs as [|a b s s' Hab _]; [reflexivity|].
    now apply same_class_onset. }
  destruct H as [|a b l l' Hab Hl]; [reflexivity|].
  rewrite Hoff, Hhd. now apply windows_loop_same.
Qed.

Section RegisterInvariance.
Variable corrcoef : list Q -> list Q -> option Q.

(** X12: the pipeline does not see the octave of a note.  Two inputs
    whose notes agree, position by position, in onset, offset,
    confidence and pitch class give the same chords and the same key
    estimate: moving any note by octaves (the bass included) changes
    nothing. *)
Theorem infer_chords_register_invariant (l l' : list NoteEvent) :
  Forall2 same_class l l' ->
  infer_chords corrcoef l = infer_chords corrcoef l'.
Proof.
  intros H. unfold infer_chords. cbv zeta.
  pose proof (filter_short_notes_same _ _ (smooth_pitch_activity_same l l' H))
    as Hf.
  unfold KeyDetector.estimate_key.
  rewrite (estimate_key_same corrcoef true _ _ Hf).
  now rewrite (detect_chords_same _ _ _
                 (apply_key_filtering_same _ _ _ Hf)).
Qed.
End RegisterInvariance.

Lemma infer_chords_register_invariant_witness :
  Forall2 same_class c_major_notes c_major_spread
  /\ infer_chords rational_corrcoef c_major_notes
     = infer_chords rational_corrcoef c_major_spread.
Proof.
  assert (H : Forall2 same_class c_major_notes c_major_spread)
    by (repeat constructor).
  split; [exact H|].
  exact (infer_chords_register_invariant rational_corrcoef _ _ H).
Defined.

(** ** The chords: where their attributes come from *)

(** *** Window analysis *)

Lemma weight_add_keys (P : nat -> Prop) (pc : nat) (weight : Q)
  (pc_weights : list (nat * Q)) :
  P pc ->
  Forall (fun x => P (fst x)) pc_weights ->
  Forall (fun x => P (fst x)) (weight_add pc weight pc_weights).
Proof.
  intros Hpc. induction 1 as [|[k w] rest Hk Hrest IH]; simpl.
  - constructor; [exact Hpc|constructor].
  - destruct (Nat.eqb k pc); constructor; assumption.
Qed.

Lemma weight_add_In (pc : nat) (weight : Q) (pc_weights : list (nat * Q))
  (k : nat) :
  In k (map fst (weight_add pc weight pc_weights)) ->
  k = pc \/ In k (map fst pc_weights).
Proof.
  induction pc_weights as [|[k' w] rest IH]; simpl.
  - intros [H|H]; [now left|contradiction].
  - destruct (Nat.eqb k' pc); simpl; intros [H|H]; tauto.
Qed.

Lemma weight_add_NoDup (pc : nat) (weight : Q)
  (pc_weights : list (nat * Q)) :
  List.NoDup (map fst pc_weights) ->
  List.NoDup (map fst (weight_add pc weight pc_weights)).
Proof.
  induction pc_weights as [|[k w] rest IH]; simpl; intros H.
  - constructor; [simpl; tauto|constructor].
  - destruct (Nat.eqb k pc) eqn:E; [exact H|]. simpl.
    apply List.NoDup_cons_iff in H. destruct H as [Hk Hrest].
    apply List.NoDup_cons_iff. split; [|now apply IH].
    intros Hin. apply weight_add_In in Hin.
    destruct Hin as [->|Hin]; [|contradiction].
    rewrite Nat.eqb_refl in E. discriminate.
Qed.

Lemma window_weights_keys (notes : list NoteEvent) (start_time end_time : Q) :
  List.NoDup (map fst (window_weights notes start_time end_time))
  /\ Forall (fun x => (fst x < 12)%nat)
            (window_weights notes start_time end_time).
Proof.
  unfold window_weights.
  match goal with
  | |- List.NoDup (map fst (fold_left ?f notes [])) /\ _ =>
      assert (H : forall acc,
                 List.NoDup (map fst acc) ->
                 Forall (fun x => (fst x < 12)%nat) acc ->
                 List.NoDup (map fst (fold_left f notes acc))
                 /\ Forall (fun x => (fst x < 12)%nat)
                           (fold_left f notes acc))
  end.
  { induction notes as [|n l IH]; intros acc Hnd Hlt; simpl;
      [split; assumption|].
    apply IH.
    - now apply weight_add_NoDup.
    - apply (weight_add_keys (fun k => (k < 12)%nat)); [|exact Hlt].
      apply pitch_class_lt. }
  apply H; constructor.
Qed.

Lemma NoDup_map_filter {A B : Type} (f : A -> B) (p : A -> bool)
  (l : list A) :
  List.NoDup (map f l) -> List.NoDup (map f (List.filter p l)).
Proof.
  induction l as [|x l IH]; simpl; intros H; [constructor|].
  apply List.NoDup_cons_iff in H. destruct H as [Hx Hl].
  destruct (p x); [|now apply IH]. simpl.
  apply List.NoDup_cons_iff. split; [|now apply IH].
  intros Hin. apply Hx. apply in_map_iff in Hin.
  destruct Hin as (y & Hy & Hin). apply filter_In in Hin.
  apply in_map_iff. exists y. tauto.
Qed.

Lemma NoDup_firstn' {A : Type} (l : list A) :
  forall k, List.NoDup l -> List.NoDup (firstn k l).
Proof.
  induction l as [|x l IH]; intros [|k] H; simpl; try constructor.
  - apply List.NoDup_cons_iff in H. destruct H as [Hx _].
    intros Hin. apply Hx.
    assert (Hall : Forall (fun y => In y l) (firstn k l)).
    { apply Forall_firstn'. apply List.Forall_forall. trivial. }
    rewrite List.Forall_forall in Hall. now apply Hall.
  - apply IH. apply List.NoDup_cons_iff in H. tauto.
Qed.

Lemma significant_pitch_classes_shape (pc_weights : list (nat * Q)) :
  List.NoDup (map fst pc_weights) ->
  Forall (fun x => (fst x < 12)%nat) pc_weights ->
  List.NoDup (significant_pitch_classes pc_weights)
  /\ Forall (fun pc => (pc < 12)%nat) (significant_pitch_classes pc_weights)
  /\ (length (significant_pitch_classes pc_weights) <= 6)%nat.
Proof.
  intros Hnd Hlt. unfold significant_pitch_classes.
  split; [|split].
  - apply NoDup_firstn', NoDup_map_filter.
    eapply Permutation_NoDup; [|exact Hnd].
    apply Permutation_map. symmetry. apply sort_by_perm.
  - apply Forall_firstn'. apply List.Forall_map. apply Forall_filter.
    now apply sort_by_Forall.
  - rewrite length_firstn. lia.
Qed.

Lemma fold_min_le (l : list nat) :
  forall x,
    (fold_left Nat.min l x <= x)%nat
    /\ Forall (fun y => (fold_left Nat.min l x <= y)%nat) l.
Proof.
  induction l as [|y l IH]; intros x; simpl; [split; [lia|constructor]|].
  destruct (IH (Nat.min x y)) as [H1 H2]. split; [lia|].
  constructor; [lia|exact H2].
Qed.

Lemma min_pc_le (l : list nat) (pc : nat) :
  In pc l -> (min_pc l <= pc)%nat.
Proof.
  destruct l as [|x l]; [contradiction|]. simpl.
  destruct (fold_min_le l x) as [H1 H2].
  intros [<-|Hin]; [exact H1|].
  rewrite List.Forall_forall in H2. now apply H2.
Qed.

Lemma analyze_window_shape (notes : list NoteEvent) (start_time end_time : Q)
  (key_estimate : KeyEstimate) (chord : ChordEvent) :
  _analyze_window notes start_time end_time key_estimate = Some chord ->
  raw_chord_shape chord.
Proof.
  unfold _analyze_window.
  destruct notes as [|n l]; [discriminate|].
  destruct (window_weights_keys (n :: l) start_time end_time) as [Hnd Hlt].
  destruct (window_weights (n :: l) start_time end_time) as [|kw W'];
    [discriminate|].
  destruct (significant_pitch_classes_shape (kw :: W') Hnd Hlt)
    as (Hnd' & Hlt' & Hlen).
  destruct (length (significant_pitch_classes (kw :: W'))
            <? MIN_NOTES_PER_CHORD)%nat eqn:Elen; [discriminate|].
  apply Nat.ltb_ge in Elen. unfold MIN_NOTES_PER_CHORD in Elen.
  destruct (_identify_chord _ _ _) as [symbol ty].
  intros Heq. injection Heq as <-. unfold raw_chord_shape.
  cbn [Chord.pitch_classes Chord.root_pc].
  rewrite size_list_to_set by (apply NoDup_ListNoDup; exact Hnd').
  split; [lia|]. intros pc Hpc.
  apply elem_of_list_to_set, list_elem_of_In in Hpc.
  split; [now apply min_pc_le|].
  rewrite List.Forall_forall in Hlt'. now apply Hlt'.
Qed.

Lemma windows_loop_shape (events : list NoteEvent)
  (key_estimate : KeyEstimate) (end_time : Q) (fuel : nat) :
  forall current_time,
    Forall raw_chord_shape
           (windows_loop fuel events key_estimate current_time end_time).
Proof.
  induction fuel as [|fuel IH]; intros current_time;
    cbn [windows_loop]; [constructor|].
  destruct (Qltb current_time end_time); [|constructor].
  apply List.Forall_app. split; [|apply IH].
  match goal with
  | |- Forall _ (if ?b then _ else _) => destruct b; [|constructor]
  end.
  match goal with
  | |- Forall _ (match ?x with _ => _ end) =>
      destruct x as [chord|] eqn:E; [|constructor]
  end.
  constructor; [|constructor]. now apply analyze_window_shape in E.
Qed.

Lemma detect_chords_shape (events : list NoteEvent)
  (key_estimate : KeyEstimate) :
  Forall raw_chord_shape (_detect_chords_in_windows events key_estimate).
Proof.
  unfold _detect_chords_in_windows. destruct events as [|n l];
    [constructor|]. apply windows_loop_shape.
Qed.

(** X13: every raw chord holds between 2 and 6 distinct pitch classes,
    all of them in 0..11, and its [root_pc] is the smallest of them (the
    lowest pitch class number, whatever root the chord symbol names). *)
Theorem detect_chords_pitch_classes (events : list NoteEvent)
  (key_estimate : KeyEstimate) :
  Forall (fun chord =>
            (2 <= size (Chord.pitch_classes chord) <= 6)%nat
            /\ forall pc, pc ∈ Chord.pitch_classes chord ->
                          (Chord.root_pc chord <= pc < 12)%nat)
         (_detect_chords_in_windows events key_estimate).
Proof.
  unfold _detect_chords_in_windows. destruct events as [|n l];
    [constructor|].
  eapply List.Forall_impl; [|apply windows_loop_shape].
  intros chord Hshape. exact Hshape.
Qed.

(** *** Window smoothing *)

Section Resegmentation.
Variable chord_events : list ChordEvent.
Variable P : ChordEvent -> Prop.
Hypothesis Hbuild :
  forall symbol onset offset original_chord,
    find (fun c => String.eqb (Chord.chord_symbol c) symbol) chord_events
    = Some original_chord ->
    P (Chord.mk onset offset symbol
                (Chord.confidence original_chord)
                (Chord.pitch_classes original_chord)
                (Chord.root_pc original_chord)
                (Chord.chord_type original_chord)).

Lemma end_chord_built (symbol : string) (onset offset : Q)
  (smoothed_chords : list ChordEvent) :
  Forall P smoothed_chords ->
  Forall P (end_chord chord_events symbol onset offset smoothed_chords).
Proof.
  intros Hacc. unfold end_chord.
  destruct (negb (String.eqb symbol "N")); [|exact Hacc].
  destruct (find _ chord_events) as [original|] eqn:E; [|exact Hacc].
  apply List.Forall_app. split; [exact Hacc|].
  constructor; [|constructor]. now apply Hbuild.
Qed.

Lemma segment_fold_built (smoothed_symbols : list string)
  (timeline_points : list Q) (indices : list nat) :
  forall st,
    Forall P (snd st) ->
    Forall P (snd (fold_left
                     (segment_step chord_events smoothed_symbols
                                   timeline_points)
                     indices st)).
Proof.
  induction indices as [|i indices IH]; intros st Hst; [exact Hst|].
  cbn [fold_left]. apply IH.
  destruct st as [[current_symbol current_start] acc].
  unfold segment_step.
  match goal with
  | |- context [if ?b then _ else _] => destruct b
  end; [|exact Hst].
  cbn [snd]. now apply end_chord_built.
Qed.

Lemma resegment_built (smoothed_symbols : list string)
  (timeline_points : list Q) (end_time : Q) :
  Forall P (resegment chord_events smoothed_symbols timeline_points
                      end_time).
Proof.
  unfold resegment.
  destruct smoothed_symbols as [|first_symbol rest]; [constructor|].
  match goal with
  | |- context [fold_left (segment_step ?ce ?ss ?tp) ?idx ?st] =>
      pose proof (segment_fold_built ss tp idx st (List.Forall_nil _))
        as Hfold;
      destruct (fold_left (segment_step ce ss tp) idx st)
        as [[current_symbol current_start] acc]
  end.
  now apply end_chord_built.
Qed.

Lemma smooth_chord_progression_built :
  Forall P chord_events -> Forall P (smooth_chord_progression chord_events).
Proof.
  intros Hin. unfold smooth_chord_progression.
  destruct (length chord_events <=? 2)%nat; [exact Hin|].
  destruct (Qleb _ 0); [exact Hin|].
  match goal with
  | |- context [if ?b then _ else _] => destruct b
  end; [|exact Hin].
  apply resegment_built.
Qed.
End Resegmentation.

(** X14: when the window smoother re-segments, every chord it returns
    copies its symbol, confidence, pitch classes, root and type from the
    first input chord that carries the symbol: the smoother invents no
    chord, and it takes the attributes of the first occurrence, not of
    the chords that sound during the run. *)
Theorem smooth_chord_progression_first_occurrence
  (chord_events : list ChordEvent) :
  smoother_resegments chord_events = true ->
  Forall (fun c =>
            exists original_chord,
              first_with_symbol chord_events c = Some original_chord
              /\ chord_attrs c = chord_attrs original_chord)
         (smooth_chord_progression chord_events).
Proof.
  unfold smoother_resegments, smooth_chord_progression.
  intros H. apply andb_true_iff in H. destruct H as [H H3].
  apply andb_true_iff in H. destruct H as [H1 H2].
  apply negb_true_iff in H1. apply negb_true_iff in H2.
  rewrite H1, H2, length_map, H3.
  apply resegment_built. intros symbol onset offset original Hfind.
  exists original. unfold first_with_symbol.
  cbn [Chord.chord_symbol]. split; [exact Hfind|].
  apply find_some in Hfind. destruct Hfind as [_ Heq].
  apply String.eqb_eq in Heq. unfold chord_attrs.
  cbn [Chord.chord_symbol Chord.confidence Chord.pitch_classes
       Chord.root_pc Chord.chord_type].
  now rewrite Heq.
Qed.

Lemma smooth_chord_progression_first_occurrence_witness :
  smoother_resegments three_window_chords = true
  /\ Forall (fun c =>
               exists original_chord,
                 first_with_symbol three_window_chords c
                 = Some original_chord
                 /\ chord_attrs c = chord_attrs original_chord)
            (smooth_chord_progression three_window_chords).
Proof.
  assert (H : smoother_resegments three_window_chords = true)
    by (vm_compute; reflexivity).
  split; [exact H|].
  exact (smooth_chord_progression_first_occurrence three_window_chords H).
Defined.

(** *** Pitch classes stay in range through the pipeline *)

Lemma raw_chord_in_range (chord : ChordEvent) :
  raw_chord_shape chord -> chord_in_range chord.
Proof.
  intros [Hsize Hpcs]. unfold chord_in_range.
  assert (Hall : forall pc, pc ∈ Chord.pitch_classes chord -> (pc < 12)%nat)
    by (intros pc Hpc; apply (Hpcs pc Hpc)).
  split; [|exact Hall].
  destruct (decide (Chord.pitch_classes chord = ∅)) as [He|Hne].
  - rewrite He, size_empty in Hsize. lia.
  - apply set_choose_L in Hne. destruct Hne as [pc Hpc].
    pose proof (Hpcs pc Hpc). lia.
Qed.

Lemma smooth_chord_progression_range (chord_events : list ChordEvent) :
  Forall chord_in_range chord_events ->
  Forall chord_in_range (smooth_chord_progression chord_events).
Proof.
  intros Hin. apply smooth_chord_progression_built; [|exact Hin].
  intros symbol onset offset original Hfind.
  apply find_some in Hfind. destruct Hfind as [Ho _].
  rewrite List.Forall_forall in Hin. exact (Hin _ Ho).
Qed.

Lemma merge_loop_range (rest : list ChordEvent) :
  forall current,
    chord_in_range current -> Forall chord_in_range rest ->
    Forall chord_in_range (merge_loop current rest).
Proof.
  induction rest as [|next_chord rest IH]; intros current Hc Hrest;
    cbn [merge_loop].
  - constructor; [exact Hc|constructor].
  - apply List.Forall_cons_iff in Hrest. destruct Hrest as [Hn Hrest].
    destruct (should_merge current next_chord).
    + apply IH; [|exact Hrest].
      destruct Hc as [Hr Hp], Hn as [_ Hp'].
      split; [exact Hr|]. cbn [merge_pair Chord.pitch_classes].
      intros pc Hpc. apply elem_of_union in Hpc.
      destruct Hpc; [now apply Hp|now apply Hp'].
    + constructor; [exact Hc|]. now apply IH.
Qed.

Section PipelineRange.
Variable corrcoef : list Q -> list Q -> option Q.

(** X15: every chord the pipeline returns has its root and all its pitch
    classes in 0..11, for every input (any pitches, negative ones
    included): an index into the twelve note names is always in
    range. *)
Theorem infer_chords_pitch_classes_in_range (note_events : list NoteEvent) :
  Forall chord_in_range (fst (infer_chords corrcoef note_events)).
Proof.
  unfold infer_chords. cbv zeta. cbn [fst].
  unfold _ensure_stability. apply Forall_filter.
  unfold _merge_similar_chords.
  match goal with
  | |- Forall _ (match ?l with [] => _ | _ :: _ => _ end) =>
      assert (Hs : Forall chord_in_range l);
      [|destruct l as [|current rest]; [constructor|];
        apply List.Forall_cons_iff in Hs; now apply merge_loop_range]
  end.
  apply smooth_chord_progression_range.
  unfold _apply_harmony_filtering. apply Forall_filter.
  eapply List.Forall_impl; [|apply detect_chords_shape].
  apply raw_chord_in_range.
Qed.
End PipelineRange.

(** ** The main interface and the server *)

Section InterfaceExtras.
Variable corrcoef : list Q -> list Q -> option Q.
Variable str_to_float : string -> option Q.
Variable str_to_int : string -> option Z.
Variable str_to_float_value : string -> option FloatValue.

(** *** Which exceptions can leave the conversion *)

Lemma py_float_raises (v : PyValue) (e : PyException) :
  py_float str_to_float v = Raises e -> e <> KeyError.
Proof.
  destruct v as [|z|x|s|]; simpl; try congruence.
  - destruct (FLOAT_OVERFLOW <=? Z.abs z)%Z; congruence.
  - destruct (str_to_float s); congruence.
Qed.

Lemma py_int_raises (v : PyValue) (e : PyException) :
  py_int str_to_int v = Raises e -> caught e = true /\ e <> KeyError.
Proof.
  destruct v as [|z|x|s|]; simpl; try congruence;
    try (intros H; injection H as <-; split; [reflexivity|congruence]).
  destruct (str_to_int s); [congruence|].
  intros H; injection H as <-; split; [reflexivity|congruence].
Qed.

(** *** The conversion loop on all values, non-finite floats included *)

Lemma any_float_overflow (v : AnyValue) :
  any_float str_to_float_value v = Raises OverflowError ->
  exists z, v = AnyInt z /\ (FLOAT_OVERFLOW <= Z.abs z)%Z.
Proof.
  destruct v as [|z|x|s|]; simpl; try congruence.
  - destruct (FLOAT_OVERFLOW <=? Z.abs z)%Z eqn:E; [|congruence].
    intros _. exists z. split; [reflexivity|]. now apply Z.leb_le.
  - destruct (str_to_float_value s); congruence.
Qed.

Lemma any_int_overflow (v : AnyValue) :
  any_int str_to_int v = Raises OverflowError ->
  exists negative, v = AnyFloat (Infinite negative).
Proof.
  destruct v as [|z|[x|negative|]|s|]; simpl; try congruence.
  - intros _. now exists negative.
  - destruct (str_to_int s); congruence.
Qed.

(** A field access followed by [float()] or [int()]: when it
    overflows. *)
Lemma float_field_overflow (note_dict : gmap string AnyValue)
  (field : string) :
  (v <- any_getitem note_dict field ;; any_float str_to_float_value v)
  = Raises OverflowError ->
  exists z, note_dict !! field = Some (AnyInt z)
            /\ (FLOAT_OVERFLOW <= Z.abs z)%Z.
Proof.
  unfold any_getitem. destruct (note_dict !! field) as [v|]; simpl;
    [|congruence].
  intros H. apply any_float_overflow in H. destruct H as (z & -> & Hz).
  now exists z.
Qed.

Lemma int_field_overflow (note_dict : gmap string AnyValue)
  (field : string) :
  (v <- any_getitem note_dict field ;; any_int str_to_int v)
  = Raises OverflowError ->
  exists negative,
    note_dict !! field = Some (AnyFloat (Infinite negative)).
Proof.
  unfold any_getitem. destruct (note_dict !! field) as [v|]; simpl;
    [|congruence].
  intros H. apply any_int_overflow in H. destruct H as (negative & ->).
  now exists negative.
Qed.

Lemma uncaught_is_overflow (e : PyException) :
  caught e = false -> e = OverflowError.
Proof. destruct e; simpl; congruence. Qed.

(** An exception that leaves [to_raw_note] uncaught is an overflow of
    one of the four conversions. *)
Lemma to_raw_note_uncaught (note_dict : gmap string AnyValue)
  (e : PyException) :
  to_raw_note str_to_float_value str_to_int note_dict = Raises e ->
  caught e = false ->
  e = OverflowError /\ aborts_conversion note_dict.
Proof.
  intros H Hc. pose proof (uncaught_is_overflow e Hc) as ->.
  split; [reflexivity|]. clear Hc. unfold to_raw_note in H.
  destruct (v <- any_getitem note_dict "onset" ;;
            any_float str_to_float_value v) as [onset|e1] eqn:E1.
  2:{ cbn [bind] in H. injection H as ->.
      apply float_field_overflow in E1. destruct E1 as (z & Hz & Hbig).
      left. exists "onset", z. simpl. tauto. }
  cbn [bind] in H.
  destruct (v <- any_getitem note_dict "offset" ;;
            any_float str_to_float_value v) as [offset|e2] eqn:E2.
  2:{ cbn [bind] in H. injection H as ->.
      apply float_field_overflow in E2. destruct E2 as (z & Hz & Hbig).
      left. exists "offset", z. simpl. tauto. }
  cbn [bind] in H.
  destruct (v <- any_getitem note_dict "pitch" ;; any_int str_to_int v)
    as [pitch|e3] eqn:E3.
  2:{ cbn [bind] in H. injection H as ->.
      apply int_field_overflow in E3. right. exact E3. }
  cbn [bind] in H.
  destruct (v <- any_getitem note_dict "confidence" ;;
            any_float str_to_float_value v) as [confidence|e4] eqn:E4.
  2:{ cbn [bind] in H. injection H as ->.
      apply float_field_overflow in E4. destruct E4 as (z & Hz & Hbig).
      left. exists "confidence", z. simpl. tauto. }
  cbn [bind] in H. discriminate.
Qed.

Lemma convert_raw_notes_spec (raw_notes : list (gmap string AnyValue)) :
  match
    convert_raw_notes str_to_float_value str_to_int raw_notes
  with
  | Returns note_events => (length note_events <= length raw_notes)%nat
  | Raises e =>
      e = OverflowError
      /\ exists note_dict,
           In note_dict raw_notes /\ aborts_conversion note_dict
  end.
Proof.
  induction raw_notes as [|note_dict rest IH]; cbn [convert_raw_notes].
  { simpl. lia. }
  destruct (to_raw_note str_to_float_value str_to_int note_dict)
    as [note|e] eqn:E.
  - destruct (convert_raw_notes str_to_float_value str_to_int rest)
      as [notes|e']; cbn [bind].
    + simpl. lia.
    + destruct IH as (He & d & Hd & Ha).
      split; [exact He|]. exists d. split; [now right|exact Ha].
  - destruct (caught e) eqn:Hc.
    + destruct (convert_raw_notes str_to_float_value str_to_int rest)
        as [notes|e'].
      * simpl. lia.
      * destruct IH as (He & d & Hd & Ha).
        split; [exact He|]. exists d. split; [now right|exact Ha].
    + destruct (to_raw_note_uncaught note_dict e E Hc) as (He & Ha).
      split; [exact He|]. exists note_dict. split; [now left|exact Ha].
Qed.


(** *** The key the interface reports *)

Lemma nth_key_name (k : nat) :
  (k < 12)%nat -> In (nth k key_names "") key_names.
Proof. intros H. apply nth_In. exact H. Qed.

(** X18: whenever [process_note_events] returns, the key it reports is
    one of the twelve note names, the mode is major or minor and the
    confidence lies in [0, 1]. *)
Theorem process_note_events_key_info
  (raw_notes : list (gmap string PyValue)) :
  match
    process_note_events corrcoef str_to_float str_to_int raw_notes
  with
  | Returns (_, key_info) =>
      In (KeyInfo.key key_info) key_names
      /\ (KeyInfo.mode key_info = "major"
          \/ KeyInfo.mode key_info = "minor")
      /\ 0 <= KeyInfo.confidence key_info <= 1
  | Raises _ => True
  end.
Proof.
  unfold process_note_events.
  destruct (convert_notes str_to_float str_to_int raw_notes)
    as [notes|e]; cbn [bind]; [|exact I].
  destruct notes as [|n l].
  { simpl. split; [tauto|]. split; [tauto|lra]. }
  unfold infer_chords. cbv zeta.
  match goal with
  | |- context [KeyDetector.estimate_key corrcoef ?ev] =>
      pose proof (estimate_key_fields corrcoef ev true) as H;
      cbv zeta in H; destruct H as (Hpc & Hmode & Hconf);
      fold (KeyDetector.estimate_key corrcoef ev) in Hpc, Hmode, Hconf
  end.
  cbn [KeyInfo.key KeyInfo.mode KeyInfo.confidence].
  split; [now apply nth_key_name|]. split; assumption.
Qed.

(** *** The round trip through the dictionaries of the server *)

Lemma to_note_round_trip (note : NoteEvent) :
  to_note str_to_float str_to_int (note_to_dict note) = Returns note.
Proof. destruct note. vm_compute. reflexivity. Qed.

Lemma convert_notes_round_trip (notes : list NoteEvent) :
  convert_notes str_to_float str_to_int (map note_to_dict notes)
  = Returns notes.
Proof.
  induction notes as [|note notes IH]; [reflexivity|].
  cbn [map convert_notes]. now rewrite to_note_round_trip, IH.
Qed.

(** X19: in the chord inference step of the server,
    [process_note_events] cannot raise on the dictionaries built from the
    validated notes: they convert back to the same notes, none is
    skipped, and the step answers with what the pipeline gives on these
    notes (no chord and C major 0.0 for no note), not with the fallback
    of the handler. *)
Theorem chord_inference_runs_pipeline (json_notes : list NoteEvent) :
  convert_notes str_to_float str_to_int (map note_to_dict json_notes)
  = Returns json_notes
  /\ chord_inference corrcoef str_to_float str_to_int json_notes
     = match json_notes with
       | [] => ([], default_key_info)
       | _ =>
           let '(chord_events, key_estimate) :=
             infer_chords corrcoef json_notes in
           (map chord_to_dict chord_events,
            KeyInfo.mk (nth (Key.key_pc key_estimate) key_names "")
                       (Key.mode key_estimate)
                       (Key.confidence key_estimate))
       end.
Proof.
  split; [apply convert_notes_round_trip|].
  unfold chord_inference, process_note_events.
  rewrite convert_notes_round_trip. cbn [bind].
  destruct json_notes as [|n l]; [reflexivity|].
  now destruct (infer_chords corrcoef (n :: l)).
Qed.

(** *** The note loop of the server *)

Lemma convert_model_note_spec (original_duration : Q) (note : ModelNote) :
  match convert_model_note str_to_float str_to_int original_duration note with
  | Returns (Some json_note) => within_audio original_duration json_note
  | Returns None => True
  | Raises e => e <> KeyError
  end.
Proof.
  unfold convert_model_note.
  destruct (length note <? 4)%nat; [exact I|].
  destruct (py_float str_to_float (nth 0 note PyNone)) as [onset|e] eqn:E0;
    cbn [bind]; [|now apply py_float_raises in E0].
  destruct (py_float str_to_float (nth 1 note PyNone)) as [offset|e] eqn:E1;
    cbn [bind]; [|now apply py_float_raises in E1].
  destruct (Qleb original_duration onset) eqn:Hon; [exact I|].
  destruct (py_int str_to_int (nth 2 note PyNone)) as [pitch|e] eqn:E2;
    cbn [bind]; [|now apply py_int_raises in E2].
  destruct (py_float str_to_float (nth 3 note PyNone)) as [conf|e] eqn:E3;
    cbn [bind]; [|now apply py_float_raises in E3].
  unfold within_audio. cbn [Note.onset Note.offset]. Qcompare.
  split; [exact Hon|].
  destruct (Qltb original_duration offset) eqn:Hoff; Qcompare;
    [apply Qle_refl|exact Hoff].
Qed.

End InterfaceExtras.

(** ** Chord identification: triads *)

Lemma name_eqb_eq (a b : string * string) : name_eqb a b = true -> a = b.
Proof.
  destruct a as [a1 a2], b as [b1 b2]. unfold name_eqb. simpl.
  intros H. apply andb_true_iff in H. destruct H as [H1 H2].
  apply String.eqb_eq in H1, H2. now subst.
Qed.

(** Every triad, in every order of its pitch classes, under one key of
    each root, mode and confidence band. *)
Lemma triads_named :
  forallb
    (fun key_estimate =>
       forallb
         (fun root =>
            forallb
              (fun minor =>
                 forallb
                   (fun pitch_classes =>
                      name_eqb
                        (_identify_chord pitch_classes key_estimate None)
                        (triad_name minor root))
                   (permutations (triad minor root)))
              [false; true])
         (seq 0 12))
    representative_keys = true.
Proof. vm_compute. reflexivity. Qed.

Lemma triads_of_key (key_estimate : KeyEstimate) (root : nat)
  (minor : bool) (pitch_classes : list nat) :
  In key_estimate representative_keys ->
  In root (seq 0 12) ->
  In pitch_classes (permutations (triad minor root)) ->
  _identify_chord pitch_classes key_estimate None = triad_name minor root.
Proof.
  intros Hk Hroot Hpcs.
  pose proof (proj1 (forallb_forall _ _) triads_named key_estimate Hk)
    as Hkey.
  cbv beta in Hkey.
  pose proof (proj1 (forallb_forall _ _) Hkey root Hroot) as Hr.
  cbv beta in Hr.
  assert (Hminor : In minor [false; true])
    by (destruct minor; simpl; tauto).
  pose proof (proj1 (forallb_forall _ _) Hr minor Hminor) as Hm.
  cbv beta in Hm.
  pose proof (proj1 (forallb_forall _ _) Hm pitch_classes Hpcs) as Hp.
  cbv beta in Hp. apply name_eqb_eq. exact Hp.
Qed.

Lemma well_formed_candidate (key_estimate : KeyEstimate) :
  key_well_formed key_estimate ->
  In (Key.key_pc key_estimate, Key.mode key_estimate) key_candidates.
Proof.
  intros (Hpc & Hmode & _). unfold key_candidates.
  apply in_flat_map. exists (Key.key_pc key_estimate).
  split; [apply in_seq; lia|].
  destruct Hmode as [-> | ->]; simpl; tauto.
Qed.

(** X21: without weights, the chord identifier names every major and
    every minor triad after its root: for each of the twelve roots, each
    order of the three pitch classes and each well-formed key estimate
    (whatever its confidence), the result is the root name with the
    suffix of the triad and the type major or minor; no other reading of
    the three pitch classes scores higher in any key context. *)
Theorem identify_chord_triads (key_estimate : KeyEstimate) (minor : bool)
  (root : nat) (pitch_classes : list nat) :
  key_well_formed key_estimate ->
  (root < 12)%nat ->
  Permutation pitch_classes (triad minor root) ->
  _identify_chord pitch_classes key_estimate None = triad_name minor root.
Proof.
  intros Hwf Hroot Hperm.
  pose proof (well_formed_candidate key_estimate Hwf) as Hc.
  destruct (representative_exists _ (Key.confidence key_estimate) Hc)
    as (k0 & Hk0 & Hequiv).
  cbn [fst snd] in Hequiv.
  assert (Hsame : _identify_chord pitch_classes key_estimate None
                  = _identify_chord pitch_classes k0 None).
  { destruct key_estimate as [kp m q]. apply identify_chord_equiv.
    exact Hequiv. }
  rewrite Hsame. apply triads_of_key.
  - exact Hk0.
  - apply in_seq. lia.
  - apply list_elem_of_In, permutations_Permutation. symmetry.
    exact Hperm.
Qed.

Lemma identify_chord_triads_witness :
  key_well_formed (Key.mk 9 "minor" (8 # 10))
  /\ (4 < 12)%nat
  /\ Permutation [11; 4; 7]%nat (triad true 4)
  /\ _identify_chord [11; 4; 7]%nat (Key.mk 9 "minor" (8 # 10)) None
     = triad_name true 4.
Proof.
  assert (Hwf : key_well_formed (Key.mk 9 "minor" (8 # 10))).
  { unfold key_well_formed. simpl. split; [lia|]. split; [tauto|lra]. }
  assert (Hlt : (4 < 12)%nat) by lia.
  assert (Hperm : Permutation [11; 4; 7]%nat (triad true 4)).
  { exact (Permutation_cons_append [4; 7]%nat 11%nat). }
  split; [exact Hwf|]. split; [exact Hlt|]. split; [exact Hperm|].
  exact (identify_chord_triads _ true 4%nat [11; 4; 7]%nat Hwf Hlt Hperm).
Defined.

(** ** The window smoother on binary64 floats *)

(** A timeline loop that has ended gives the same points with more
    fuel. *)
Lemma timeline64_more_fuel (n : nat) :
  forall (m : nat) (current_time end_time : PrimFloat.float)
         (timeline_points : list PrimFloat.float),
    ChordWindowSmoother64.timeline_loop n current_time end_time
    = Some timeline_points ->
    (n <= m)%nat ->
    ChordWindowSmoother64.timeline_loop m current_time end_time
    = Some timeline_points.
Proof.
  induction n as [|n IH]; intros m s e pts H Hle; [discriminate|].
  destruct m as [|m]; [lia|].
  cbn [ChordWindowSmoother64.timeline_loop] in *.
  destruct (PrimFloat.leb s e); [|exact H].
  destruct (ChordWindowSmoother64.timeline_loop n _ e) as [rest|] eqn:E;
    [|discriminate].
  rewrite (IH m _ _ rest E) by lia. exact H.
Qed.

Lemma smooth64_more_fuel (n m : nat)
  (chord_events out : list Chord64.ChordEvent) :
  ChordWindowSmoother64.smooth_chord_progression n chord_events = Some out ->
  (n <= m)%nat ->
  ChordWindowSmoother64.smooth_chord_progression m chord_events = Some out.
Proof.
  unfold ChordWindowSmoother64.smooth_chord_progression. intros H Hle.
  destruct (length chord_events <=? 2)%nat; [exact H|].
  cbv zeta in *. destruct (PrimFloat.leb (PrimFloat.sub _ _) _); [exact H|].
  destruct (ChordWindowSmoother64.timeline_loop n _ _) as [pts|] eqn:E;
    [|discriminate].
  rewrite (timeline64_more_fuel n m _ _ pts E Hle). exact H.
Qed.

(** The grid stops before its third point when that point exceeds the
    end, whether or not the loop gets that far. *)
Lemma timeline64_short (fuel : nat) (current_time end_time : PrimFloat.float) :
  PrimFloat.leb
    (PrimFloat.add
       (PrimFloat.add current_time
                      ChordWindowSmoother64.timeline_resolution)
       ChordWindowSmoother64.timeline_resolution)
    end_time = false ->
  exists timeline_points,
    ChordWindowSmoother64.timeline_loop (S (S (S fuel))) current_time
                                        end_time
    = Some timeline_points
    /\ (length timeline_points < 3)%nat.
Proof.
  intros Hthird. cbn [ChordWindowSmoother64.timeline_loop].
  destruct (PrimFloat.leb current_time end_time).
  - destruct (PrimFloat.leb
                (PrimFloat.add current_time
                               ChordWindowSmoother64.timeline_resolution)
                end_time).
    + rewrite Hthird. eexists. split; [reflexivity|]. simpl. lia.
    + eexists. split; [reflexivity|]. simpl. lia.
  - eexists. split; [reflexivity|]. simpl. lia.
Qed.

(** C10 (as amended): the window smoother returns its input unchanged
    whenever the third point of its grid, [start_time + 0.5 + 0.5] as the
    floating-point loop computes it, is not [<=] the last offset: the
    grid then has fewer than three points, fewer than the filter
    window.  The test is the one of the code; it is not the test
    [span < 1.0]. *)
Theorem smooth_short_grid_unchanged (fuel : nat)
  (chord_events : list Chord64.ChordEvent) :
  (3 <= fuel)%nat ->
  PrimFloat.leb (ChordWindowSmoother64.third_grid_point chord_events)
                (ChordWindowSmoother64.end_time chord_events) = false ->
  (exists timeline_points,
      ChordWindowSmoother64.timeline_loop
        fuel (ChordWindowSmoother64.start_time chord_events)
        (ChordWindowSmoother64.end_time chord_events)
      = Some timeline_points
      /\ (length timeline_points < 3)%nat)
  /\ ChordWindowSmoother64.smooth_chord_progression fuel chord_events
     = Some chord_events.
Proof.
  intros Hfuel Hthird.
  destruct fuel as [|[|[|fuel]]]; try lia.
  destruct (timeline64_short fuel _ _ Hthird) as (pts & Hpts & Hlen).
  split; [exists pts; split; assumption|].
  unfold ChordWindowSmoother64.smooth_chord_progression.
  destruct (length chord_events <=? 2)%nat; [reflexivity|].
  cbv zeta. destruct (PrimFloat.leb (PrimFloat.sub _ _) _); [reflexivity|].
  rewrite Hpts, length_map.
  change ChordWindowSmoother.filter_window with 3%nat.
  destruct (3 <=? length pts)%nat eqn:E; [|reflexivity].
  apply Nat.leb_le in E. lia.
Qed.

Lemma smooth_short_grid_unchanged_witness :
  (3 <= 3)%nat
  /\ PrimFloat.leb
       (ChordWindowSmoother64.third_grid_point
          ChordWindowSmoother64.chords_04_13)
       (ChordWindowSmoother64.end_time ChordWindowSmoother64.chords_04_13)
     = false
  /\ ChordWindowSmoother64.smooth_chord_progression
       3 ChordWindowSmoother64.chords_04_13
     = Some ChordWindowSmoother64.chords_04_13.
Proof.
  assert (H1 : (3 <= 3)%nat) by lia.
  assert (H2 : PrimFloat.leb
                 (ChordWindowSmoother64.third_grid_point
                    ChordWindowSmoother64.chords_04_13)
                 (ChordWindowSmoother64.end_time
                    ChordWindowSmoother64.chords_04_13) = false)
    by reflexivity.
  split; [exact H1|]. split; [exact H2|].
  exact (proj2 (smooth_short_grid_unchanged
                  3 ChordWindowSmoother64.chords_04_13 H1 H2)).
Defined.

(** C10 (counterexample to the claim as stated): three chords from 0.4 s
    to 1.4 s.  Their span is positive and below one second, as the float
    difference [end_time - start_time] (0.9999999999999999) and as the
    exact difference of the two floats; yet the grid 0.4, 0.4 + 0.5,
    0.4 + 0.5 + 0.5 has three points, the last one equal to the float
    1.4, and the smoother re-segments: it returns C from 0.4 to 1.4 and C
    from 1.4 to 1.4, not its input. *)
Theorem short_span_resegmented :
  (2 < length ChordWindowSmoother64.chords_04_14)%nat
  /\ PrimFloat.ltb PrimFloat.zero
       (ChordWindowSmoother64.span ChordWindowSmoother64.chords_04_14)
     = true
  /\ PrimFloat.ltb
       (ChordWindowSmoother64.span ChordWindowSmoother64.chords_04_14)
       PrimFloat.one
     = true
  /\ 0 < exact_value (ChordWindowSmoother64.end_time
                        ChordWindowSmoother64.chords_04_14)
         - exact_value (ChordWindowSmoother64.start_time
                          ChordWindowSmoother64.chords_04_14)
  /\ exact_value (ChordWindowSmoother64.end_time
                    ChordWindowSmoother64.chords_04_14)
     - exact_value (ChordWindowSmoother64.start_time
                      ChordWindowSmoother64.chords_04_14) < 1
  /\ ChordWindowSmoother64.timeline_loop
       4 (ChordWindowSmoother64.start_time
            ChordWindowSmoother64.chords_04_14)
       (ChordWindowSmoother64.end_time ChordWindowSmoother64.chords_04_14)
     = Some ChordWindowSmoother64.grid_04_14
  /\ (forall fuel,
         (4 <= fuel)%nat ->
         ChordWindowSmoother64.smooth_chord_progression
           fuel ChordWindowSmoother64.chords_04_14
         = Some ChordWindowSmoother64.resegmented_04_14)
  /\ ChordWindowSmoother64.resegmented_04_14
     <> ChordWindowSmoother64.chords_04_14.
Proof.
  split; [simpl; lia|].
  split; [vm_compute; reflexivity|].
  split; [vm_compute; reflexivity|].
  split; [vm_compute; reflexivity|].
  split; [vm_compute; reflexivity|].
  split; [vm_compute; reflexivity|].
  split.
  - intros fuel Hfuel. apply (smooth64_more_fuel 4 fuel); [|exact Hfuel].
    vm_compute. reflexivity.
  - unfold ChordWindowSmoother64.resegmented_04_14,
      ChordWindowSmoother64.chords_04_14.
    intros H. apply (f_equal (@length _)) in H. discriminate H.
Qed.
